(** * Model classes of the C# generator

    A shallow embedding of [ModelClass] (model-class.ts), of the virtual
    properties it creates (proxy-property.ts) and of [ModelProperty]
    (property.ts), with the properties of the natural-language specification
    stated over it.

    JavaScript objects that the generator compares by reference (schemas, the
    class and the interface generated for a schema) are represented by the
    identity of their schema, a natural number.  Objects that are mutated
    through several references (the class under construction, the classes of
    its parents, the interfaces) live in an explicit store, the [World]. *)

From Stdlib Require Import DecimalString DecimalNat.
From stdpp Require Import gmap strings list fin_maps.

Local Open Scope string_scope.
Local Open Scope list_scope.

(** ** Data model *)

Abbreviation SchemaId := nat.

(** [HeaderPropertyType] of the code model. *)
Inductive HeaderPropertyType := Body | Header | HeaderAndBody.

#[global] Instance HeaderPropertyType_eq_dec : EqDecision HeaderPropertyType.
Proof. solve_decision. Defined.

(** [Access] of the C# code generator. *)
Inductive Access := Public | Internal | Protected | Private.

#[global] Instance Access_eq_dec : EqDecision Access.
Proof. solve_decision. Defined.

(** A property of a schema: [details.csharp[HeaderProperty]] and the flags
    the generator reads. *)
Record Property := {
  serializedName : option string;
  headerProperty : option HeaderPropertyType;
  required : bool
}.

(** [schema.discriminator]: an object naming the discriminator property. *)
Record Discriminator := { propertyName : string }.

(** [JsonType] of the code model. *)
Inductive JsonType :=
  JsonArray | JsonBoolean | JsonInteger | JsonNumber | JsonObject | JsonString.

#[global] Instance JsonType_eq_dec : EqDecision JsonType.
Proof. solve_decision. Defined.

(** [schema.additionalProperties]: undefined, a boolean, or a schema. *)
Inductive AdditionalProperties :=
| APUndefined
| APBoolean (b : bool)
| APSchema (s : SchemaId).

#[global] Instance AdditionalProperties_eq_dec : EqDecision AdditionalProperties.
Proof. solve_decision. Defined.

Record Schema := {
  csharp_name : string;                             (* details.csharp.name *)
  csharp_fullname : string;                         (* details.csharp.fullname *)
  csharp_description : string;                      (* details.csharp.description *)
  schema_type : JsonType;                           (* type *)
  readOnly : bool;
  properties : list (string * Property);            (* dictionary, in key order *)
  allOf : list SchemaId;
  discriminator : option Discriminator;
  x_ms_discriminator_value : option string;         (* extensions['x-ms-discriminator-value'] *)
  additionalProperties : AdditionalProperties
}.

(** What [resolveTypeDeclaration] hands back for a schema. *)
Inductive TypeDeclaration := DeclarationOf (s : SchemaId).

(** [Statements]: a sequence of statement texts. *)
Abbreviation Statements := (list string).

(** An entry of an [interfaces] array: the model interface generated for a
    schema, one of the run-time interfaces, or a dictionary interface. *)
Inductive InterfaceRef :=
| ModelInterfaceOf (s : SchemaId)
| RuntimeInterface (name : string)
| IDictionaryOf (keyType valueType : string).

#[global] Instance InterfaceRef_eq_dec : EqDecision InterfaceRef.
Proof. solve_decision. Defined.

(** A property declared by a model interface. *)
Record InterfaceProperty := {
  ip_name : string;
  setAccess : Access
}.

(** The model interface of a schema.  The class is not among the sources;
    the record keeps the two members that [ModelClass] reads or updates,
    [name] and [interfaces], and the properties that the interface declares
    itself.  The [allProperties] getter is a collaborator, see
    [Environment]. *)
Record ModelInterface := {
  mi_name : string;
  mi_interfaces : list InterfaceRef;
  mi_properties : list InterfaceProperty
}.

Record Field := {
  field_name : string;
  field_type : TypeDeclaration;
  field_access : Access;
  field_initializer : option string;
  field_description : string
}.

Record BackingField := {
  field : Field;
  typeDeclaration : TypeDeclaration;
  className : string
}.

(** [VirtualProperty] of proxy-property.ts. *)
Record VirtualProperty := {
  vp_name : string;
  vp_type : InterfaceProperty;
  vp_description : string;
  getterStatements : option Statements;
  setterStatements : option Statements
}.

Record Method := {
  method_name : string;
  method_access : Access;
  method_parameters : list string;
  method_body : Statements
}.

Record ModelClass := {
  name : string;
  fullName : string;
  isPolymorphic : bool;
  discriminators : gmap string SchemaId;
  parentModelClasses : list SchemaId;
  modelInterface : SchemaId;
  interfaces : list InterfaceRef;
  fields : list Field;
  backingFields : list BackingField;
  class_properties : list VirtualProperty;
  methods : list Method;
  validationStatements : Statements;
  validateMethod : option Method;
  hasHeaderProperties : bool;
  jsonSerializer : bool;
  xmlSerializer : bool
}.

(** The project-wide flags read through [state.project]. *)
Record Project := {
  storagePipeline : bool;
  jsonSerialization : bool;
  xmlSerialization : bool
}.

(** [schema.details.csharp.classImplementation] and
    [schema.details.csharp.interfaceImplementation], for every schema. *)
Record World := {
  classImplementation : gmap SchemaId ModelClass;
  interfaceImplementation : gmap SchemaId ModelInterface
}.

(** ** Field updates *)

Definition set_discriminators (v : gmap string SchemaId) (c : ModelClass) : ModelClass :=
  Build_ModelClass (name c) (fullName c) (isPolymorphic c) v (parentModelClasses c)
    (modelInterface c) (interfaces c) (fields c) (backingFields c) (class_properties c)
    (methods c) (validationStatements c) (validateMethod c) (hasHeaderProperties c)
    (jsonSerializer c) (xmlSerializer c).

Definition set_parentModelClasses (v : list SchemaId) (c : ModelClass) : ModelClass :=
  Build_ModelClass (name c) (fullName c) (isPolymorphic c) (discriminators c) v
    (modelInterface c) (interfaces c) (fields c) (backingFields c) (class_properties c)
    (methods c) (validationStatements c) (validateMethod c) (hasHeaderProperties c)
    (jsonSerializer c) (xmlSerializer c).

Definition set_isPolymorphic (v : bool) (c : ModelClass) : ModelClass :=
  Build_ModelClass (name c) (fullName c) v (discriminators c) (parentModelClasses c)
    (modelInterface c) (interfaces c) (fields c) (backingFields c) (class_properties c)
    (methods c) (validationStatements c) (validateMethod c) (hasHeaderProperties c)
    (jsonSerializer c) (xmlSerializer c).

Definition set_interfaces (v : list InterfaceRef) (c : ModelClass) : ModelClass :=
  Build_ModelClass (name c) (fullName c) (isPolymorphic c) (discriminators c)
    (parentModelClasses c) (modelInterface c) v (fields c) (backingFields c)
    (class_properties c) (methods c) (validationStatements c) (validateMethod c)
    (hasHeaderProperties c) (jsonSerializer c) (xmlSerializer c).

Definition set_fields (v : list Field) (c : ModelClass) : ModelClass :=
  Build_ModelClass (name c) (fullName c) (isPolymorphic c) (discriminators c)
    (parentModelClasses c) (modelInterface c) (interfaces c) v (backingFields c)
    (class_properties c) (methods c) (validationStatements c) (validateMethod c)
    (hasHeaderProperties c) (jsonSerializer c) (xmlSerializer c).

Definition set_backingFields (v : list BackingField) (c : ModelClass) : ModelClass :=
  Build_ModelClass (name c) (fullName c) (isPolymorphic c) (discriminators c)
    (parentModelClasses c) (modelInterface c) (interfaces c) (fields c) v
    (class_properties c) (methods c) (validationStatements c) (validateMethod c)
    (hasHeaderProperties c) (jsonSerializer c) (xmlSerializer c).

Definition set_class_properties (v : list VirtualProperty) (c : ModelClass) : ModelClass :=
  Build_ModelClass (name c) (fullName c) (isPolymorphic c) (discriminators c)
    (parentModelClasses c) (modelInterface c) (interfaces c) (fields c) (backingFields c)
    v (methods c) (validationStatements c) (validateMethod c)
    (hasHeaderProperties c) (jsonSerializer c) (xmlSerializer c).

Definition set_methods (v : list Method) (c : ModelClass) : ModelClass :=
  Build_ModelClass (name c) (fullName c) (isPolymorphic c) (discriminators c)
    (parentModelClasses c) (modelInterface c) (interfaces c) (fields c) (backingFields c)
    (class_properties c) v (validationStatements c) (validateMethod c)
    (hasHeaderProperties c) (jsonSerializer c) (xmlSerializer c).

Definition set_validationStatements (v : Statements) (c : ModelClass) : ModelClass :=
  Build_ModelClass (name c) (fullName c) (isPolymorphic c) (discriminators c)
    (parentModelClasses c) (modelInterface c) (interfaces c) (fields c) (backingFields c)
    (class_properties c) (methods c) v (validateMethod c)
    (hasHeaderProperties c) (jsonSerializer c) (xmlSerializer c).

Definition set_validateMethod (v : option Method) (c : ModelClass) : ModelClass :=
  Build_ModelClass (name c) (fullName c) (isPolymorphic c) (discriminators c)
    (parentModelClasses c) (modelInterface c) (interfaces c) (fields c) (backingFields c)
    (class_properties c) (methods c) (validationStatements c) v
    (hasHeaderProperties c) (jsonSerializer c) (xmlSerializer c).

Definition set_hasHeaderProperties (v : bool) (c : ModelClass) : ModelClass :=
  Build_ModelClass (name c) (fullName c) (isPolymorphic c) (discriminators c)
    (parentModelClasses c) (modelInterface c) (interfaces c) (fields c) (backingFields c)
    (class_properties c) (methods c) (validationStatements c) (validateMethod c)
    v (jsonSerializer c) (xmlSerializer c).

Definition set_jsonSerializer (v : bool) (c : ModelClass) : ModelClass :=
  Build_ModelClass (name c) (fullName c) (isPolymorphic c) (discriminators c)
    (parentModelClasses c) (modelInterface c) (interfaces c) (fields c) (backingFields c)
    (class_properties c) (methods c) (validationStatements c) (validateMethod c)
    (hasHeaderProperties c) v (xmlSerializer c).

Definition set_xmlSerializer (v : bool) (c : ModelClass) : ModelClass :=
  Build_ModelClass (name c) (fullName c) (isPolymorphic c) (discriminators c)
    (parentModelClasses c) (modelInterface c) (interfaces c) (fields c) (backingFields c)
    (class_properties c) (methods c) (validationStatements c) (validateMethod c)
    (hasHeaderProperties c) (jsonSerializer c) v.

Definition set_mi_interfaces (v : list InterfaceRef) (i : ModelInterface) : ModelInterface :=
  Build_ModelInterface (mi_name i) v (mi_properties i).

(** ** Completions of generator code

    A call returns a value, or throws (which aborts the whole build), or does
    not come back: the recursion of the source goes deeper than the fuel
    given to the model. *)

Inductive completion (A : Type) : Type :=
| Returned (a : A)
| Thrown (e : string)
| Diverged.

Arguments Returned {A} a.
Arguments Thrown {A} e.
Arguments Diverged {A}.

(** Code that reads and updates the world. *)
Definition M (A : Type) : Type := World -> completion (A * World).

Definition ret {A} (a : A) : M A := fun w => Returned (a, w).

Definition bind {A B} (m : M A) (k : A -> M B) : M B :=
  fun w => match m w with
           | Returned (a, w') => k a w'
           | Thrown e => Thrown e
           | Diverged => Diverged
           end.

Definition throw {A} (e : string) : M A := fun _ => Thrown e.

Definition diverge {A} : M A := fun _ => Diverged.

(** A computation that does not touch the world. *)
Definition lift {A} (r : completion A) : M A :=
  fun w => match r with
           | Returned a => Returned (a, w)
           | Thrown e => Thrown e
           | Diverged => Diverged
           end.

Notation "x <- m ;; k" := (bind m (fun x => k))
  (at level 100, m at next level, right associativity).
Notation "m ;;; k" := (bind m (fun _ => k))
  (at level 100, right associativity).

(** [for (const x of l) body(x)] *)
Fixpoint forM_ {A} (l : list A) (body : A -> M unit) : M unit :=
  match l with
  | [] => ret tt
  | x :: l' => body x ;;; forM_ l' body
  end.

(** Reading a member of an object that is [undefined] is a [TypeError]. *)
Definition get_class (s : SchemaId) : M ModelClass :=
  fun w => match classImplementation w !! s with
           | Some c => Returned (c, w)
           | None => Thrown "TypeError"
           end.

Definition get_interface (s : SchemaId) : M ModelInterface :=
  fun w => match interfaceImplementation w !! s with
           | Some i => Returned (i, w)
           | None => Thrown "TypeError"
           end.

Definition put_class (s : SchemaId) (c : ModelClass) : M unit :=
  fun w => Returned (tt, Build_World (<[s := c]> (classImplementation w))
                                     (interfaceImplementation w)).

Definition put_interface (s : SchemaId) (i : ModelInterface) : M unit :=
  fun w => Returned (tt, Build_World (classImplementation w)
                                     (<[s := i]> (interfaceImplementation w))).

(** Reading a slot that may be [undefined]. *)
Definition find_interface (s : SchemaId) : M (option ModelInterface) :=
  fun w => Returned (interfaceImplementation w !! s, w).

Definition modify_class (s : SchemaId) (f : ModelClass -> ModelClass) : M unit :=
  c <- get_class s ;; put_class s (f c).

Definition modify_interface (s : SchemaId) (f : ModelInterface -> ModelInterface) : M unit :=
  i <- get_interface s ;; put_interface s (f i).

(** ** [getPrivateNameForField] *)

(** The text of a template literal [${n}] for a counter [n]. *)
Definition string_of_counter (n : nat) : string :=
  NilEmpty.string_of_uint (Nat.to_uint n).

(** [this.fields.find((v, i, a) => v.name === name)] found something. *)
Definition field_named (fs : list Field) (nm : string) : bool :=
  existsb (fun v => bool_decide (field_name v = nm)) fs.

(** The [do ... while (n < 100)] loop, with the loop variables [n] and
    [name]; [fuel] bounds the number of iterations of the model. *)
Fixpoint getPrivateNameForField_loop (fuel : nat) (fs : list Field) (baseName : string)
    (n : nat) (nm : string) : completion string :=
  match fuel with
  | 0 => Diverged
  | S fuel' =>
      if negb (field_named fs nm) then Returned nm
      else
        let nm' := baseName +:+ string_of_counter n in
        let n' := S n in
        if bool_decide (n' < 100)
        then getPrivateNameForField_loop fuel' fs baseName n' nm'
        else Thrown ("Unexpected number of private fields with name " +:+ baseName)
  end.

Definition getPrivateNameForField (fs : list Field) (baseName : string) : completion string :=
  getPrivateNameForField_loop 100 fs baseName 0 baseName.

(** The names the scan tries, in order: the base name, then the base name
    followed by 0, 1, ... *)
Definition candidate (baseName : string) (k : nat) : string :=
  match k with
  | 0 => baseName
  | S j => baseName +:+ string_of_counter j
  end.

Definition candidates (baseName : string) : list string :=
  map (candidate baseName) (seq 0 100).

(** ** JavaScript helpers *)

(** A string is truthy when it is defined and not empty. *)
Definition truthy_string (o : option string) : option string :=
  match o with
  | Some s => if bool_decide (s = "") then None else Some s
  | None => None
  end.

(** [Array.prototype.indexOf]: the first index, or -1. *)
Fixpoint indexOf {A} `{EqDecision A} (l : list A) (x : A) : Z :=
  match l with
  | [] => -1
  | y :: l' =>
      if decide (y = x) then 0
      else let r := indexOf l' x in
           if decide (r = -1)%Z then (-1)%Z else (r + 1)%Z
  end.

(** A number is truthy when it is not zero. *)
Definition truthy_number (z : Z) : bool := negb (bool_decide (z = 0%Z)).

Definition is_space (a : Ascii.ascii) : bool :=
  match Ascii.nat_of_ascii a with
  | 9 | 10 | 11 | 12 | 13 | 32 => true
  | _ => false
  end.

Fixpoint trim_start (s : string) : string :=
  match s with
  | String a s' => if is_space a then trim_start s' else s
  | EmptyString => EmptyString
  end.

(** [String.prototype.trim] on the characters of the model. *)
Definition trim (s : string) : string :=
  String.rev (trim_start (String.rev (trim_start s))).

Definition EOL : string := String (Ascii.ascii_of_nat 10) "".

Definition dquote : string := String (Ascii.ascii_of_nat 34) "".

(** [Statements.implementation]: the statements, one per line. *)
Definition implementation (stmts : Statements) : string :=
  String.concat EOL stmts.

(** ** Collaborators that are not part of the model class

    The schema graph, the project flags, and the functions of other modules
    that [ModelClass] calls for names and statement texts. *)
Record Environment := {
  schemas : gmap SchemaId Schema;
  project : Project;
  (* new ModelInterface(namespace, schema, this, state) *)
  newModelInterface : SchemaId -> Schema -> ModelInterface;
  (* the getter allProperties of the interface of a schema, which is read
     on the interfaces of the code model as they are at the time *)
  allProperties : gmap SchemaId ModelInterface -> SchemaId -> list InterfaceProperty;
  (* Class.fullName, from the name of the class *)
  classFullName : string -> string;
  (* Class.fileName, from the name of the class *)
  classFileName : string -> string;
  (* `_${camelCase(deconstruct(className.replace(/^.*\./, '')))}` *)
  backingFieldBaseName : string -> string;
  (* valueOf(expression) *)
  valueOf : InterfaceProperty -> string;
  (* parentTypeDeclaration.validatePresence(eventListener, backingField) *)
  validatePresence : TypeDeclaration -> string -> string;
  (* parentTypeDeclaration.validateValue(eventListener, backingField) *)
  validateValue : TypeDeclaration -> string -> string;
  (* new ModelField(this, property, serializedName, state) and its two statements *)
  newModelField : string -> Property -> Field;
  validatePresenceStatement : string -> Property -> string;
  validationStatement : string -> Property -> string;
  (* the statement that ReadHeaders emits for a header property *)
  readHeaderStatement : VirtualProperty -> string
}.

(** ** proxy-property.ts *)

(** [new VirtualProperty(name, containerExpression, type, state, { description })] *)
Definition VirtualProperty_new (nm : string) (containerExpression : string)
    (type : InterfaceProperty) (description : string) : VirtualProperty :=
  {| vp_name := nm;
     vp_type := type;
     vp_description := description;
     getterStatements := Some ["return " +:+ containerExpression +:+ "." +:+ nm +:+ ";"];
     setterStatements := Some [containerExpression +:+ "." +:+ nm +:+ " = value;"] |}.

Definition set_setterStatements (v : option Statements) (p : VirtualProperty) : VirtualProperty :=
  Build_VirtualProperty (vp_name p) (vp_type p) (vp_description p) (getterStatements p) v.

(** [new ProxyProperty(backingFieldObject, backingFieldProperty, state)],
    from the names of the backing field and of the property behind it. *)
Definition ProxyProperty_new (backingFieldObject : Field) (backingFieldProperty : InterfaceProperty)
    : VirtualProperty :=
  {| vp_name := ip_name backingFieldProperty;
     vp_type := backingFieldProperty;
     vp_description := "";
     getterStatements :=
       Some ["return " +:+ field_name backingFieldObject +:+ "."
               +:+ ip_name backingFieldProperty +:+ ";"];
     setterStatements :=
       Some [field_name backingFieldObject +:+ "." +:+ ip_name backingFieldProperty
               +:+ " = value;"] |}.

(** ** property.ts *)

(** A [ModelProperty]: the members of [BackedProperty] that its constructor
    assigns ([get], [set], [description]) and its own. *)
Record ModelProperty := {
  mp_name : string;
  mp_typeDeclaration : TypeDeclaration;
  mp_get : option string;
  mp_set : option string;
  mp_serializedName : string;
  mp_description : string;
  mp_required : bool
}.

(** The constructor of [ModelProperty], called without object initialiser,
    after [resolveTypeDeclaration] gave [decl] and [super(name, decl)] left
    the accessors [get] and [set]; [classImplementation] tells whether the
    schema of the property has a class. *)
Definition ModelProperty_new (nm : string) (decl : TypeDeclaration)
    (get set : option string) (schema : Schema) (classImplementation : bool)
    (isRequired : bool) (serialized description : string) : ModelProperty :=
  let set' := if readOnly schema then None else set in
  let get' :=
    match get with
    | Some value =>
        if bool_decide (schema_type schema = JsonObject) && classImplementation
        then Some ("(" +:+ value +:+ " = " +:+ value +:+ " ?? new "
                     +:+ csharp_fullname schema +:+ "())")
        else get
    | None => get
    end in
  {| mp_name := nm;
     mp_typeDeclaration := decl;
     mp_get := get';
     mp_set := set';
     mp_serializedName := serialized;
     mp_description := description;
     mp_required := isRequired |}.

(** [validatePresenceStatement] and [validationStatement] of a property;
    [presence] and [value] are the statements of its type declaration. *)
Definition ModelProperty_validatePresenceStatement (presence : string) (p : ModelProperty)
    : string :=
  if mp_required p then presence else "".

Definition ModelProperty_validationStatement (value : string) (p : ModelProperty) : string :=
  value.

(** Neither [VirtualProperty] nor [ModelProperty] declares [IsHeaderProperty]
    (the member is disabled in property.ts): reading it gives [undefined]. *)
Definition IsHeaderProperty (p : VirtualProperty) : bool := false.

(** Modelled from the spec: [implementIDictionary] of ./idictionary is not
    among the sources.  The spec says that it attaches a key/value collection
    capability to the descriptor; the model records the capability as the
    dictionary interface with the given key and value types, added to the
    interfaces of the class. *)
Definition implementIDictionary (keyType valueType : string) (c : ModelClass) : ModelClass :=
  set_interfaces (interfaces c ++ [IDictionaryOf keyType valueType]) c.

(** [System.String] and [System.Object]. *)
Definition System_String : string := "string".
Definition System_Object : string := "object".

(** [ClientRuntime.IValidates] *)
Definition IValidates : InterfaceRef := RuntimeInterface "IValidates".

(** Modelled from the spec: the models namespace and its
    [resolveTypeDeclaration] are not among the sources.  Called with
    [required = true], as [ModelClass] does, it fails when the schema is not
    in the schema graph, returns the existing descriptor when the schema
    identity was resolved before, and otherwise runs the construction of the
    schema's class ([construct]) before returning. *)
Definition resolveTypeDeclaration (schemas : gmap SchemaId Schema)
    (construct : SchemaId -> M unit) (schema : SchemaId) : M TypeDeclaration :=
  fun w =>
    match schemas !! schema with
    | None => Thrown "BuildError"
    | Some _ =>
        match classImplementation w !! schema with
        | Some _ => Returned (DeclarationOf schema, w)
        | None => (construct schema ;;; ret (DeclarationOf schema)) w
        end
    end.

(** ** model-class.ts *)

Section ModelClass.
Variable E : Environment.

(** [addDiscriminator], a method of the class of schema [this]. *)
Fixpoint addDiscriminator (fuel : nat) (this : SchemaId)
    (discriminatorValue : string) (modelClass : SchemaId) : M unit :=
  match fuel with
  | 0 => diverge
  | S fuel' =>
      modify_class this (fun c =>
        set_discriminators (<[discriminatorValue := modelClass]> (discriminators c)) c) ;;;
      (* tell any polymorphic parents *)
      c <- get_class this ;;
      forM_ (parentModelClasses c) (fun each =>
        addDiscriminator fuel' each discriminatorValue modelClass)
  end.

(** [parentInterface.allProperties], for the interface of the schema [s]. *)
Definition get_allProperties (s : SchemaId) : M (list InterfaceProperty) :=
  fun w => Returned (allProperties E (interfaceImplementation w) s, w).

(** The body of the loop over [parentInterface.allProperties]: the virtual
    property is added to the class, and the object that was added loses its
    setter when the property's setter is internal. *)
Definition addInheritedProperty (description : string) (each : InterfaceProperty)
    (c : ModelClass) : ModelClass :=
  let vp := VirtualProperty_new (ip_name each) (valueOf E each) each description in
  let c1 := set_class_properties (class_properties c ++ [vp]) c in
  if decide (setAccess each = Internal)
  then set_class_properties
         (alter (set_setterStatements None) (length (class_properties c)) (class_properties c1))
         c1
  else c1.

Definition addInheritedProperties (description : string) (ps : list InterfaceProperty)
    (c : ModelClass) : ModelClass :=
  foldl (fun c each => addInheritedProperty description each c) c ps.

Definition inheritedDescription (parentInterface : ModelInterface) (parentSchema : Schema)
    : string :=
  "Inherited model <see cref=" +:+ dquote +:+ mi_name parentInterface +:+ dquote +:+ " /> - "
    +:+ csharp_description parentSchema.

(** [implementInterfaceForParentSchema], a method of the class of schema
    [this]; [resolveTypeDeclaration] is the resolver of the models
    namespace. *)
Fixpoint implementInterfaceForParentSchema
    (resolveTypeDeclaration : SchemaId -> M TypeDeclaration)
    (fuel : nat) (this parentSchema : SchemaId) : M unit :=
  match fuel with
  | 0 => diverge
  | S fuel' =>
      (* ensure the parent is already built. *)
      parentTypeDeclaration <- resolveTypeDeclaration parentSchema ;;
      me <- get_class this ;;
      mine <- get_interface (modelInterface me) ;;
      parentInterface <- find_interface parentSchema ;;
      let index := match parentInterface with
                   | Some _ => indexOf (mi_interfaces mine) (ModelInterfaceOf parentSchema)
                   | None => (-1)%Z
                   end in
      if truthy_number index then
        (* already done this one (must be referred to more than once?) *)
        ret tt
      else
        modify_interface (modelInterface me) (fun i =>
          set_mi_interfaces (mi_interfaces i ++ [ModelInterfaceOf parentSchema]) i) ;;;
        (* add a field for the inherited values *)
        parentClass <- get_class parentSchema ;;
        let className := fullName parentClass in
        me <- get_class this ;;
        fieldName <- lift (getPrivateNameForField (fields me)
                             (backingFieldBaseName E className)) ;;
        let backingField :=
          {| field_name := fieldName;
             field_type := parentTypeDeclaration;
             field_access := Private;
             field_initializer := Some ("new " +:+ className +:+ "()");
             field_description :=
               "Backing field for <see cref=" +:+ dquote +:+ classFileName E (name me)
                 +:+ dquote +:+ " />" |} in
        modify_class this (fun c => set_fields (fields c ++ [backingField]) c) ;;;
        modify_class this (fun c =>
          set_backingFields
            (backingFields c ++
               [{| className := className;
                   typeDeclaration := parentTypeDeclaration;
                   field := backingField |}]) c) ;;;
        parentInterface <- get_interface parentSchema ;;
        inherited <- get_allProperties parentSchema ;;
        parent <- lift (match schemas E !! parentSchema with
                        | Some s => Returned s
                        | None => Thrown "TypeError"
                        end) ;;
        modify_class this
          (addInheritedProperties (inheritedDescription parentInterface parent) inherited) ;;;
        modify_class this (fun c =>
          set_validationStatements
            (validationStatements c ++ [validatePresence E parentTypeDeclaration fieldName]) c) ;;;
        modify_class this (fun c =>
          set_validationStatements
            (validationStatements c ++ [validateValue E parentTypeDeclaration fieldName]) c) ;;;
        (* handle parents of parents *)
        forM_ (allOf parent) (fun each =>
          implementInterfaceForParentSchema resolveTypeDeclaration fuel' this parentSchema)
  end.

(** [property.details.csharp[HeaderProperty] === HeaderPropertyType.Header
     || property.details.csharp[HeaderProperty] === HeaderPropertyType.Header] *)
Definition isHeaderProperty (property : Property) : bool :=
  bool_decide (headerProperty property = Some Header)
  || bool_decide (headerProperty property = Some Header).

(** The state of a class after [super(...)], the field initialisers and
    lines 87 to 94 of the constructor, called without object initialiser. *)
Definition emptyClass (this : SchemaId) (schema : Schema) : ModelClass :=
  {| name := csharp_name schema;
     fullName := classFullName E (csharp_name schema);
     isPolymorphic := false;
     discriminators := ∅;
     parentModelClasses := [];
     modelInterface := this;
     interfaces := [];
     fields := [];
     backingFields := [];
     class_properties := [];
     methods := [];
     validationStatements := [];
     validateMethod := None;
     hasHeaderProperties := false;
     jsonSerializer := false;
     xmlSerializer := false |}.

Definition eventListener : string := "eventListener".

(** Lines 115 to 134: a class with a discriminator value tells its
    polymorphic parents who it is. *)
Definition registerWithParents (resolveTypeDeclaration : SchemaId -> M TypeDeclaration)
    (fuel : nat) (this : SchemaId) (schema : Schema) : M unit :=
  match truthy_string (x_ms_discriminator_value schema) with
  | Some discriminatorValue =>
      forM_ (allOf schema) (fun parentSchema =>
        (* ensure the parent is already built. *)
        parentDecl <- resolveTypeDeclaration parentSchema ;;
        parentClass <- get_class parentSchema ;;
        if isPolymorphic parentClass then
          (* remember this class for later. *)
          modify_class this (fun c =>
            set_parentModelClasses (parentModelClasses c ++ [parentSchema]) c) ;;;
          (* tell that parent who we are. *)
          addDiscriminator fuel parentSchema discriminatorValue this
        else ret tt)
  | None => ret tt
  end.

(** Lines 149 to 160: a field and two validation statements per property. *)
Definition addProperty (index : string) (property : Property) (c : ModelClass) : ModelClass :=
  let serialized := default index (truthy_string (serializedName property)) in
  let c1 := set_fields (fields c ++ [newModelField E serialized property]) c in
  let c2 := set_validationStatements
              (validationStatements c1 ++ [validatePresenceStatement E serialized property]) c1 in
  set_validationStatements
    (validationStatements c2 ++ [validationStatement E serialized property]) c2.

Definition addProperties (ps : list (string * Property)) (c : ModelClass) : ModelClass :=
  foldl (fun c kv => addProperty kv.1 kv.2 c) c ps.

(** Lines 183 to 193: the additional properties of the schema. *)
Definition implementAdditionalProperties (schema : Schema) (c : ModelClass) : ModelClass :=
  match additionalProperties schema with
  | APUndefined => c
  | APBoolean false => c
  | APBoolean true =>
      (* we're going to implement IDictionary<string, object> *)
      implementIDictionary System_String System_Object c
  | APSchema _ =>
      (* we're going to implement IDictionary<string, schema.additionalProperties> *)
      c
  end.

(** Lines 194 to 208: the Validate method.  The method object is shared by
    [methods] and [validateMethod]; its body is the validation statements. *)
Definition implementValidation (c : ModelClass) : ModelClass :=
  if negb (storagePipeline (project E)) then
    if negb (bool_decide (trim (implementation (validationStatements c)) = "")) then
      (* we do have something to valdiate! *)
      let c1 := set_interfaces (interfaces c ++ [IValidates]) c in
      let validate :=
        {| method_name := "Validate";
           method_access := Public;
           method_parameters := [eventListener];
           method_body := validationStatements c |} in
      set_validateMethod (Some validate) (set_methods (methods c1 ++ [validate]) c1)
    else c
  else c.

(** Lines 213 to 235: the ReadHeaders method. *)
Definition implementReadHeaders (c : ModelClass) : ModelClass :=
  let headerProperties := filter (fun p => IsHeaderProperty p = true) (class_properties c) in
  if hasHeaderProperties c then
    let readHeaders :=
      {| method_name := "ReadHeaders";
         method_access := Internal;
         method_parameters := ["headers"];
         method_body := map (readHeaderStatement E) headerProperties ++ ["return this;"] |} in
    set_methods (methods c ++ [readHeaders]) c
  else c.

(** Lines 236 to 249: the serializers. *)
Definition implementSerializers (c : ModelClass) : ModelClass :=
  let hasNonHeaderProperties :=
    existsb (fun p => negb (IsHeaderProperty p)) (class_properties c) in
  let c1 := if jsonSerialization (project E) then set_jsonSerializer true c else c in
  if hasNonHeaderProperties then
    if xmlSerialization (project E) then set_xmlSerializer true c1 else c1
  else c1.

(** Lines 86 to 113 of the constructor, called without object
    initialiser: the class is published in the code model, then it gets its
    header flag, its interface and its polymorphism flag. *)
Definition ModelClass_prologue (this : SchemaId) (schema : Schema) : M unit :=
  (* mark the code-model with the class we're creating. *)
  put_class this (emptyClass this schema) ;;;
  (* get all the header properties for this model *)
  modify_class this
    (set_hasHeaderProperties (existsb (fun kv => isHeaderProperty kv.2) (properties schema))) ;;;
  (* schema.details.csharp.interfaceImplementation || new ModelInterface(...);
     a new interface is recorded in the code model of the schema *)
  existing <- find_interface this ;;
  match existing with
  | Some _ => ret tt
  | None => put_interface this (newModelInterface E this schema)
  end ;;;
  modify_class this (fun c => set_interfaces (interfaces c ++ [ModelInterfaceOf this]) c) ;;;
  match discriminator schema with
  | Some _ =>
      (* this has a discriminator property. *)
      modify_class this (set_isPolymorphic true)
  | None => ret tt
  end.

(** Line 136: the default constructor of the generated class. *)
Definition addDefaultConstructor (c : ModelClass) : ModelClass :=
  set_methods (methods c ++ [{| method_name := name c;
                                method_access := Public;
                                method_parameters := [];
                                method_body := [] |}]) c.

(** Lines 149 to 250, which only touch the class itself.  The loop over
    [virtualProperties] (lines 167 to 181) has three empty cases and does
    nothing. *)
Definition ModelClass_epilogue (schema : Schema) (c : ModelClass) : ModelClass :=
  implementSerializers
    (implementReadHeaders
       (implementValidation
          (implementAdditionalProperties schema
             (addProperties (properties schema) c)))).

(** The constructor of [ModelClass] for schema [this]. *)
Definition ModelClass_constructor (resolve : SchemaId -> M TypeDeclaration)
    (fuel : nat) (this : SchemaId) (schema : Schema) : M unit :=
  ModelClass_prologue this schema ;;;
  registerWithParents resolve fuel this schema ;;;
  modify_class this addDefaultConstructor ;;;
  (* handle <allOf>s *)
  forM_ (allOf schema) (fun parentSchema =>
    implementInterfaceForParentSchema resolve fuel this parentSchema) ;;;
  modify_class this (ModelClass_epilogue schema).

(** [new ModelClass(namespace, schemaWithFeatures, state)] for the schema
    [this]; the resolver it uses constructs the classes that are missing. *)
Fixpoint ModelClass_new (fuel : nat) (this : SchemaId) : M unit :=
  match fuel with
  | 0 => diverge
  | S fuel' =>
      match schemas E !! this with
      | Some schema =>
          ModelClass_constructor
            (resolveTypeDeclaration (schemas E) (ModelClass_new fuel')) fuel' this schema
      | None => throw "TypeError"
      end
  end.

(** The resolver of the build pass. *)
Definition resolve (fuel : nat) : SchemaId -> M TypeDeclaration :=
  resolveTypeDeclaration (schemas E) (ModelClass_new fuel).

(** Modelled from the spec: the driver of the build pass is not among the
    sources.  The pass resolves the schemas of the graph one after the
    other, each with [required = true]. *)
Definition build (fuel : nat) (roots : list SchemaId) : M unit :=
  forM_ roots (fun s => resolve fuel s ;;; ret tt).

End ModelClass.

Definition emptyWorld : World :=
  {| classImplementation := ∅; interfaceImplementation := ∅ |}.

(** ** Predicates of the specification *)

(** The map of the class of [a] sends the literal [v] to the class [D]. *)
Definition holds (w : World) (a : SchemaId) (v : string) (D : SchemaId) : Prop :=
  exists c, classImplementation w !! a = Some c /\ discriminators c !! v = Some D.

(** [b] is recorded in the polymorphic-parent list of [a]. *)
Definition parent_of (w : World) (a b : SchemaId) : Prop :=
  exists c, classImplementation w !! a = Some c /\ b ∈ parentModelClasses c.

(** The recorded parent lists are well founded: every recorded parent is a
    class of the world, of smaller rank. *)
Definition ranked (rank : SchemaId -> nat) (w : World) : Prop :=
  forall a b, parent_of w a b ->
    is_Some (classImplementation w !! b) /\ rank b < rank a.

Definition register_in (v : string) (D : SchemaId) (c : ModelClass) : ModelClass :=
  set_discriminators (<[v := D]> (discriminators c)) c.

(** What a registration of [v] for [D] may do to a world: some classes get
    the entry, nothing else changes. *)
Definition registered (v : string) (D : SchemaId) (w w' : World) : Prop :=
  interfaceImplementation w' = interfaceImplementation w /\
  forall i, option_Forall2 (fun c c' => c' = c \/ c' = register_in v D c)
              (classImplementation w !! i) (classImplementation w' !! i).

Definition with_class (s : SchemaId) (c : ModelClass) (w : World) : World :=
  Build_World (<[s := c]> (classImplementation w)) (interfaceImplementation w).

Definition with_interface (s : SchemaId) (i : ModelInterface) (w : World) : World :=
  Build_World (classImplementation w) (<[s := i]> (interfaceImplementation w)).

(** [m] relates the world it is run in with the world it returns. *)
Definition respects {A} (R : relation World) (m : M A) : Prop :=
  forall w a w', m w = Returned (a, w') -> R w w'.

(** The members of a class that only its own constructor assigns, outside
    the loops over [allOf]. *)
Definition shape (c : ModelClass) :=
  (name c, fullName c, isPolymorphic c, modelInterface c, interfaces c, methods c,
   validateMethod c, hasHeaderProperties c, jsonSerializer c, xmlSerializer c).

(** The Validate method that [implementValidation] creates for a class. *)
Definition validateOf (c : ModelClass) : Method :=
  {| method_name := "Validate";
     method_access := Public;
     method_parameters := [eventListener];
     method_body := validationStatements c |}.

(** The members of a class that the epilogue may assign, with those that
    the claims below read. *)
Definition view (c : ModelClass) :=
  (isPolymorphic c, hasHeaderProperties c, validationStatements c, class_properties c,
   interfaces c, validateMethod c, methods c).

(** The members of a class that make the discriminator registry. *)
Definition regview (c : ModelClass) := (parentModelClasses c, discriminators c).

Definition dictionaryOf (schema : Schema) : list InterfaceRef :=
  if decide (additionalProperties schema = APBoolean true)
  then [IDictionaryOf System_String System_Object] else [].

Section Frames.
Variable E : Environment.

Definition readHeadersOf (c : ModelClass) : Method :=
  {| method_name := "ReadHeaders";
     method_access := Internal;
     method_parameters := ["headers"];
     method_body :=
       (map (readHeaderStatement E)
            (filter (fun p => IsHeaderProperty p = true) (class_properties c))
        ++ ["return this;"])%list |}.

(** The test that guards the validation capability. *)
Definition validationWanted (c : ModelClass) : bool :=
  negb (storagePipeline (project E))
  && negb (bool_decide (trim (implementation (validationStatements c)) = "")).


(** The schema [d] carries the discriminator value [u]. *)
Definition declares (d : SchemaId) (u : string) : Prop :=
  exists sch, schemas E !! d = Some sch /\
              truthy_string (x_ms_discriminator_value sch) = Some u.

(** An entry of a discriminator map changes only into a class that carries
    the literal. *)
Definition discriminators_step (c c' : ModelClass) : Prop :=
  forall u, discriminators c' !! u = discriminators c !! u \/
            exists d, declares d u /\ discriminators c' !! u = Some d.

(** What the construction of a class does to another class. *)
Definition other_step (c c' : ModelClass) : Prop :=
  set_discriminators ∅ c' = set_discriminators ∅ c /\ discriminators_step c c'.

(** What the loops over [allOf] do to the class under construction. *)
Definition own_step (c c' : ModelClass) : Prop :=
  shape c' = shape c /\ discriminators_step c c'.

Definition frame (own : relation ModelClass) (s : SchemaId) (w w' : World) : Prop :=
  forall i c, classImplementation w !! i = Some c ->
    exists c', classImplementation w' !! i = Some c' /\
      if decide (i = s) then own c c' else other_step c c'.

Definition constructing : SchemaId -> relation World := frame own_step.

(** No class is under construction: every class takes the step of the
    others (the schema named is immaterial). *)
Definition evolves : relation World := frame other_step 0.

Definition any_step : relation ModelClass := fun _ _ => True.

(** The class at the end of [ModelClass_prologue]. *)
Definition prologueClass (this : SchemaId) (schema : Schema) : ModelClass :=
  let c := set_interfaces [ModelInterfaceOf this]
             (set_hasHeaderProperties
                (existsb (fun kv => isHeaderProperty kv.2) (properties schema))
                (emptyClass E this schema)) in
  match discriminator schema with
  | Some _ => set_isPolymorphic true c
  | None => c
  end.

(** The schema graph is a DAG along [allOf]: every parent has a smaller rank. *)
Definition acyclic (rk : SchemaId -> nat) : Prop :=
  forall s sch p, schemas E !! s = Some sch -> p ∈ allOf sch -> rk p < rk s.

(** Every recorded polymorphic parent is a class of the world, and none is
    among the classes [busy] with their own construction. *)
Definition registry_closed (busy : gset nat) (w : World) : Prop :=
  forall x p, parent_of w x p -> is_Some (classImplementation w !! p) /\ p ∉ busy.

(** Every class reachable from a recorded polymorphic parent of a class that
    carries a literal holds an entry for the literal, to a class that carries
    it. *)
Definition registry_complete (w : World) : Prop :=
  forall d p a v, declares d v -> parent_of w d p -> rtc (parent_of w) p a ->
    exists D, declares D v /\ holds w a v D.

Definition registry_inv (busy : gset nat) (w : World) : Prop :=
  registry_closed busy w /\ registry_complete w.

End Frames.

(** Two worlds with the same registry. *)
Definition same_registry (w w' : World) : Prop :=
  forall i, regview <$> classImplementation w !! i = regview <$> classImplementation w' !! i.

Definition preserves {A} (I : World -> Prop) (m : M A) : Prop :=
  forall w a w', I w -> m w = Returned (a, w') -> I w'.

(** A text that holds white space only. *)
Fixpoint all_space (s : string) : bool :=
  match s with
  | EmptyString => true
  | String a s' => is_space a && all_space s'
  end.

(** The validation sequence holds something to validate: one of the
    statements added to it is not blank. *)
Definition nonEmpty (stmts : Statements) : Prop :=
  Exists (fun stmt => all_space stmt = false) stmts.

Definition exhausted (baseName : string) : completion string :=
  Thrown ("Unexpected number of private fields with name " +:+ baseName).

Definition suffixes : list string :=
  "" :: map string_of_counter (seq 0 99).

(** ** Sample inputs *)

Definition sampleInterface (s : SchemaId) (schema : Schema) : ModelInterface :=
  {| mi_name := "I" +:+ csharp_name schema;
     mi_interfaces := [];
     mi_properties :=
       map (fun kv => {| ip_name := kv.1; setAccess := Public |}) (properties schema) |}.

(** The [allProperties] getter of the samples: the properties that the
    interface declares, then those of the model interfaces that it lists,
    one after the other, to a depth of [depth]. *)
Fixpoint sampleAllProperties (depth : nat) (store : gmap SchemaId ModelInterface)
    (s : SchemaId) : list InterfaceProperty :=
  match depth with
  | 0 => []
  | S depth' =>
      match store !! s with
      | Some i =>
          mi_properties i ++
          flat_map (fun r => match r with
                             | ModelInterfaceOf p => sampleAllProperties depth' store p
                             | _ => []
                             end) (mi_interfaces i)
      | None => []
      end
  end.

Definition sampleEnvironment (graph : gmap SchemaId Schema) (p : Project) : Environment :=
  {| schemas := graph;
     project := p;
     newModelInterface := sampleInterface;
     allProperties := sampleAllProperties 8;
     classFullName := fun n => n;
     classFileName := fun n => n;
     backingFieldBaseName := fun n => "_" +:+ n;
     valueOf := ip_name;
     validatePresence := fun _ f => "await eventListener.AssertNotNull(" +:+ f +:+ ");";
     validateValue := fun _ f => "await eventListener.AssertObjectIsValid(" +:+ f +:+ ");";
     newModelField := fun n _ =>
       {| field_name := "_" +:+ n; field_type := DeclarationOf 0; field_access := Internal;
          field_initializer := None; field_description := n |};
     validatePresenceStatement := fun n p =>
       if required p then "await eventListener.AssertNotNull(" +:+ n +:+ ");" else "";
     validationStatement := fun _ _ => "";
     readHeaderStatement := fun p => vp_name p |}.

Definition defaultProject : Project :=
  {| storagePipeline := false; jsonSerialization := true; xmlSerialization := false |}.

Definition objectSchema (n : string) (props : list (string * Property))
    (parents : list SchemaId) (disc : option Discriminator) (value : option string)
    (additional : AdditionalProperties) : Schema :=
  {| csharp_name := n; csharp_fullname := n; csharp_description := n;
     schema_type := JsonObject; readOnly := false; properties := props; allOf := parents;
     discriminator := disc; x_ms_discriminator_value := value;
     additionalProperties := additional |}.

Definition kind : option Discriminator := Some {| propertyName := "kind" |}.

Definition dog : Schema := objectSchema "Dog" [] [0] None (Some "dog") APUndefined.

(** Animal (discriminator property kind), Dog and Cat. *)
Definition zoo : gmap SchemaId Schema :=
  <[0 := objectSchema "Animal" [] [] kind None APUndefined]>
  (<[1 := dog]>
  (<[2 := objectSchema "Cat" [] [0] None (Some "cat") APUndefined]> ∅)).

(** The root R, its child C (literal c, polymorphic too) and the
    grandchild G (literal g). *)
Definition chain : gmap SchemaId Schema :=
  <[0 := objectSchema "R" [] [] kind None APUndefined]>
  (<[1 := objectSchema "C" [] [0] kind (Some "c") APUndefined]>
  (<[2 := objectSchema "G" [] [1] None (Some "g") APUndefined]> ∅)).

(** Two subclasses of Animal that carry the same literal. *)
Definition kennel : gmap SchemaId Schema :=
  <[0 := objectSchema "Animal" [] [] kind None APUndefined]>
  (<[1 := objectSchema "Dog" [] [0] None (Some "dog") APUndefined]>
  (<[2 := objectSchema "Hound" [] [0] None (Some "dog") APUndefined]> ∅)).

(** The world that a run leaves, when it returns. *)
Definition worldOf (r : completion (unit * World)) : World :=
  match r with
  | Returned (_, w) => w
  | _ => {| classImplementation := ∅; interfaceImplementation := ∅ |}
  end.

Definition zooEnvironment : Environment := sampleEnvironment zoo defaultProject.
Definition chainEnvironment : Environment := sampleEnvironment chain defaultProject.
Definition kennelEnvironment : Environment := sampleEnvironment kennel defaultProject.

(** A world in which the interface of schema [s] exists already and lists
    the interface of [p] first. *)
Definition seeded (s p : SchemaId) (n : string) : World :=
  {| classImplementation := ∅;
     interfaceImplementation :=
       {[ s := {| mi_name := n; mi_interfaces := [ModelInterfaceOf p]; mi_properties := [] |} ]} |}.

(** Derived names Base twice in its [allOf]. *)
Definition twice : gmap SchemaId Schema :=
  <[0 := objectSchema "Base" [] [] None None APUndefined]>
  (<[1 := objectSchema "Derived" [] [0; 0] None None APUndefined]> ∅).

Definition twiceEnvironment : Environment := sampleEnvironment twice defaultProject.

Definition plainProperty : Property :=
  {| serializedName := None; headerProperty := None; required := false |}.

Definition requiredProperty : Property :=
  {| serializedName := None; headerProperty := None; required := true |}.

Definition headerSourced : Property :=
  {| serializedName := None; headerProperty := Some Header; required := false |}.

(** Child has the parent Parent, which has the parent Grand. *)
Definition lineage : gmap SchemaId Schema :=
  <[0 := objectSchema "Grand" [("grandName", plainProperty)] [] None None APUndefined]>
  (<[1 := objectSchema "Parent" [("parentName", plainProperty)] [0] None None APUndefined]>
  (<[2 := objectSchema "Child" [] [1] None None APUndefined]> ∅)).

Definition lineageEnvironment : Environment := sampleEnvironment lineage defaultProject.

(** Child has no property of its own; its parent has a header property. *)
Definition headers : gmap SchemaId Schema :=
  <[0 := objectSchema "Parent" [("etag", headerSourced)] [] None None APUndefined]>
  (<[1 := objectSchema "Child" [] [0] None None APUndefined]> ∅).

Definition headersEnvironment : Environment := sampleEnvironment headers defaultProject.

(** Schemas with typed, unconstrained and absent additional properties. *)
Definition bags : gmap SchemaId Schema :=
  <[0 := objectSchema "Value" [] [] None None APUndefined]>
  (<[1 := objectSchema "Typed" [] [] None None (APSchema 0)]>
  (<[2 := objectSchema "Open" [] [] None None (APBoolean true)]> ∅)).

Definition bagsEnvironment : Environment := sampleEnvironment bags defaultProject.

(** A schema with one required property. *)
Definition checked : gmap SchemaId Schema :=
  <[0 := objectSchema "Checked" [("id", requiredProperty)] [] None None APUndefined]> ∅.

Definition storageProject : Project :=
  {| storagePipeline := true; jsonSerialization := true; xmlSerialization := false |}.

Definition checkedEnvironment (p : Project) : Environment := sampleEnvironment checked p.

(** What the tests observe of a class. *)
Definition classOf (w : World) (s : SchemaId) : option ModelClass :=
  classImplementation w !! s.

Definition backingFieldNames (c : ModelClass) : list string :=
  map (fun b => field_name (field b)) (backingFields c).

Definition propertyNames (c : ModelClass) : list string :=
  map vp_name (class_properties c).

Definition methodNames (c : ModelClass) : list string :=
  map method_name (methods c).

Definition registry (c : ModelClass) : list (string * SchemaId) :=
  map_to_list (discriminators c).

(** The dictionary interfaces among the interfaces of a class. *)
Definition isDictionary (i : InterfaceRef) : bool :=
  match i with IDictionaryOf _ _ => true | _ => false end.

(** The world of the chain once R and C are built. *)
Definition chainParents : World :=
  worldOf (build chainEnvironment 5 [0; 1] emptyWorld).

(** The parent of the headers graph with an interface of its own: a
    read-only identifier and a writable name. *)
Definition guarded : World :=
  {| classImplementation := ∅;
     interfaceImplementation :=
       <[0 := {| mi_name := "IParent"; mi_interfaces := [];
                 mi_properties := [ {| ip_name := "id"; setAccess := Internal |};
                                    {| ip_name := "name"; setAccess := Public |} ] |}]>
       (interfaceImplementation (seeded 1 0 "IChild")) |}.

(** The interface that the samples would create for a schema, with every
    property read-only. *)
Definition readonlyInterface (s : SchemaId) (schema : Schema) : ModelInterface :=
  {| mi_name := "I" +:+ csharp_name schema;
     mi_interfaces := [];
     mi_properties :=
       map (fun kv => {| ip_name := kv.1; setAccess := Internal |}) (properties schema) |}.

(** The headers graph where the interfaces declare their properties
    read-only: the property etag of Parent has an internal setter. *)
Definition readonlyHeadersEnvironment : Environment :=
  {| schemas := headers;
     project := defaultProject;
     newModelInterface := readonlyInterface;
     allProperties := allProperties headersEnvironment;
     classFullName := classFullName headersEnvironment;
     classFileName := classFileName headersEnvironment;
     backingFieldBaseName := backingFieldBaseName headersEnvironment;
     valueOf := valueOf headersEnvironment;
     validatePresence := validatePresence headersEnvironment;
     validateValue := validateValue headersEnvironment;
     newModelField := newModelField headersEnvironment;
     validatePresenceStatement := validatePresenceStatement headersEnvironment;
     validationStatement := validationStatement headersEnvironment;
     readHeaderStatement := readHeaderStatement headersEnvironment |}.

(** What the tests observe of a virtual property: its name and the
    statements of its accessors. *)
Definition accessorsOf (vp : VirtualProperty) : string * option Statements * option Statements :=
  (vp_name vp, getterStatements vp, setterStatements vp).

(** The proxy that the loop over [allProperties] leaves for a property. *)
Definition proxyOf (E : Environment) (description : string) (each : InterfaceProperty)
    : VirtualProperty :=
  let vp := VirtualProperty_new (ip_name each) (valueOf E each) each description in
  if decide (setAccess each = Internal) then set_setterStatements None vp else vp.

(** A graph with a cycle along [allOf]: P has the parents X and Q, X has the
    parent D, and D (literal d) has the parent P. *)
Definition knot : gmap SchemaId Schema :=
  <[0 := objectSchema "P" [] [1; 3] kind (Some "p") APUndefined]>
  (<[1 := objectSchema "X" [] [2] None None APUndefined]>
  (<[2 := objectSchema "D" [] [0] None (Some "d") APUndefined]>
  (<[3 := objectSchema "Q" [] [] kind None APUndefined]> ∅))).

Definition knotEnvironment : Environment := sampleEnvironment knot defaultProject.

(** ** Further predicates and sample inputs *)

(** A field of the given name, as [implementInterfaceForParentSchema] adds
    one. *)
Definition privateField (nm : string) (type : TypeDeclaration) (className description : string)
    : Field :=
  {| field_name := nm;
     field_type := type;
     field_access := Private;
     field_initializer := Some ("new " +:+ className +:+ "()");
     field_description := description |}.

Definition fieldNames (fs : list Field) : list string := map field_name fs.

(** Two worlds with the same recorded polymorphic-parent lists. *)
Definition same_parents (w w' : World) : Prop :=
  forall i, parentModelClasses <$> classImplementation w !! i
            = parentModelClasses <$> classImplementation w' !! i.

(** From every class of [C] a recorded polymorphic parent leads into [C]
    again: the recorded parent lists have a cycle, or do not end. *)
Definition endless (w : World) (C : SchemaId -> Prop) : Prop :=
  forall a, C a -> exists b, C b /\ parent_of w a b.

(** A schema that is its own parent, with a discriminator and a literal. *)
Definition narcissus : gmap SchemaId Schema :=
  <[0 := objectSchema "Self" [] [0] kind (Some "self") APUndefined]> ∅.

Definition narcissusEnvironment : Environment := sampleEnvironment narcissus defaultProject.

(** The class of that schema once it has recorded itself as its parent. *)
Definition narcissusWorld : World :=
  with_class 0
    (set_parentModelClasses [0]
       (prologueClass narcissusEnvironment 0
          (objectSchema "Self" [] [0] kind (Some "self") APUndefined)))
    emptyWorld.

(** The default constructor of the class of a schema (line 136). *)
Definition defaultConstructorOf (schema : Schema) : Method :=
  {| method_name := csharp_name schema;
     method_access := Public;
     method_parameters := [];
     method_body := [] |}.

(** A ReadHeaders method that reads no header. *)
Definition readHeadersStub : Method :=
  {| method_name := "ReadHeaders";
     method_access := Internal;
     method_parameters := ["headers"];
     method_body := ["return this;"] |}.

(** [property.serializedName || index] *)
Definition serializedNameOf (kv : string * Property) : string :=
  default kv.1 (truthy_string (serializedName kv.2)).

(** The fields of the properties of a schema, in the order of the
    schema. *)
Definition ownFields (E : Environment) (schema : Schema) : list Field :=
  map (fun kv => newModelField E (serializedNameOf kv) kv.2) (properties schema).

(** The presence check and the value check of each property of a schema. *)
Definition ownValidation (E : Environment) (schema : Schema) : Statements :=
  flat_map (fun kv => [validatePresenceStatement E (serializedNameOf kv) kv.2;
                       validationStatement E (serializedNameOf kv) kv.2])
           (properties schema).

(** The presence check and the value check of each backing field. *)
Definition inheritedValidation (E : Environment) (bs : list BackingField) : Statements :=
  flat_map (fun b => [validatePresence E (typeDeclaration b) (field_name (field b));
                      validateValue E (typeDeclaration b) (field_name (field b))])
           bs.

(** The members of a class that the constructor assigns once, or only in the
    loops over [allOf]. *)
Definition core (c : ModelClass) :=
  (name c, fullName c, modelInterface c, parentModelClasses c, discriminators c,
   fields c, backingFields c, class_properties c, validationStatements c).

(** A schema with a property of its own, in a project that serializes to
    XML. *)
Definition xmlProject : Project :=
  {| storagePipeline := false; jsonSerialization := false; xmlSerialization := true |}.

(** A backing entry as [implementInterfaceForParentSchema] makes it: a
    private field of the type of the parent, initialised with a new instance
    of the class of the parent. *)
Definition backingEntry (b : BackingField) : Prop :=
  field_access (field b) = Private /\
  field_type (field b) = typeDeclaration b /\
  field_initializer (field b) = Some ("new " +:+ className b +:+ "()").

(** The class under construction in the loops over [allOf]: its fields are
    the fields of its backing entries, under distinct names, and its
    validation statements are theirs. *)
Definition layout (E : Environment) (c : ModelClass) : Prop :=
  fields c = map field (backingFields c) /\
  validationStatements c = inheritedValidation E (backingFields c) /\
  NoDup (fieldNames (fields c)) /\
  Forall backingEntry (backingFields c).

(** The class of [this] exists and satisfies [P]. *)
Definition at_class (this : SchemaId) (P : ModelClass -> Prop) (w : World) : Prop :=
  exists c, classImplementation w !! this = Some c /\ P c.

(** A class into which no parent was flattened. *)
Definition unflattened (c : ModelClass) : Prop :=
  backingFields c = [] /\ class_properties c = [] /\ xmlSerializer c = false.

(** A world in which nothing was flattened: the interfaces are as their
    constructor left them, and every class is unflattened and has its
    interface. *)
Definition pristine (E : Environment) (w : World) : Prop :=
  (forall s i, interfaceImplementation w !! s = Some i ->
     exists sch, schemas E !! s = Some sch /\ i = newModelInterface E s sch) /\
  (forall s c, classImplementation w !! s = Some c ->
     modelInterface c = s /\ unflattened c /\ is_Some (interfaceImplementation w !! s)).

(** The members of a class that the registry of discriminators reads. *)
Definition polyview (c : ModelClass) :=
  (isPolymorphic c, parentModelClasses c, discriminators c).

(** The registry holds nothing that the schemas do not say: a class is
    polymorphic exactly when its schema has a discriminator property; a
    recorded parent is a polymorphic class and a parent in the schema of a
    class that carries a literal; an entry leads to a class that carries the
    literal and from which the recorded parents lead to the holder. *)
Definition registry_sound (E : Environment) (w : World) : Prop :=
  (forall a c, classImplementation w !! a = Some c ->
     exists sch, schemas E !! a = Some sch /\
                 isPolymorphic c = bool_decide (is_Some (discriminator sch))) /\
  (forall a p, parent_of w a p ->
     (exists sch, schemas E !! a = Some sch /\ p ∈ allOf sch /\
                  is_Some (truthy_string (x_ms_discriminator_value sch))) /\
     (exists pc, classImplementation w !! p = Some pc /\ isPolymorphic pc = true)) /\
  (forall a v d, holds w a v d -> declares E d v /\ tc (parent_of w) d a).

(** The recorded parents of [w] are recorded in [w'] too. *)
Definition parents_grow (w w' : World) : Prop :=
  forall a b, parent_of w a b -> parent_of w' a b.

(** The description of the backing field of a class (line 283). *)
Definition backingFieldDescription (E : Environment) (me : ModelClass) : string :=
  "Backing field for <see cref=" +:+ dquote +:+ classFileName E (name me) +:+ dquote +:+ " />".

(** The class [me] once the parent behind the interface [parentInterface]
    is flattened into it: a backing field under the name [nm], its backing
    entry, a proxy for each of the properties [inherited], and the two
    validation statements of the backing field. *)
Definition flattenedClass (E : Environment) (me : ModelClass) (td : TypeDeclaration)
    (nm cls : string) (parentInterface : ModelInterface) (parent : Schema)
    (inherited : list InterfaceProperty) : ModelClass :=
  let backingField := privateField nm td cls (backingFieldDescription E me) in
  set_validationStatements
    (validationStatements me ++ [validatePresence E td nm; validateValue E td nm])
    (set_class_properties
       (class_properties me ++
          map (proxyOf E (inheritedDescription parentInterface parent)) inherited)
       (set_backingFields
          (backingFields me ++
             [{| className := cls; typeDeclaration := td; field := backingField |}])
          (set_fields (fields me ++ [backingField]) me))).

(** The world of the lineage graph in which the class of Parent is built,
    the interface of Child lists the interface of Parent first, and the class
    of Child is at the end of its prologue. *)
Definition halfBuilt : World :=
  with_class 2
    (prologueClass lineageEnvironment 2
       (objectSchema "Child" [] [1] None None APUndefined))
    (worldOf (build lineageEnvironment 5 [1] (seeded 2 1 "IChild"))).

(** The same for the headers graph, where Parent has no parent. *)
Definition halfBuiltHeaders : World :=
  with_class 1
    (prologueClass headersEnvironment 1
       (objectSchema "Child" [] [0] None None APUndefined))
    (worldOf (build headersEnvironment 5 [0] (seeded 1 0 "IChild"))).

(** Every parent that a schema of the graph names is a schema of the
    graph. *)
Definition closed_graph (E : Environment) : Prop :=
  forall s sch p, schemas E !! s = Some sch -> p ∈ allOf sch -> is_Some (schemas E !! p).

(** What a build keeps, from scratch: nothing is flattened, the registry is
    sound, and the class [this] is there. *)
Definition steady (E : Environment) (this : SchemaId) (w : World) : Prop :=
  pristine E w /\ registry_sound E w /\ is_Some (classImplementation w !! this).

(** The schema [q] has a discriminator property. *)
Definition polymorphicSchema (E : Environment) (q : SchemaId) : bool :=
  match schemas E !! q with
  | Some sq => bool_decide (is_Some (discriminator sq))
  | None => false
  end.

(** The parents that the class of a schema should record: for a schema
    that carries a literal, its parents with a discriminator property, as
    often and in the order in which [allOf] names them. *)
Definition wantedParents (E : Environment) (sch : Schema) : list SchemaId :=
  match truthy_string (x_ms_discriminator_value sch) with
  | Some _ => filter (fun q => polymorphicSchema E q = true) (allOf sch)
  | None => []
  end.

(** The classes that are not [busy] with their construction record the
    parents that they should. *)
Definition parents_exact (E : Environment) (busy : gset nat) (w : World) : Prop :=
  forall a c sch, classImplementation w !! a = Some c -> schemas E !! a = Some sch ->
    a ∉ busy -> parentModelClasses c = wantedParents E sch.

(** The class [this] records the parents [ps]. *)
Definition records (this : SchemaId) (ps : list SchemaId) : World -> Prop :=
  at_class this (fun c => parentModelClasses c = ps).

(** What a constructor keeps while the classes [busy] are under
    construction. *)
Definition keeps (E : Environment) (busy : gset nat) (w : World) : Prop :=
  registry_sound E w /\ parents_exact E busy w.

(** An interface keeps its name, and its list of interfaces only gets
    longer. *)
Definition extends_interface (i i' : ModelInterface) : Prop :=
  mi_name i' = mi_name i /\ mi_interfaces i `prefix_of` mi_interfaces i'.

(** The interfaces of a world once the interface of the class [me], which
    is [mine], lists the interface of [p] once more. *)
Definition pushed (me : ModelClass) (mine : ModelInterface) (p : SchemaId) (w : World)
    : World :=
  with_interface (modelInterface me)
    (set_mi_interfaces (mi_interfaces mine ++ [ModelInterfaceOf p]) mine) w.

(** The interfaces of [w] are in [w'], extended. *)
Definition interfaces_grow (w w' : World) : Prop :=
  forall s i, interfaceImplementation w !! s = Some i ->
    exists i', interfaceImplementation w' !! s = Some i' /\ extends_interface i i'.

(** The class of a schema without parents, as the constructor leaves it. *)
Definition leafClass (E : Environment) (this : SchemaId) (schema : Schema) : ModelClass :=
  ModelClass_epilogue E schema (addDefaultConstructor (prologueClass E this schema)).

(** The fields of the class check their presence as the properties of
    property.ts do: with the check of their type when they are required. *)
Definition presence_as_ModelProperty (E : Environment) : Prop :=
  forall n p, exists presence mp,
    mp_required mp = required p /\
    validatePresenceStatement E n p = ModelProperty_validatePresenceStatement presence mp.

(** A schema with an optional property, and no other. *)
Definition relaxed : gmap SchemaId Schema :=
  <[0 := objectSchema "Relaxed" [("note", plainProperty)] [] None None APUndefined]> ∅.

Definition relaxedEnvironment : Environment := sampleEnvironment relaxed defaultProject.

(** A class without its registry: no recorded parent, no entry. *)
Definition bare (c : ModelClass) : ModelClass :=
  set_discriminators ∅ (set_parentModelClasses [] c).

(** The classes that are not [busy] with their construction are, their
    registry apart, what the construction of a schema without parents
    leaves. *)
Definition finished (E : Environment) (busy : gset nat) (w : World) : Prop :=
  forall a c sch, classImplementation w !! a = Some c -> schemas E !! a = Some sch ->
    a ∉ busy -> bare c = leafClass E a sch.

(** What a build from scratch keeps while the classes [busy] are under
    construction. *)
Definition scratch (E : Environment) (busy : gset nat) (w : World) : Prop :=
  pristine E w /\ finished E busy w.

(** The schema [b] is a parent that the class of [a] should record. *)
Definition schema_parent (E : Environment) (a b : SchemaId) : Prop :=
  exists sch, schemas E !! a = Some sch /\ b ∈ wantedParents E sch.

(** A virtual property with the accessors of a proxy: it bears the name of
    the property it stands for, reads it with one statement, and writes it
    with one statement unless the setter of the property is internal, in
    which case it has no setter statements. *)
Definition proxyAccessors (E : Environment) (vp : VirtualProperty) : Prop :=
  vp_name vp = ip_name (vp_type vp) /\
  getterStatements vp =
    Some ["return " +:+ valueOf E (vp_type vp) +:+ "." +:+ vp_name vp +:+ ";"] /\
  setterStatements vp =
    if decide (setAccess (vp_type vp) = Internal) then None
    else Some [valueOf E (vp_type vp) +:+ "." +:+ vp_name vp +:+ " = value;"].

(** Every virtual property of the class has the accessors of a proxy. *)
Definition proxies (E : Environment) (c : ModelClass) : Prop :=
  Forall (proxyAccessors E) (class_properties c).

(** * Properties *)

(** ** Name collisions of backing fields (C5) *)

Lemma getPrivateNameForField_loop_scan fs baseName fuel k :
  k + S fuel = 100 ->
  getPrivateNameForField_loop (S fuel) fs baseName k (candidate baseName k) =
  match List.find (fun nm => negb (field_named fs nm))
                  (map (candidate baseName) (seq k (S fuel))) with
  | Some nm => Returned nm
  | None => exhausted baseName
  end.
Proof.
  revert k. induction fuel as [|fuel IH]; intros k Hk.
  - cbn [getPrivateNameForField_loop seq map List.find].
    destruct (negb (field_named fs (candidate baseName k))); [done|].
    rewrite bool_decide_eq_false_2 by lia. done.
  - change (getPrivateNameForField_loop (S (S fuel)) fs baseName k (candidate baseName k))
      with (if negb (field_named fs (candidate baseName k)) then Returned (candidate baseName k)
            else if bool_decide (S k < 100)
                 then getPrivateNameForField_loop (S fuel) fs baseName (S k)
                        (candidate baseName (S k))
                 else exhausted baseName).
    change (seq k (S (S fuel))) with (k :: seq (S k) (S fuel)).
    cbn [map List.find].
    destruct (negb (field_named fs (candidate baseName k))); [done|].
    rewrite bool_decide_eq_true_2 by lia.
    apply IH. lia.
Qed.

Lemma suffixes_NoDup : NoDup suffixes.
Proof. apply (bool_decide_unpack _). vm_compute. exact I. Qed.

Lemma append_empty_r (s : string) : s +:+ "" = s.
Proof.
  induction s as [|a s IH]; [done|].
  change (String a (s +:+ "") = String a s). by rewrite IH.
Qed.

Lemma candidates_suffixes baseName :
  candidates baseName = map (String.append baseName) suffixes.
Proof.
  unfold candidates, suffixes.
  change (seq 0 100) with (0 :: seq 1 99).
  cbn [map candidate]. rewrite append_empty_r. f_equal.
Qed.

Lemma candidates_NoDup baseName : NoDup (candidates baseName).
Proof.
  rewrite candidates_suffixes.
  apply (NoDup_fmap_2 (String.append baseName)), suffixes_NoDup.
Qed.

(** C5. [getPrivateNameForField] tries the base name and then the base name
    followed by 0, 1, 2, ... in increasing order: one hundred pairwise
    distinct names in all.  It returns the first of them that no existing
    field bears, and throws when all hundred are taken; being a function of
    the fields and the base name, it gives the same answer on every run. *)
Theorem getPrivateNameForField_first_unused (fs : list Field) (baseName : string) :
  getPrivateNameForField fs baseName =
    match List.find (fun nm => negb (field_named fs nm)) (candidates baseName) with
    | Some nm => Returned nm
    | None => Thrown ("Unexpected number of private fields with name " +:+ baseName)
    end
  /\ length (candidates baseName) = 100
  /\ NoDup (candidates baseName)
  /\ take 4 (candidates baseName) =
       [baseName; baseName +:+ "0"; baseName +:+ "1"; baseName +:+ "2"].
Proof.
  split; [|split; [|split]].
  - unfold getPrivateNameForField, candidates.
    apply (getPrivateNameForField_loop_scan fs baseName 99 0). done.
  - unfold candidates. by rewrite length_map, length_seq.
  - apply candidates_NoDup.
  - reflexivity.
Qed.

(** ** Reasoning about completions *)

Lemma bind_Returned {A B} (m : M A) (k : A -> M B) w r :
  bind m k w = Returned r ->
  exists a w1, m w = Returned (a, w1) /\ k a w1 = Returned r.
Proof.
  unfold bind. destruct (m w) as [[a w1]| |]; [eauto|discriminate..].
Qed.

Lemma bind_Returned_2 {A B} (m : M A) (k : A -> M B) w a w1 :
  m w = Returned (a, w1) -> bind m k w = k a w1.
Proof. unfold bind. by intros ->. Qed.

Lemma get_class_Returned s w c w' :
  get_class s w = Returned (c, w') -> classImplementation w !! s = Some c /\ w' = w.
Proof.
  unfold get_class. destruct (classImplementation w !! s); [|discriminate].
  by intros [= -> ->].
Qed.

Lemma get_interface_Returned s w i w' :
  get_interface s w = Returned (i, w') -> interfaceImplementation w !! s = Some i /\ w' = w.
Proof.
  unfold get_interface. destruct (interfaceImplementation w !! s); [|discriminate].
  by intros [= -> ->].
Qed.

Lemma modify_class_Returned s f w r :
  modify_class s f w = Returned r ->
  exists c, classImplementation w !! s = Some c /\ r = (tt, with_class s (f c) w).
Proof.
  unfold modify_class. intros (c & w1 & Hc & Hput)%bind_Returned.
  apply get_class_Returned in Hc as [Hc ->].
  exists c. split; [done|]. by injection Hput as <-.
Qed.

Lemma modify_class_Some s f w c :
  classImplementation w !! s = Some c ->
  modify_class s f w = Returned (tt, with_class s (f c) w).
Proof. intros Hc. unfold modify_class, bind, get_class. by rewrite Hc. Qed.

Lemma modify_interface_Returned s f w r :
  modify_interface s f w = Returned r ->
  exists i, interfaceImplementation w !! s = Some i /\ r = (tt, with_interface s (f i) w).
Proof.
  unfold modify_interface. intros (i & w1 & Hi & Hput)%bind_Returned.
  apply get_interface_Returned in Hi as [Hi ->].
  exists i. split; [done|]. by injection Hput as <-.
Qed.

Lemma lift_Returned {A} (r : completion A) w a w' :
  lift r w = Returned (a, w') -> r = Returned a /\ w' = w.
Proof. destruct r; simpl; [|discriminate..]. by intros [= -> ->]. Qed.

Section Respects.
Context (R : relation World) `{!PreOrder R}.

Lemma respects_ret {A} (a : A) : respects R (ret a).
Proof. intros w a' w' [= _ <-]. reflexivity. Qed.

Lemma respects_bind {A B} (m : M A) (k : A -> M B) :
  respects R m -> (forall a, respects R (k a)) -> respects R (bind m k).
Proof.
  intros Hm Hk w b w' (a & w1 & H1 & H2)%bind_Returned.
  transitivity w1; [by eapply Hm | by eapply Hk].
Qed.

Lemma respects_forM_ {A} (l : list A) (body : A -> M unit) :
  (forall x, x ∈ l -> respects R (body x)) -> respects R (forM_ l body).
Proof.
  induction l as [|x l IH]; intros Hbody; simpl.
  - apply respects_ret.
  - apply respects_bind.
    + apply Hbody. left.
    + intros _. apply IH. intros y Hy. apply Hbody. by right.
Qed.

Lemma respects_get_class s : respects R (get_class s).
Proof. intros w c w' [_ ->]%get_class_Returned. reflexivity. Qed.

Lemma respects_get_interface s : respects R (get_interface s).
Proof. intros w c w' [_ ->]%get_interface_Returned. reflexivity. Qed.

Lemma respects_lift {A} (r : completion A) : respects R (lift r).
Proof. intros w a w' [_ ->]%lift_Returned. reflexivity. Qed.

Lemma respects_get_allProperties E s : respects R (get_allProperties E s).
Proof. intros w a w' [= _ <-]. reflexivity. Qed.

Lemma respects_modify_class s f :
  (forall w c, classImplementation w !! s = Some c -> R w (with_class s (f c) w)) ->
  respects R (modify_class s f).
Proof. intros H w [] w' (c & Hc & [= ->])%modify_class_Returned. by apply H. Qed.

Lemma respects_modify_interface s f :
  (forall w i, interfaceImplementation w !! s = Some i -> R w (with_interface s (f i) w)) ->
  respects R (modify_interface s f).
Proof. intros H w [] w' (c & Hc & [= ->])%modify_interface_Returned. by apply H. Qed.
End Respects.

(** ** The discriminator registry *)

Lemma register_in_idemp v D c : register_in v D (register_in v D c) = register_in v D c.
Proof.
  unfold register_in, set_discriminators. simpl. by rewrite insert_insert_eq.
Qed.

#[global] Instance registered_preorder v D : PreOrder (registered v D).
Proof.
  split.
  - intros w. split; [done|]. intros i.
    destruct (classImplementation w !! i); constructor. by left.
  - intros w1 w2 w3 [Hi12 H12] [Hi23 H23]. split; [congruence|].
    intros i. specialize (H12 i). specialize (H23 i).
    destruct H12 as [c1 c2 H12|]; inversion H23 as [c2' c3 H23'|]; subst; constructor.
    destruct H12 as [->| ->], H23' as [->| ->]; rewrite ?register_in_idemp; auto.
Qed.

Lemma registered_with_class v D w s c :
  classImplementation w !! s = Some c ->
  registered v D w (with_class s (register_in v D c) w).
Proof.
  intros Hc. split; [done|]. intros i. simpl.
  destruct (decide (s = i)) as [<-|Hne].
  - rewrite lookup_insert_eq, Hc. constructor. by right.
  - rewrite lookup_insert_ne by done.
    destruct (classImplementation w !! i); constructor. by left.
Qed.

Lemma registered_lookup v D w w' i c :
  registered v D w w' -> classImplementation w !! i = Some c ->
  exists c', classImplementation w' !! i = Some c' /\ (c' = c \/ c' = register_in v D c).
Proof.
  intros [_ H] Hc. specialize (H i). rewrite Hc in H.
  inversion H as [? c' Hcc'|]; subst. eauto.
Qed.

Lemma registered_lookup_inv v D w w' i c' :
  registered v D w w' -> classImplementation w' !! i = Some c' ->
  exists c, classImplementation w !! i = Some c /\ (c' = c \/ c' = register_in v D c).
Proof.
  intros [_ H] Hc. specialize (H i). rewrite Hc in H.
  inversion H as [c ? Hcc'|]; subst. eauto.
Qed.

Lemma registered_holds v D w w' a :
  registered v D w w' -> holds w a v D -> holds w' a v D.
Proof.
  intros Hr (c & Hc & Hv).
  destruct (registered_lookup _ _ _ _ _ _ Hr Hc) as (c' & Hc' & [->| ->]).
  - by exists c.
  - eexists. split; [done|]. simpl. apply lookup_insert_eq.
Qed.

Lemma registered_parent_of v D w w' a b :
  registered v D w w' -> parent_of w a b <-> parent_of w' a b.
Proof.
  intros Hr. split.
  - intros (c & Hc & Hb).
    destruct (registered_lookup _ _ _ _ _ _ Hr Hc) as (c' & Hc' & [->| ->]);
      eexists; (split; [done|]); done.
  - intros (c' & Hc' & Hb).
    destruct (registered_lookup_inv _ _ _ _ _ _ Hr Hc') as (c & Hc & [->| ->]);
      eexists; (split; [done|]); done.
Qed.

Lemma registered_rtc v D w w' a b :
  registered v D w w' -> rtc (parent_of w) a b <-> rtc (parent_of w') a b.
Proof.
  intros Hr. split; induction 1 as [|x y z Hxy _ IH]; try reflexivity;
    (eapply rtc_l; [|exact IH]); by eapply (registered_parent_of _ _ _ _ _ _ Hr).
Qed.

Lemma registered_ranked v D w w' rank :
  registered v D w w' -> ranked rank w -> ranked rank w'.
Proof.
  intros Hr Hrank a b Hab.
  apply (registered_parent_of _ _ _ _ _ _ Hr) in Hab.
  destruct (Hrank a b Hab) as [[c Hc] Hlt]. split; [|done].
  destruct (registered_lookup _ _ _ _ _ _ Hr Hc) as (c' & -> & _). eauto.
Qed.

Lemma addDiscriminator_registered fuel P v D :
  respects (registered v D) (addDiscriminator fuel P v D).
Proof.
  revert P. induction fuel as [|fuel IH]; intros P; simpl.
  - intros w a w' [=].
  - apply respects_bind; try apply _.
    + apply respects_modify_class; try apply _. intros w c Hc.
      by apply registered_with_class.
    + intros _. apply respects_bind; try apply _.
      * apply respects_get_class; apply _.
      * intros c. apply respects_forM_; try apply _. intros x _. apply IH.
Qed.

Lemma addDiscriminator_unfold fuel P v D w w' :
  addDiscriminator (S fuel) P v D w = Returned (tt, w') ->
  exists c, classImplementation w !! P = Some c /\
    forM_ (parentModelClasses c) (fun each => addDiscriminator fuel each v D)
      (with_class P (register_in v D c) w) = Returned (tt, w').
Proof.
  simpl. intros ([] & w1 & (c & Hc & [= ->])%modify_class_Returned & H)%bind_Returned.
  apply bind_Returned in H as (c1 & w2 & [Hc1 ->]%get_class_Returned & H).
  simpl in Hc1. rewrite lookup_insert_eq in Hc1. injection Hc1 as <-.
  exists c. split; [done|]. exact H.
Qed.

(** On return, the class itself and every class reachable from it through
    the recorded parent lists hold the entry. *)
Lemma addDiscriminator_reaches fuel v D :
  forall P w w', addDiscriminator fuel P v D w = Returned (tt, w') ->
  forall a, rtc (parent_of w) P a -> holds w' a v D.
Proof.
  induction fuel as [|fuel IH]; intros P w w' Hrun a Ha; [discriminate|].
  apply addDiscriminator_unfold in Hrun as (c & Hc & Hloop).
  pose proof (registered_with_class v D w P c Hc) as Hr1.
  set (w1 := with_class P (register_in v D c) w) in *.
  assert (Hloop_spec : forall l w2 w3,
    forM_ l (fun each => addDiscriminator fuel each v D) w2 = Returned (tt, w3) ->
    registered v D w2 w3 /\
    forall p, p ∈ l -> forall a, rtc (parent_of w2) p a -> holds w3 a v D).
  { induction l as [|x l IHl]; intros w2 w3 Hl.
    - injection Hl as <-. split; [reflexivity|]. intros p Hp. inversion Hp.
    - simpl in Hl. apply bind_Returned in Hl as ([] & w2' & Hx & Hl).
      pose proof (addDiscriminator_registered _ _ _ _ _ _ _ Hx) as Hr.
      destruct (IHl _ _ Hl) as [Hr' Hrest].
      split; [by transitivity w2'|].
      intros p Hp b Hb. apply elem_of_cons in Hp as [->|Hp].
      + eapply registered_holds; [exact Hr'|]. by eapply IH.
      + eapply Hrest; [done|]. by apply (registered_rtc _ _ _ _ _ _ Hr). }
  destruct (Hloop_spec _ _ _ Hloop) as [Hr2 Hparents].
  inversion Ha as [|x p z Hp Hrest]; subst.
  - eapply registered_holds; [exact Hr2|].
    exists (register_in v D c). split; [apply lookup_insert_eq|]. apply lookup_insert_eq.
  - destruct Hp as (c0 & Hc0 & Hp). rewrite Hc in Hc0. injection Hc0 as <-.
    eapply Hparents; [done|]. by apply (registered_rtc _ _ _ _ _ _ Hr1).
Qed.

(** With fuel above the rank of the class, the call returns. *)
Lemma addDiscriminator_returns rank fuel v D :
  forall P w, ranked rank w -> is_Some (classImplementation w !! P) -> rank P < fuel ->
  exists w', addDiscriminator fuel P v D w = Returned (tt, w').
Proof.
  induction fuel as [|fuel IH]; intros P w Hrank [c Hc] Hlt; [lia|].
  simpl. rewrite (bind_Returned_2 _ _ _ _ _ (modify_class_Some _ _ _ _ Hc)).
  pose proof (registered_with_class v D w P c Hc) as Hr1.
  set (w1 := with_class P (register_in v D c) w) in *.
  assert (Hc1 : get_class P w1 = Returned (register_in v D c, w1)).
  { unfold get_class, w1. simpl. by rewrite lookup_insert_eq. }
  rewrite (bind_Returned_2 _ _ _ _ _ Hc1). simpl.
  assert (Hps : forall p, p ∈ parentModelClasses c ->
            is_Some (classImplementation w1 !! p) /\ rank p < fuel).
  { intros p Hp. destruct (Hrank P p) as [[cp Hcp] Hlt']; [by exists c|].
    split; [|lia].
    destruct (registered_lookup _ _ _ _ _ _ Hr1 Hcp) as (c' & -> & _). eauto. }
  assert (Hrank1 : ranked rank w1) by (by eapply registered_ranked).
  clearbody w1. clear Hc1 Hr1 Hc Hrank.
  revert w1 Hps Hrank1. generalize (parentModelClasses c) as l.
  induction l as [|x l IHl]; intros w1 Hps Hrank1; simpl.
  - by eexists.
  - destruct (Hps x) as [Hx Hltx]; [left|].
    destruct (IH x w1 Hrank1 Hx Hltx) as (w2 & Hrun).
    rewrite (bind_Returned_2 _ _ _ _ _ Hrun).
    pose proof (addDiscriminator_registered _ _ _ _ _ _ _ Hrun) as Hr.
    apply IHl; [|by eapply registered_ranked].
    intros p Hp. destruct (Hps p) as [[cp Hcp] Hltp]; [by right|]. split; [|done].
    destruct (registered_lookup _ _ _ _ _ _ Hr Hcp) as (c' & -> & _). eauto.
Qed.

(** ** What the construction of a class does to the classes of the world *)

Section FrameFacts.
Context (E : Environment).

Lemma discriminators_step_refl c : discriminators_step E c c.
Proof. intros u. by left. Qed.

Lemma discriminators_step_trans c1 c2 c3 :
  discriminators_step E c1 c2 -> discriminators_step E c2 c3 -> discriminators_step E c1 c3.
Proof.
  intros H12 H23 u. destruct (H23 u) as [H|H]; [|by right].
  rewrite H. apply H12.
Qed.

#[global] Instance other_step_preorder : PreOrder (other_step E).
Proof.
  split.
  - intros c. split; [done|apply discriminators_step_refl].
  - intros c1 c2 c3 [H12 D12] [H23 D23]. split; [congruence|].
    by eapply discriminators_step_trans.
Qed.

#[global] Instance own_step_preorder : PreOrder (own_step E).
Proof.
  split.
  - intros c. split; [done|apply discriminators_step_refl].
  - intros c1 c2 c3 [H12 D12] [H23 D23]. split; [congruence|].
    by eapply discriminators_step_trans.
Qed.

#[global] Instance any_step_preorder : PreOrder any_step.
Proof. by split. Qed.

Lemma other_step_own c c' : other_step E c c' -> own_step E c c'.
Proof.
  intros [H D]. split; [|done].
  change (shape (set_discriminators ∅ c') = shape (set_discriminators ∅ c)).
  by rewrite H.
Qed.

#[global] Instance frame_preorder own s `{!PreOrder own} : PreOrder (frame E own s).
Proof.
  split.
  - intros w i c Hc. exists c. split; [done|]. case_decide; reflexivity.
  - intros w1 w2 w3 H12 H23 i c1 Hc1.
    destruct (H12 i c1 Hc1) as (c2 & Hc2 & Hs12).
    destruct (H23 i c2 Hc2) as (c3 & Hc3 & Hs23).
    exists c3. split; [done|]. case_decide; by etransitivity.
Qed.

#[global] Instance constructing_preorder s : PreOrder (constructing E s).
Proof. apply _. Qed.

#[global] Instance evolves_preorder : PreOrder (evolves E).
Proof. apply _. Qed.

Lemma evolves_lookup w w' i c :
  evolves E w w' -> classImplementation w !! i = Some c ->
  exists c', classImplementation w' !! i = Some c' /\ other_step E c c'.
Proof.
  intros H Hc. destruct (H i c Hc) as (c' & Hc' & Hs).
  exists c'. split; [done|]. by case_decide.
Qed.

Lemma evolves_frame own s w w' `{!Reflexive own} :
  (forall c c', other_step E c c' -> own c c') ->
  evolves E w w' -> frame E own s w w'.
Proof.
  intros Hown H i c Hc. destruct (evolves_lookup _ _ _ _ H Hc) as (c' & Hc' & Hs).
  exists c'. split; [done|]. case_decide; auto.
Qed.

Lemma evolves_constructing s w w' : evolves E w w' -> constructing E s w w'.
Proof. apply evolves_frame; [apply _|apply other_step_own]. Qed.

Lemma frame_fresh own s w w' :
  classImplementation w !! s = None -> frame E own s w w' -> evolves E w w'.
Proof.
  intros Hs H i c Hc. destruct (H i c Hc) as (c' & Hc' & Hstep).
  exists c'. split; [done|].
  destruct (decide (i = s)) as [->|]; [congruence|]. by case_decide.
Qed.

Lemma frame_weaken own s w w' : frame E own s w w' -> frame E any_step s w w'.
Proof.
  intros H i c Hc. destruct (H i c Hc) as (c' & Hc' & Hstep).
  exists c'. split; [done|]. by case_decide.
Qed.

(** Updates of the class under construction. *)
Lemma frame_with_class own s w c c' :
  classImplementation w !! s = Some c -> own c c' ->
  frame E own s w (with_class s c' w).
Proof.
  intros Hc Hown i ci Hci. simpl.
  destruct (decide (i = s)) as [->|Hne]; simpl.
  - rewrite lookup_insert_eq. exists c'. split; [done|]. congruence.
  - rewrite lookup_insert_ne by done. exists ci. split; [done|]. reflexivity.
Qed.

Lemma frame_put_class s c' w :
  frame E any_step s w (with_class s c' w).
Proof.
  intros i ci Hci. simpl.
  destruct (decide (i = s)) as [->|Hne]; simpl.
  - rewrite lookup_insert_eq. exists c'. by split.
  - rewrite lookup_insert_ne by done. exists ci. split; [done|]. reflexivity.
Qed.

Lemma frame_with_interface own s `{!Reflexive own} w j i :
  frame E own s w (with_interface j i w).
Proof.
  intros k c Hc. exists c. split; [done|]. case_decide; reflexivity.
Qed.

Lemma respects_modify_own s f :
  (forall c, own_step E c (f c)) -> respects (constructing E s) (modify_class s f).
Proof.
  intros Hf. apply respects_modify_class; try apply _.
  intros w c Hc. by apply (frame_with_class _ _ _ c).
Qed.

Lemma respects_find_interface R `{!PreOrder R} s : respects R (find_interface s).
Proof. intros w a w' [= _ <-]. reflexivity. Qed.

(** A registration by a class that carries the literal. *)
Lemma registered_evolves v D w w' :
  declares E D v -> registered v D w w' -> evolves E w w'.
Proof.
  intros Hd Hr i c Hc.
  destruct (registered_lookup _ _ _ _ _ _ Hr Hc) as (c' & Hc' & Hcc').
  exists c'. split; [done|].
  assert (other_step E c c') as Hs.
  { destruct Hcc' as [->| ->]; [reflexivity|]. split; [done|].
    intros u. destruct (decide (u = v)) as [->|Hne].
    - right. exists D. split; [done|]. apply lookup_insert_eq.
    - left. simpl. by apply lookup_insert_ne. }
  by case_decide.
Qed.

Lemma addDiscriminator_evolves fuel P v D :
  declares E D v -> respects (evolves E) (addDiscriminator fuel P v D).
Proof.
  intros Hd w a w' H. eapply registered_evolves; [done|].
  by eapply addDiscriminator_registered.
Qed.

Ltac own_step_tac := split; [reflexivity | intros ?; left; reflexivity].

Lemma addInheritedProperties_own_step description ps c :
  own_step E c (addInheritedProperties E description ps c).
Proof.
  revert c. induction ps as [|each ps IH]; intros c; [reflexivity|].
  simpl. etransitivity; [|apply IH].
  unfold addInheritedProperty. case_decide; own_step_tac.
Qed.

Lemma shape_addDefaultConstructor c c' :
  shape c = shape c' -> shape (addDefaultConstructor c) = shape (addDefaultConstructor c').
Proof. unfold shape, addDefaultConstructor. simpl. intros [=]. congruence. Qed.

Lemma with_class_with_class s c c' w :
  with_class s c' (with_class s c w) = with_class s c' w.
Proof. unfold with_class. simpl. by rewrite insert_insert_eq. Qed.

Lemma modify_class_with_class s f c w :
  modify_class s f (with_class s c w) = Returned (tt, with_class s (f c) w).
Proof.
  rewrite (modify_class_Some s f _ c) by apply lookup_insert_eq.
  by rewrite with_class_with_class.
Qed.

(** The prologue always returns; it leaves the class [prologueClass] in the
    slot of the schema and touches no other class. *)
Lemma ModelClass_prologue_Returned this schema w :
  exists w1, ModelClass_prologue E this schema w = Returned (tt, w1) /\
    classImplementation w1 = <[this := prologueClass E this schema]> (classImplementation w).
Proof.
  unfold ModelClass_prologue, prologueClass.
  set (w0 := match interfaceImplementation w !! this with
             | Some _ => w
             | None => with_interface this (newModelInterface E this schema) w
             end).
  assert (Hcls : classImplementation w0 = classImplementation w).
  { unfold w0. by destruct (interfaceImplementation w !! this). }
  unfold bind at 1. unfold put_class at 1.
  change (Build_World _ _) with (with_class this (emptyClass E this schema) w).
  unfold bind at 1. rewrite modify_class_with_class.
  unfold bind at 1. unfold find_interface at 1. simpl interfaceImplementation.
  match goal with |- context [with_class this ?c w] =>
    assert (Hi : (match interfaceImplementation w !! this with
                  | Some _ => ret tt
                  | None => put_interface this (newModelInterface E this schema)
                  end) (with_class this c w) = Returned (tt, with_class this c w0)) end.
  { unfold w0. by destruct (interfaceImplementation w !! this). }
  unfold bind at 1. rewrite Hi.
  unfold bind at 1. rewrite modify_class_with_class.
  destruct (discriminator schema).
  - rewrite modify_class_with_class. eexists. split; [done|]. simpl. by rewrite Hcls.
  - eexists. split; [done|]. simpl. by rewrite Hcls.
Qed.

Section Resolver.
Context (resolve0 : SchemaId -> M TypeDeclaration).
Hypothesis resolve0_evolves : forall p, respects (evolves E) (resolve0 p).

Lemma registerWithParents_constructing fuel this schema :
  schemas E !! this = Some schema ->
  respects (constructing E this) (registerWithParents resolve0 fuel this schema).
Proof.
  intros Hs. unfold registerWithParents.
  destruct (truthy_string _) as [v|] eqn:Hv; [|apply respects_ret; apply _].
  apply respects_forM_; [apply _|]. intros p _.
  apply respects_bind; try apply _.
  - intros w a w' H. eapply evolves_constructing, resolve0_evolves, H.
  - intros _. apply respects_bind; try apply _; [apply respects_get_class; apply _|].
    intros pc. destruct (isPolymorphic pc); [|apply respects_ret; apply _].
    apply respects_bind; try apply _.
    + apply respects_modify_own. intros c. own_step_tac.
    + intros _ w a w' H.
      eapply evolves_constructing, addDiscriminator_evolves, H. by exists schema.
Qed.

Lemma implementInterfaceForParentSchema_constructing fuel this :
  forall p, respects (constructing E this)
              (implementInterfaceForParentSchema E resolve0 fuel this p).
Proof.
  induction fuel as [|fuel IH]; intros p; [intros w a w' [=]|].
  simpl.
  apply respects_bind; try apply _.
  { intros w a w' H. eapply evolves_constructing, resolve0_evolves, H. }
  intros td. apply respects_bind; try apply _; [apply respects_get_class; apply _|].
  intros me. apply respects_bind; try apply _; [apply respects_get_interface; apply _|].
  intros mine. apply respects_bind; try apply _; [apply respects_find_interface; apply _|].
  intros pif. destruct (truthy_number _); [apply respects_ret; apply _|].
  apply respects_bind; try apply _.
  { apply respects_modify_interface; try apply _.
    intros w i _. apply frame_with_interface; apply _. }
  intros _. apply respects_bind; try apply _; [apply respects_get_class; apply _|].
  intros pc. apply respects_bind; try apply _; [apply respects_get_class; apply _|].
  intros me2. apply respects_bind; try apply _; [apply respects_lift; apply _|].
  intros fieldName. apply respects_bind; try apply _.
  { apply respects_modify_own. intros c. own_step_tac. }
  intros _. apply respects_bind; try apply _.
  { apply respects_modify_own. intros c. own_step_tac. }
  intros _. apply respects_bind; try apply _; [apply respects_get_interface; apply _|].
  intros pi. apply respects_bind; try apply _; [apply respects_get_allProperties; apply _|].
  intros inherited. apply respects_bind; try apply _; [apply respects_lift; apply _|].
  intros parent. apply respects_bind; try apply _.
  { apply respects_modify_own. intros c. apply addInheritedProperties_own_step. }
  intros _. apply respects_bind; try apply _.
  { apply respects_modify_own. intros c. own_step_tac. }
  intros _. apply respects_bind; try apply _.
  { apply respects_modify_own. intros c. own_step_tac. }
  intros _. apply respects_forM_; try apply _. intros each _. apply IH.
Qed.

(** The constructor, run to its end: the classes of the other schemas
    change in their discriminator maps only, and the class of the schema is
    the epilogue of a class with the shape that the prologue and the default
    constructor give. *)
Lemma ModelClass_constructor_Returned fuel this schema w w' :
  schemas E !! this = Some schema ->
  ModelClass_constructor E resolve0 fuel this schema w = Returned (tt, w') ->
  frame E any_step this w w' /\
  exists c, shape c = shape (addDefaultConstructor (prologueClass E this schema)) /\
            classImplementation w' !! this = Some (ModelClass_epilogue E schema c).
Proof.
  intros Hs. unfold ModelClass_constructor.
  destruct (ModelClass_prologue_Returned this schema w) as (w1 & Hpro & Hw1).
  rewrite (bind_Returned_2 _ _ _ _ _ Hpro).
  intros ([] & w2 & Hreg & H)%bind_Returned.
  apply registerWithParents_constructing in Hreg; [|done].
  apply bind_Returned in H as ([] & w3 & (c2 & Hc2 & [= ->])%modify_class_Returned & H).
  apply bind_Returned in H as ([] & w4 & Hflat & H).
  apply modify_class_Returned in H as (c4 & Hc4 & [= ->]).
  assert (Hflat' : constructing E this (with_class this (addDefaultConstructor c2) w2) w4).
  { revert Hflat. apply respects_forM_; [apply _|].
    intros p _. apply implementInterfaceForParentSchema_constructing. }
  assert (H01 : frame E any_step this w w1).
  { intros i c Hc. rewrite Hw1. destruct (decide (i = this)) as [->|Hne]; simpl.
    - rewrite lookup_insert_eq. eexists. by split.
    - rewrite lookup_insert_ne by done. exists c. split; [done|]. reflexivity. }
  split.
  - etransitivity; [exact H01|].
    etransitivity; [eapply frame_weaken, Hreg|].
    etransitivity; [apply frame_put_class|].
    etransitivity; [eapply frame_weaken, Hflat'|].
    apply frame_put_class.
  - exists c4. split; [|simpl; apply lookup_insert_eq].
    destruct (Hreg this (prologueClass E this schema)) as (c2' & Hc2' & Hstep2).
    { rewrite Hw1. apply lookup_insert_eq. }
    rewrite decide_True in Hstep2 by done. rewrite Hc2 in Hc2'. injection Hc2' as <-.
    destruct (Hflat' this (addDefaultConstructor c2)) as (c4' & Hc4' & Hstep4).
    { simpl. apply lookup_insert_eq. }
    rewrite decide_True in Hstep4 by done. rewrite Hc4 in Hc4'. injection Hc4' as <-.
    destruct Hstep2 as [Hshape2 _], Hstep4 as [Hshape4 _].
    rewrite Hshape4. by apply shape_addDefaultConstructor.
Qed.

End Resolver.

Lemma ModelClass_new_unfold fuel this schema :
  schemas E !! this = Some schema ->
  ModelClass_new E (S fuel) this =
  ModelClass_constructor E (resolve E fuel) fuel this schema.
Proof. intros Hs. simpl. by rewrite Hs. Qed.

Lemma resolve_Returned fuel p w r w' :
  resolve E fuel p w = Returned (r, w') ->
  exists schema, schemas E !! p = Some schema /\ r = DeclarationOf p /\
    (is_Some (classImplementation w !! p) /\ w' = w \/
     classImplementation w !! p = None /\ ModelClass_new E fuel p w = Returned (tt, w')).
Proof.
  unfold resolve, resolveTypeDeclaration.
  destruct (schemas E !! p) as [schema|]; [|discriminate].
  intros H. exists schema. split; [done|].
  destruct (classImplementation w !! p) as [c|] eqn:Hc.
  - injection H as <- <-. split; [done|]. left. eauto.
  - apply bind_Returned in H as ([] & w1 & Hnew & [= <- <-]). split; [done|]. by right.
Qed.

(** Resolving a schema changes the classes that exist in their discriminator
    maps only, and an entry only into a class that carries the literal. *)
Lemma resolve_evolves fuel : forall p, respects (evolves E) (resolve E fuel p).
Proof.
  induction fuel as [|fuel IH]; intros p w r w' H;
    apply resolve_Returned in H as (schema & Hs & _ & [[_ ->]|[Hfresh Hnew]]);
    try reflexivity; [discriminate|].
  rewrite (ModelClass_new_unfold _ _ _ Hs) in Hnew.
  apply (ModelClass_constructor_Returned _ IH) in Hnew as [Hframe _]; [|done].
  by eapply frame_fresh.
Qed.

(** The class that [new ModelClass] leaves for a schema. *)
Lemma ModelClass_new_Returned fuel this w w' :
  ModelClass_new E fuel this w = Returned (tt, w') ->
  exists schema c,
    schemas E !! this = Some schema /\
    shape c = shape (addDefaultConstructor (prologueClass E this schema)) /\
    classImplementation w' !! this = Some (ModelClass_epilogue E schema c).
Proof.
  destruct fuel as [|fuel]; [discriminate|].
  destruct (schemas E !! this) as [schema|] eqn:Hs; [|simpl; by rewrite Hs].
  rewrite (ModelClass_new_unfold _ _ _ Hs). intros H.
  apply (ModelClass_constructor_Returned _ (resolve_evolves fuel)) in H as [_ (c & ? & ?)];
    [|done].
  by exists schema, c.
Qed.

Lemma build_evolves fuel roots : respects (evolves E) (build E fuel roots).
Proof.
  apply respects_forM_; [apply _|]. intros s _.
  apply respects_bind; try apply _; [apply resolve_evolves|].
  intros _. apply respects_ret; apply _.
Qed.

End FrameFacts.

(** ** White space *)

Lemma trim_start_empty s : trim_start s = "" <-> all_space s = true.
Proof.
  induction s as [|a s IH]; simpl; [done|].
  destruct (is_space a); simpl; [done|]. split; discriminate.
Qed.

Lemma all_space_trim_start s : all_space (trim_start s) = all_space s.
Proof.
  induction s as [|a s IH]; simpl; [done|].
  destruct (is_space a) eqn:Ha; simpl; [done|]. by rewrite Ha.
Qed.

Lemma all_space_rev_app s1 s2 :
  all_space (String.rev_app s1 s2) = all_space s1 && all_space s2.
Proof.
  revert s2. induction s1 as [|a s1 IH]; intros s2; simpl; [done|].
  rewrite IH. simpl. destruct (is_space a), (all_space s1); done.
Qed.

Lemma rev_app_empty s1 s2 : String.rev_app s1 s2 = "" <-> s1 = "" /\ s2 = "".
Proof.
  revert s2. induction s1 as [|a s1 IH]; intros s2; simpl.
  - split; [by intros ->|by intros [_ ->]].
  - rewrite IH. split; [intros [_ [=]]|intros [[=] _]].
Qed.

Lemma trim_empty s : trim s = "" <-> all_space s = true.
Proof.
  unfold trim, String.rev. rewrite rev_app_empty, trim_start_empty.
  rewrite all_space_rev_app, all_space_trim_start. simpl.
  rewrite andb_true_r. tauto.
Qed.

Lemma all_space_append s1 s2 : all_space (s1 +:+ s2) = all_space s1 && all_space s2.
Proof.
  induction s1 as [|a s1 IH]; [done|].
  change (String a s1 +:+ s2) with (String a (s1 +:+ s2)). simpl.
  rewrite IH. by rewrite andb_assoc.
Qed.

Lemma all_space_implementation stmts :
  all_space (implementation stmts) = forallb all_space stmts.
Proof.
  unfold implementation.
  induction stmts as [|x [|y stmts] IH]; [done|by simpl; rewrite andb_true_r|].
  change (String.concat EOL (x :: y :: stmts))
    with (x +:+ EOL +:+ String.concat EOL (y :: stmts)).
  rewrite !all_space_append, IH. done.
Qed.

(** The test of the constructor, [validationStatements.implementation.trim()],
    succeeds exactly when the sequence holds something to validate. *)
Lemma trim_implementation_nonEmpty stmts :
  trim (implementation stmts) <> "" <-> nonEmpty stmts.
Proof.
  rewrite trim_empty, all_space_implementation. unfold nonEmpty.
  rewrite Exists_exists. split.
  - intros H. apply not_true_is_false in H.
    induction stmts as [|x stmts IH]; [discriminate|]. simpl in H.
    destruct (all_space x) eqn:Hx.
    + destruct (IH H) as (y & Hy & Hf). exists y. split; [by right|done].
    + exists x. split; [left|done].
  - intros (x & Hx & Hf) Hall.
    rewrite forallb_forall in Hall. apply list_elem_of_In in Hx.
    specialize (Hall x Hx). congruence.
Qed.

(** ** Registering a literal twice (C10) *)

Lemma holds_evolves E w w' a v D :
  (forall d, declares E d v -> d = D) ->
  evolves E w w' -> holds w a v D -> holds w' a v D.
Proof.
  intros Huniq Hev (c & Hc & Hv).
  destruct (evolves_lookup _ _ _ _ _ Hev Hc) as (c' & Hc' & [_ Hstep]).
  exists c'. split; [done|].
  destruct (Hstep v) as [->|(d & Hd & ->)]; [done|].
  by rewrite (Huniq d Hd).
Qed.

(** A check of [ranked] that can be computed on a given world. *)
Lemma ranked_check rank w :
  map_Forall (fun a c =>
    Forall (fun b => is_Some (classImplementation w !! b) /\ rank b < rank a)
           (parentModelClasses c)) (classImplementation w) ->
  ranked rank w.
Proof.
  intros H a b (c & Hc & Hb).
  specialize (H a c Hc). rewrite Forall_forall in H. by apply H.
Qed.

Lemma chainParents_parent : parent_of chainParents 1 0.
Proof.
  eexists. split; [vm_compute; reflexivity|]. apply list_elem_of_In. vm_compute. auto.
Qed.

Lemma chainParents_ranked : ranked (fun s => s) chainParents.
Proof. apply ranked_check. apply (bool_decide_unpack _). vm_compute. exact I. Qed.

(** C10. Registering the same literal twice on a class, for two classes,
    returns both times; after the second call the map of the class and of
    every class reachable through the recorded parent lists is the map left
    by the first call with the entry of the literal replaced: the literal is
    sent to the class registered last. *)
Theorem addDiscriminator_last_wins rank fuel P v D1 D2 w :
  ranked rank w -> is_Some (classImplementation w !! P) -> rank P < fuel ->
  exists w1 w2,
    addDiscriminator fuel P v D1 w = Returned (tt, w1) /\
    addDiscriminator fuel P v D2 w1 = Returned (tt, w2) /\
    forall a, rtc (parent_of w) P a ->
      exists c1, classImplementation w1 !! a = Some c1 /\
                 discriminators c1 !! v = Some D1 /\
                 classImplementation w2 !! a =
                   Some (set_discriminators (<[v := D2]> (discriminators c1)) c1).
Proof.
  intros Hrank HP Hfuel.
  destruct (addDiscriminator_returns rank fuel v D1 P w Hrank HP Hfuel) as (w1 & Hrun1).
  pose proof (addDiscriminator_registered _ _ _ _ _ _ _ Hrun1) as Hr1.
  assert (Hrank1 : ranked rank w1) by (by eapply registered_ranked).
  assert (HP1 : is_Some (classImplementation w1 !! P)).
  { destruct HP as [c Hc].
    destruct (registered_lookup _ _ _ _ _ _ Hr1 Hc) as (c' & -> & _). eauto. }
  destruct (addDiscriminator_returns rank fuel v D2 P w1 Hrank1 HP1 Hfuel) as (w2 & Hrun2).
  pose proof (addDiscriminator_registered _ _ _ _ _ _ _ Hrun2) as Hr2.
  exists w1, w2. split; [done|]. split; [done|].
  intros a Ha.
  destruct (addDiscriminator_reaches _ _ _ _ _ _ Hrun1 a Ha) as (c1 & Hc1 & Hv1).
  exists c1. split; [done|]. split; [done|].
  destruct (addDiscriminator_reaches _ _ _ _ _ _ Hrun2 a) as (c2 & Hc2 & Hv2).
  { by apply (registered_rtc _ _ _ _ _ _ Hr1). }
  destruct (registered_lookup _ _ _ _ _ _ Hr2 Hc1) as (c2' & Hc2' & Hcc).
  rewrite Hc2 in Hc2'. injection Hc2' as <-. rewrite Hc2. f_equal.
  destruct Hcc as [->| ->]; [|done].
  rewrite insert_id by done. by destruct c1.
Qed.

Lemma addDiscriminator_last_wins_witness :
  exists w1 w2,
    addDiscriminator 5 1 "x" 7 chainParents = Returned (tt, w1) /\
    addDiscriminator 5 1 "x" 8 w1 = Returned (tt, w2) /\
    holds w2 1 "x" 8 /\ holds w2 0 "x" 8.
Proof.
  destruct (addDiscriminator_last_wins (fun s => s) 5 1 "x" 7 8 chainParents)
    as (w1 & w2 & Hrun1 & Hrun2 & Hall).
  - apply chainParents_ranked.
  - vm_compute. eauto.
  - lia.
  - exists w1, w2. split; [done|]. split; [done|]. split.
    + destruct (Hall 1) as (c1 & _ & _ & Hc2); [reflexivity|].
      eexists. split; [exact Hc2|]. apply lookup_insert_eq.
    + destruct (Hall 0) as (c1 & _ & _ & Hc2); [apply rtc_once, chainParents_parent|].
      eexists. split; [exact Hc2|]. apply lookup_insert_eq.
Defined.

(** ** The class that the constructor leaves *)

Section Epilogue.
Context (E : Environment).

Lemma shape_inv c c' :
  shape c = shape c' ->
  name c = name c' /\ isPolymorphic c = isPolymorphic c' /\
  interfaces c = interfaces c' /\ methods c = methods c' /\
  validateMethod c = validateMethod c' /\
  hasHeaderProperties c = hasHeaderProperties c'.
Proof. unfold shape. intros [=]. auto 10. Qed.

Lemma addProperties_others ps c :
  set_validationStatements [] (set_fields [] (addProperties E ps c)) =
  set_validationStatements [] (set_fields [] c).
Proof.
  revert c. induction ps as [|[index property] ps IH]; intros c; [done|].
  simpl. by rewrite IH.
Qed.

Lemma addProperties_shape ps c : shape (addProperties E ps c) = shape c.
Proof.
  change (shape (set_validationStatements [] (set_fields [] (addProperties E ps c))) =
          shape (set_validationStatements [] (set_fields [] c))).
  by rewrite addProperties_others.
Qed.

Lemma addProperties_class_properties ps c :
  class_properties (addProperties E ps c) = class_properties c.
Proof.
  change (class_properties (set_validationStatements [] (set_fields [] (addProperties E ps c)))
          = class_properties (set_validationStatements [] (set_fields [] c))).
  by rewrite addProperties_others.
Qed.

Lemma view_implementAdditionalProperties schema c :
  view (implementAdditionalProperties schema c) =
  (isPolymorphic c, hasHeaderProperties c, validationStatements c, class_properties c,
   (interfaces c ++ dictionaryOf schema)%list, validateMethod c, methods c).
Proof.
  unfold view, implementAdditionalProperties, dictionaryOf.
  destruct (additionalProperties schema) as [|[]|]; cbn; by rewrite ?app_nil_r.
Qed.

Lemma view_implementValidation c :
  view (implementValidation E c) =
  (isPolymorphic c, hasHeaderProperties c, validationStatements c, class_properties c,
   (interfaces c ++ if validationWanted E c then [IValidates] else [])%list,
   (if validationWanted E c then Some (validateOf c) else validateMethod c),
   (methods c ++ if validationWanted E c then [validateOf c] else [])%list).
Proof.
  unfold view, implementValidation, validationWanted.
  destruct (storagePipeline (project E)), (bool_decide _); cbn; by rewrite ?app_nil_r.
Qed.

Lemma view_implementReadHeaders c :
  view (implementReadHeaders E c) =
  (isPolymorphic c, hasHeaderProperties c, validationStatements c, class_properties c,
   interfaces c, validateMethod c,
   (methods c ++ if hasHeaderProperties c then [readHeadersOf E c] else [])%list).
Proof.
  unfold view, implementReadHeaders, readHeadersOf.
  destruct (hasHeaderProperties c) eqn:Hh; cbn; by rewrite ?Hh, ?app_nil_r.
Qed.

Lemma view_implementSerializers c : view (implementSerializers E c) = view c.
Proof.
  unfold view, implementSerializers.
  by destruct (jsonSerialization (project E)), (existsb _ _), (xmlSerialization (project E)).
Qed.

Lemma ModelClass_epilogue_spec schema c :
  let c1 := addProperties E (properties schema) c in
  let r := ModelClass_epilogue E schema c in
  isPolymorphic r = isPolymorphic c /\
  hasHeaderProperties r = hasHeaderProperties c /\
  validationStatements r = validationStatements c1 /\
  class_properties r = class_properties c /\
  interfaces r =
    (interfaces c ++ dictionaryOf schema
     ++ (if validationWanted E c1 then [IValidates] else []))%list /\
  validateMethod r = (if validationWanted E c1 then Some (validateOf c1) else validateMethod c) /\
  methods r =
    (methods c
     ++ (if validationWanted E c1 then [validateOf c1] else [])
     ++ (if hasHeaderProperties c then [readHeadersOf E c] else []))%list.
Proof.
  intros c1 r.
  destruct (shape_inv _ _ (addProperties_shape (properties schema) c))
    as (_ & Hp & Hi & Hm & Hv & Hh).
  pose proof (addProperties_class_properties (properties schema) c) as Hcp.
  fold c1 in Hp, Hi, Hm, Hv, Hh, Hcp.
  set (c2 := implementAdditionalProperties schema c1).
  set (c3 := implementValidation E c2).
  set (c4 := implementReadHeaders E c3).
  assert (H2 := view_implementAdditionalProperties schema c1). fold c2 in H2.
  assert (H3 := view_implementValidation c2). fold c3 in H3.
  assert (H4 := view_implementReadHeaders c3). fold c4 in H4.
  assert (H5 := view_implementSerializers c4).
  change (implementSerializers E c4) with r in H5.
  unfold view in H2, H3, H4, H5.
  injection H2 as H2p H2h H2v H2c H2i H2m H2s.
  injection H3 as H3p H3h H3v H3c H3i H3m H3s.
  injection H4 as H4p H4h H4v H4c H4i H4m H4s.
  injection H5 as H5p H5h H5v H5c H5i H5m H5s.
  assert (Hw : validationWanted E c2 = validationWanted E c1).
  { unfold validationWanted. by rewrite H2v. }
  assert (Hvo : validateOf c2 = validateOf c1).
  { unfold validateOf. by rewrite H2v. }
  assert (Hro : readHeadersOf E c3 = readHeadersOf E c).
  { unfold readHeadersOf. by rewrite H3c, H2c, Hcp. }
  rewrite Hw, Hvo in *. rewrite Hro in *.
  repeat split.
  - congruence.
  - congruence.
  - congruence.
  - congruence.
  - rewrite H5i, H4i, H3i, H2i, Hi. by rewrite <- app_assoc.
  - rewrite H5m, H4m, H3m, H2m, Hv. done.
  - rewrite H5s, H4s, H3s, H2s, H3h, H2h, Hh, Hm. by rewrite <- app_assoc.
Qed.

End Epilogue.

(** ** Polymorphism and validation (C6, C8) *)

Lemma prologueClass_shape E this schema :
  isPolymorphic (prologueClass E this schema) = bool_decide (is_Some (discriminator schema)) /\
  hasHeaderProperties (prologueClass E this schema) =
    existsb (fun kv => isHeaderProperty kv.2) (properties schema) /\
  interfaces (prologueClass E this schema) = [ModelInterfaceOf this] /\
  methods (prologueClass E this schema) = [] /\
  validateMethod (prologueClass E this schema) = None.
Proof.
  unfold prologueClass. destruct (discriminator schema); cbn; repeat split; try done.
Qed.

(** C6. The class built for a schema is polymorphic exactly when the schema
    declares a discriminator property; a discriminator value plays no part.
    The prologue of the constructor, which always returns, sets the flag so,
    and a constructor that runs to its end leaves it so. *)
Theorem isPolymorphic_iff_discriminator E this schema :
  (forall w, exists w1 c,
      ModelClass_prologue E this schema w = Returned (tt, w1) /\
      classImplementation w1 !! this = Some c /\
      (isPolymorphic c = true <-> is_Some (discriminator schema))) /\
  (forall fuel w w',
      schemas E !! this = Some schema ->
      ModelClass_new E fuel this w = Returned (tt, w') ->
      exists c, classImplementation w' !! this = Some c /\
        (isPolymorphic c = true <-> is_Some (discriminator schema))).
Proof.
  destruct (prologueClass_shape E this schema) as (Hpoly & _).
  split.
  - intros w. destruct (ModelClass_prologue_Returned E this schema w) as (w1 & Hrun & Hw1).
    exists w1, (prologueClass E this schema). split; [done|]. split.
    + rewrite Hw1. apply lookup_insert_eq.
    + rewrite Hpoly. apply bool_decide_eq_true.
  - intros fuel w w' Hs (schema' & c & Hs' & Hshape & Hc)%ModelClass_new_Returned.
    rewrite Hs in Hs'. injection Hs' as <-.
    exists (ModelClass_epilogue E schema c). split; [done|].
    destruct (ModelClass_epilogue_spec E schema c) as (-> & _).
    apply shape_inv in Hshape as (_ & -> & _).
    change (isPolymorphic (addDefaultConstructor (prologueClass E this schema)))
      with (isPolymorphic (prologueClass E this schema)).
    rewrite Hpoly. apply bool_decide_eq_true.
Qed.

(** Dog, which carries the literal dog and has the polymorphic parent Animal,
    is built as a class that is not polymorphic. *)
Lemma isPolymorphic_iff_discriminator_witness :
  exists c,
    classImplementation (worldOf (ModelClass_new zooEnvironment 5 1 emptyWorld)) !! 1 = Some c /\
    (isPolymorphic c = true <-> is_Some (discriminator dog)).
Proof.
  apply (proj2 (isPolymorphic_iff_discriminator zooEnvironment 1 dog) 5 emptyWorld);
    vm_compute; reflexivity.
Defined.

(** The scenario of the zoo: Animal learns of Dog and Cat; Dog and Cat are
    not polymorphic, Animal is. *)
Example zoo_build :
  exists w, build zooEnvironment 5 [1; 2] emptyWorld = Returned (tt, w) /\
    (registry <$> classOf w 0) = Some [("cat", 2); ("dog", 1)] /\
    (isPolymorphic <$> classOf w 0) = Some true /\
    (isPolymorphic <$> classOf w 1) = Some false /\
    (isPolymorphic <$> classOf w 2) = Some false.
Proof. eexists. split; [vm_compute; reflexivity|]. repeat split; vm_compute; reflexivity. Qed.

(** C8. The class gets its Validate method, and the interface IValidates
    with it, exactly when the validation statements gathered for it hold
    something to validate and the project does not use the storage
    pipeline; the method validates with the gathered statements. *)
Theorem validation_capability E fuel this w w' :
  ModelClass_new E fuel this w = Returned (tt, w') ->
  exists c, classImplementation w' !! this = Some c /\
    (is_Some (validateMethod c) <->
       nonEmpty (validationStatements c) /\ storagePipeline (project E) = false) /\
    (IValidates ∈ interfaces c <->
       nonEmpty (validationStatements c) /\ storagePipeline (project E) = false) /\
    (forall m, validateMethod c = Some m ->
       m ∈ methods c /\ method_name m = "Validate" /\
       method_body m = validationStatements c).
Proof.
  intros (schema & c & Hs & Hshape & Hc)%ModelClass_new_Returned.
  exists (ModelClass_epilogue E schema c). split; [done|].
  destruct (ModelClass_epilogue_spec E schema c) as (_ & _ & Hvs & _ & Hi & Hvm & Hm).
  apply shape_inv in Hshape as (_ & _ & Hi0 & Hm0 & Hv0 & _).
  change (interfaces (addDefaultConstructor (prologueClass E this schema)))
    with (interfaces (prologueClass E this schema)) in Hi0.
  change (validateMethod (addDefaultConstructor (prologueClass E this schema)))
    with (validateMethod (prologueClass E this schema)) in Hv0.
  destruct (prologueClass_shape E this schema) as (_ & _ & Hpi & _ & Hpv).
  rewrite Hpi in Hi0. rewrite Hpv in Hv0.
  rewrite Hvs, Hi, Hvm, Hm, Hi0, Hv0.
  set (c1 := addProperties E (properties schema) c).
  assert (Hwanted : validationWanted E c1 = true <->
            nonEmpty (validationStatements c1) /\ storagePipeline (project E) = false).
  { unfold validationWanted. rewrite <- trim_implementation_nonEmpty.
    rewrite andb_true_iff, !negb_true_iff, bool_decide_eq_false. tauto. }
  destruct (validationWanted E c1).
  - split; [|split].
    + split; [intros _; by apply Hwanted|eauto].
    + split; [intros _; by apply Hwanted|]. intros _.
      rewrite !elem_of_app, !elem_of_cons. tauto.
    + intros m [= <-]. split; [|done].
      rewrite !elem_of_app, !elem_of_cons. tauto.
  - split; [|split].
    + split; [by intros [? [=]]|]. intros H. apply Hwanted in H. discriminate.
    + split; [|intros H; apply Hwanted in H; discriminate].
      unfold dictionaryOf, IValidates.
      rewrite !elem_of_app, !elem_of_cons, !elem_of_nil.
      case_decide; rewrite ?elem_of_cons, ?elem_of_nil;
        intros Hin; decompose [or] Hin; try done; discriminate.
    + intros m [=].
Qed.

(** A schema with a required property, in a plain project. *)
Lemma validation_capability_witness :
  exists c,
    classImplementation
      (worldOf (ModelClass_new (checkedEnvironment defaultProject) 5 0 emptyWorld)) !! 0
      = Some c /\
    (is_Some (validateMethod c) <->
       nonEmpty (validationStatements c) /\
       storagePipeline (project (checkedEnvironment defaultProject)) = false) /\
    (IValidates ∈ interfaces c <->
       nonEmpty (validationStatements c) /\
       storagePipeline (project (checkedEnvironment defaultProject)) = false) /\
    (forall m, validateMethod c = Some m ->
       m ∈ methods c /\ method_name m = "Validate" /\
       method_body m = validationStatements c).
Proof.
  apply (validation_capability (checkedEnvironment defaultProject) 5 0 emptyWorld).
  vm_compute. reflexivity.
Defined.

(** The same schema is validated in a plain project and is not when the
    project uses the storage pipeline. *)
Example checked_build :
  (methodNames <$>
     classOf (worldOf (build (checkedEnvironment defaultProject) 5 [0] emptyWorld)) 0)
    = Some ["Checked"; "Validate"] /\
  (methodNames <$>
     classOf (worldOf (build (checkedEnvironment storageProject) 5 [0] emptyWorld)) 0)
    = Some ["Checked"].
Proof. split; vm_compute; reflexivity. Qed.

(** The class gets ReadHeaders exactly when a property of its own schema is
    a header property. *)
Lemma ReadHeaders_iff_own_header E fuel this w w' :
  ModelClass_new E fuel this w = Returned (tt, w') ->
  exists schema c, schemas E !! this = Some schema /\
    classImplementation w' !! this = Some c /\
    hasHeaderProperties c = existsb (fun kv => isHeaderProperty kv.2) (properties schema) /\
    (readHeadersOf E c ∈ methods c <->
     existsb (fun kv => isHeaderProperty kv.2) (properties schema) = true).
Proof.
  intros (schema & c & Hs & Hshape & Hc)%ModelClass_new_Returned.
  exists schema, (ModelClass_epilogue E schema c). split; [done|]. split; [done|].
  destruct (ModelClass_epilogue_spec E schema c) as (_ & Hh & _ & Hcp & _ & _ & Hm).
  apply shape_inv in Hshape as (_ & _ & _ & Hm0 & _ & Hh0).
  change (hasHeaderProperties (addDefaultConstructor (prologueClass E this schema)))
    with (hasHeaderProperties (prologueClass E this schema)) in Hh0.
  destruct (prologueClass_shape E this schema) as (_ & Hph & _ & Hpm & _).
  rewrite Hph in Hh0. rewrite Hh, Hh0. split; [done|].
  assert (Hr : readHeadersOf E (ModelClass_epilogue E schema c) = readHeadersOf E c).
  { unfold readHeadersOf. by rewrite Hcp. }
  rewrite Hr, Hm, Hm0, Hh0.
  unfold addDefaultConstructor. cbn [methods set_methods]. rewrite Hpm.
  destruct (existsb _ _).
  - split; [done|]. intros _. rewrite !elem_of_app, !elem_of_cons. tauto.
  - split; [|done]. rewrite app_nil_r.
    unfold readHeadersOf, validateOf.
    destruct (validationWanted E _);
      rewrite !elem_of_app, !elem_of_cons, !elem_of_nil;
      intros Hin; decompose [or] Hin; try done; discriminate.
Qed.

(** ** Flattening of parents (C2, C3, C4) *)

Lemma addInheritedProperty_class_properties E description each c :
  class_properties (addInheritedProperty E description each c) =
  class_properties c ++ [proxyOf E description each].
Proof.
  unfold addInheritedProperty, proxyOf. case_decide; [|done].
  cbn [class_properties set_class_properties].
  rewrite <- (Nat.add_0_r (length (class_properties c))).
  by rewrite alter_app_r.
Qed.

Lemma addInheritedProperties_class_properties E description ps c :
  class_properties (addInheritedProperties E description ps c) =
  class_properties c ++ map (proxyOf E description) ps.
Proof.
  revert c. induction ps as [|each ps IH]; intros c.
  - simpl. by rewrite app_nil_r.
  - change (addInheritedProperties E description (each :: ps) c)
      with (addInheritedProperties E description ps (addInheritedProperty E description each c)).
    rewrite IH, addInheritedProperty_class_properties. by rewrite <- app_assoc.
Qed.

(** The loop over the properties of the parent interface adds one virtual
    property per inherited property, in order.  Each of them has the getter
    statement that returns the value behind it; it has no setter statements
    when the setter of the inherited property is internal, and the assignment
    otherwise. *)
Lemma addInheritedProperties_accessors
    (E : Environment) (description : string) (ps : list InterfaceProperty) (c : ModelClass) :
  exists proxies,
    class_properties (addInheritedProperties E description ps c) =
      class_properties c ++ proxies /\
    Forall2 (fun each vp =>
               vp_name vp = ip_name each /\
               getterStatements vp =
                 Some ["return " +:+ valueOf E each +:+ "." +:+ ip_name each +:+ ";"] /\
               setterStatements vp =
                 if decide (setAccess each = Internal) then None
                 else Some [valueOf E each +:+ "." +:+ ip_name each +:+ " = value;"])
            ps proxies.
Proof.
  exists (map (proxyOf E description) ps).
  split; [apply addInheritedProperties_class_properties|].
  induction ps as [|each ps IH]; simpl; constructor; [|done].
  unfold proxyOf. case_decide; cbn; repeat split; eauto; done.
Qed.

(** C4. Parent declares its property etag read-only.  Built from scratch,
    the class of Child has no virtual property at all, so none that reads
    etag: the test at the head of [implementInterfaceForParentSchema] sends
    the parent away (the defect of C2).  Built where the interface of Child
    lists the interface of Parent first, the class of Child has the proxy of
    etag, with the getter statement and without setter statements. *)
Theorem readonly_parent_property_without_proxy :
  (exists w, build readonlyHeadersEnvironment 5 [1] emptyWorld = Returned (tt, w) /\
     allProperties readonlyHeadersEnvironment (interfaceImplementation w) 0 =
       [{| ip_name := "etag"; setAccess := Internal |}] /\
     (map accessorsOf <$> (class_properties <$> classOf w 1)) = Some []) /\
  (exists w,
     build readonlyHeadersEnvironment 5 [1] (seeded 1 0 "IChild") = Returned (tt, w) /\
     allProperties readonlyHeadersEnvironment (interfaceImplementation w) 0 =
       [{| ip_name := "etag"; setAccess := Internal |}] /\
     (map accessorsOf <$> (class_properties <$> classOf w 1)) =
       Some [("etag", Some ["return etag.etag;"], None)]).
Proof.
  split; eexists; (split; [vm_compute; reflexivity|]); split; vm_compute; reflexivity.
Qed.

(** The constructor of Child, run where the interface of Child lists the
    interface of Parent first: the identifier is exposed without setter, the
    name with one. *)
Example readonly_proxy_in_class :
  exists w, build headersEnvironment 5 [1] guarded = Returned (tt, w) /\
    (map accessorsOf <$> (class_properties <$> classOf w 1)) =
    Some [("id", Some ["return id.id;"], None);
          ("name", Some ["return name.name;"], Some ["name.name = value;"])].
Proof. eexists. split; vm_compute; reflexivity. Qed.

Lemma indexOf_absent {A} `{EqDecision A} (l : list A) (x : A) :
  indexOf l x = (-1)%Z <-> x ∉ l.
Proof.
  assert (Hge : forall l', (-1 <= indexOf l' x)%Z).
  { induction l' as [|y l' IH]; simpl; [lia|]. repeat case_decide; lia. }
  induction l as [|y l IH]; simpl.
  - split; [intros _; apply not_elem_of_nil|done].
  - rewrite not_elem_of_cons. case_decide as Hy; [subst; split; [lia|tauto]|].
    case_decide as Hr.
    + split; [intros _|done]. split; [congruence|by apply IH].
    + specialize (Hge l). split; [lia|]. intros [_ Hx]. by apply IH in Hx.
Qed.

(** The guard of [implementInterfaceForParentSchema]: the call returns right
    after resolving the parent unless the interface of the parent is the
    first of the interfaces of the class; in particular it returns when the
    interface of the parent is not among them at all. *)
Lemma implementInterfaceForParentSchema_skips E res fuel this p w td w1 me mine :
  res p w = Returned (td, w1) ->
  classImplementation w1 !! this = Some me ->
  interfaceImplementation w1 !! modelInterface me = Some mine ->
  indexOf (mi_interfaces mine) (ModelInterfaceOf p) <> 0%Z ->
  implementInterfaceForParentSchema E res (S fuel) this p w = Returned (tt, w1).
Proof.
  intros Hres Hme Hmine Hindex. simpl.
  rewrite (bind_Returned_2 _ _ _ _ _ Hres).
  unfold bind at 1. unfold get_class at 1. rewrite Hme.
  unfold bind at 1. unfold get_interface at 1. rewrite Hmine.
  unfold bind at 1. unfold find_interface at 1.
  destruct (interfaceImplementation w1 !! p); unfold truthy_number.
  - by rewrite bool_decide_eq_false_2.
  - done.
Qed.

(** C2. For a schema that names the same parent twice in [allOf], the class
    does not get one backing entry: built from scratch it gets none, because
    the test meant to recognise a parent done before sends away every parent
    whose interface is not listed yet; built where the interface of the
    parent is listed first, it gets one entry per occurrence. *)
Theorem duplicate_allOf_backing_entries :
  (exists w, build twiceEnvironment 5 [1] emptyWorld = Returned (tt, w) /\
     (backingFieldNames <$> classOf w 1) = Some []) /\
  (exists w, build twiceEnvironment 5 [1] (seeded 1 0 "IDerived") = Returned (tt, w) /\
     (backingFieldNames <$> classOf w 1) = Some ["_Base"; "_Base0"] /\
     (map typeDeclaration <$> (backingFields <$> classOf w 1)) =
       Some [DeclarationOf 0; DeclarationOf 0]).
Proof.
  split; eexists; (split; [vm_compute; reflexivity|]); repeat split; vm_compute; reflexivity.
Qed.

(** C3. The properties of the grandparent do not reach the class of Child.
    Built from scratch, Child gets no backing entry and no virtual property.
    Built where the interface of Child lists the interface of Parent first,
    the call that should handle the parents of Parent handles Parent again,
    and again, until no private name is left for its backing field. *)
Theorem grandparents_not_flattened :
  (exists w, build lineageEnvironment 5 [2] emptyWorld = Returned (tt, w) /\
     (propertyNames <$> classOf w 2) = Some [] /\
     (backingFieldNames <$> classOf w 2) = Some []) /\
  build lineageEnvironment 110 [2] (seeded 2 1 "IChild") =
    Thrown "Unexpected number of private fields with name _Parent".
Proof.
  split.
  - eexists. split; [vm_compute; reflexivity|]. split; vm_compute; reflexivity.
  - vm_compute. reflexivity.
Qed.

(** ** Additional properties and headers (C7, C9) *)

(** C7. Of the three cases of the additional properties, only the
    unconstrained one attaches a dictionary interface: for a schema whose
    additional properties have a fixed value type the class gets none. *)
Theorem typed_additionalProperties_attach_nothing :
  (forall schema c,
     interfaces (implementAdditionalProperties schema c) =
     interfaces c ++
       if decide (additionalProperties schema = APBoolean true)
       then [IDictionaryOf System_String System_Object] else []) /\
  (exists w, build bagsEnvironment 5 [0; 1; 2] emptyWorld = Returned (tt, w) /\
     (interfaces <$> classOf w 0) = Some [ModelInterfaceOf 0] /\
     (interfaces <$> classOf w 1) = Some [ModelInterfaceOf 1] /\
     (interfaces <$> classOf w 2) =
       Some [ModelInterfaceOf 2; IDictionaryOf System_String System_Object]).
Proof.
  split.
  - intros schema c. pose proof (view_implementAdditionalProperties schema c) as H.
    unfold view, dictionaryOf in H. by injection H.
  - eexists. split; [vm_compute; reflexivity|]. repeat split; vm_compute; reflexivity.
Qed.

(** C9. Child has no property of its own and inherits the header property
    etag from its parent.  Its class has no ReadHeaders method, neither built
    from scratch nor built where the inherited property is exposed through a
    virtual property: the flag that decides is computed from the properties
    of the schema itself.  The class of Parent has the method. *)
Theorem inherited_header_property_without_ReadHeaders :
  (map (fun kv => isHeaderProperty kv.2) <$> (properties <$> headers !! 0)) = Some [true] /\
  (exists w, build headersEnvironment 5 [1] emptyWorld = Returned (tt, w) /\
     (hasHeaderProperties <$> classOf w 1) = Some false /\
     (methodNames <$> classOf w 1) = Some ["Child"] /\
     (methodNames <$> classOf w 0) = Some ["Parent"; "ReadHeaders"]) /\
  (exists w, build headersEnvironment 5 [1] (seeded 1 0 "IChild") = Returned (tt, w) /\
     (propertyNames <$> classOf w 1) = Some ["etag"] /\
     (hasHeaderProperties <$> classOf w 1) = Some false /\
     (methodNames <$> classOf w 1) = Some ["Child"; "Validate"] /\
     (methodNames <$> classOf w 0) = Some ["Parent"; "ReadHeaders"]).
Proof.
  split; [vm_compute; reflexivity|].
  split; eexists; (split; [vm_compute; reflexivity|]); repeat split; vm_compute; reflexivity.
Qed.

(** ** Properties of a model (property.ts) *)

(** A property whose schema is read-only has no setter, whatever the backed
    property offered. *)
Lemma ModelProperty_readOnly nm decl get set schema cls isRequired serialized description :
  readOnly schema = true ->
  mp_set (ModelProperty_new nm decl get set schema cls isRequired serialized description)
    = None.
Proof. intros H. unfold ModelProperty_new. simpl. by rewrite H. Qed.

Lemma ModelProperty_writable nm decl get set schema cls isRequired serialized description :
  readOnly schema = false ->
  mp_set (ModelProperty_new nm decl get set schema cls isRequired serialized description)
    = set.
Proof. intros H. unfold ModelProperty_new. simpl. by rewrite H. Qed.

(** A property that is not required has no presence check. *)
Lemma ModelProperty_optional_presence presence p :
  mp_required p = false -> ModelProperty_validatePresenceStatement presence p = "".
Proof. intros H. unfold ModelProperty_validatePresenceStatement. by rewrite H. Qed.

(** ** The registry after a build pass *)

Lemma same_registry_parent_of w w' a b :
  same_registry w w' -> parent_of w a b -> parent_of w' a b.
Proof.
  intros Hs (c & Hc & Hb). specialize (Hs a). rewrite Hc in Hs.
  destruct (classImplementation w' !! a) as [c'|] eqn:Hc'; simpl in Hs; [|discriminate].
  exists c'. split; [done|]. injection Hs as Hp _. by rewrite <- Hp.
Qed.

Lemma same_registry_holds w w' a v D :
  same_registry w w' -> holds w a v D -> holds w' a v D.
Proof.
  intros Hs (c & Hc & Hv). specialize (Hs a). rewrite Hc in Hs.
  destruct (classImplementation w' !! a) as [c'|] eqn:Hc'; simpl in Hs; [|discriminate].
  exists c'. split; [done|]. injection Hs as _ Hd. by rewrite <- Hd.
Qed.

Lemma same_registry_is_Some w w' a :
  same_registry w w' -> is_Some (classImplementation w !! a) ->
  is_Some (classImplementation w' !! a).
Proof.
  intros Hs [c Hc]. specialize (Hs a). rewrite Hc in Hs.
  destruct (classImplementation w' !! a) eqn:Hc'; simpl in Hs; [eauto|discriminate].
Qed.

Lemma same_registry_sym w w' : same_registry w w' -> same_registry w' w.
Proof. intros H i. by rewrite H. Qed.

Lemma same_registry_rtc w w' a b :
  same_registry w w' -> rtc (parent_of w) a b -> rtc (parent_of w') a b.
Proof.
  intros Hs. induction 1 as [|x y z Hxy _ IH]; [reflexivity|].
  eapply rtc_l; [|exact IH]. by eapply same_registry_parent_of.
Qed.

Lemma same_registry_with_class s c c' w :
  classImplementation w !! s = Some c -> regview c' = regview c ->
  same_registry w (with_class s c' w).
Proof.
  intros Hc Hv i. simpl. destruct (decide (i = s)) as [->|Hne].
  - rewrite lookup_insert_eq, Hc. simpl. by rewrite Hv.
  - by rewrite lookup_insert_ne.
Qed.

Lemma same_registry_with_interface j i w : same_registry w (with_interface j i w).
Proof. by intros k. Qed.

Section Registry.
Context (E : Environment) (rk : SchemaId -> nat).
Hypothesis graph_acyclic : acyclic E rk.

Lemma registry_inv_same busy w w' :
  same_registry w w' -> registry_inv E busy w -> registry_inv E busy w'.
Proof.
  intros Hs [Hclosed Hcomplete].
  pose proof (same_registry_sym _ _ Hs) as Hs'. split.
  - intros x p Hxp. apply (same_registry_parent_of _ _ _ _ Hs') in Hxp.
    destruct (Hclosed x p Hxp) as [Hp Hbusy]. split; [|done].
    by eapply same_registry_is_Some.
  - intros d p a v Hd Hdp Hpa.
    apply (same_registry_parent_of _ _ _ _ Hs') in Hdp.
    apply (same_registry_rtc _ _ _ _ Hs') in Hpa.
    destruct (Hcomplete d p a v Hd Hdp Hpa) as (D & HD & Hh).
    exists D. split; [done|]. by eapply same_registry_holds.
Qed.

Lemma registry_inv_weaken busy busy' w :
  busy' ⊆ busy -> registry_inv E busy w -> registry_inv E busy' w.
Proof.
  intros Hsub [Hclosed Hcomplete]. split; [|done].
  intros x p Hxp. destruct (Hclosed x p Hxp) as [Hp Hbusy]. split; [done|].
  intros Hin. apply Hbusy. by apply Hsub.
Qed.

(** Reachability stays among the classes of a closed world. *)
Lemma registry_closed_rtc busy w a b :
  registry_closed busy w -> is_Some (classImplementation w !! a) ->
  rtc (parent_of w) a b -> is_Some (classImplementation w !! b).
Proof.
  intros Hclosed Ha. induction 1 as [|x y z Hxy _ IH]; [done|].
  apply IH. by destruct (Hclosed x y Hxy).
Qed.

(** A class without recorded parents enters the world, busy with its
    construction. *)
Lemma registry_inv_fresh busy w this c :
  classImplementation w !! this = None -> parentModelClasses c = [] ->
  registry_inv E busy w -> registry_inv E (busy ∪ {[this]}) (with_class this c w).
Proof.
  intros Hfresh Hnone [Hclosed Hcomplete].
  assert (Hedge : forall x p, parent_of (with_class this c w) x p -> parent_of w x p).
  { intros x p (cx & Hcx & Hp). simpl in Hcx.
    destruct (decide (x = this)) as [->|Hne].
    - rewrite lookup_insert_eq in Hcx. injection Hcx as <-.
      rewrite Hnone in Hp. by apply elem_of_nil in Hp.
    - rewrite lookup_insert_ne in Hcx by done. by exists cx. }
  assert (Hpath : forall a b, rtc (parent_of (with_class this c w)) a b ->
                              rtc (parent_of w) a b).
  { induction 1 as [|x y z Hxy _ IH]; [reflexivity|]. eapply rtc_l; [|exact IH]. by apply Hedge. }
  split.
  - intros x p Hxp. apply Hedge in Hxp. destruct (Hclosed x p Hxp) as [[cp Hcp] Hbusy].
    assert (p <> this) by congruence.
    split.
    + simpl. rewrite lookup_insert_ne by done. eauto.
    + rewrite elem_of_union, elem_of_singleton. tauto.
  - intros d p a v Hd Hdp Hpa. apply Hedge in Hdp. apply Hpath in Hpa.
    destruct (Hcomplete d p a v Hd Hdp Hpa) as (D & HD & (ca & Hca & Hv)).
    exists D. split; [done|]. exists ca. split; [|done].
    simpl. rewrite lookup_insert_ne; [done|]. congruence.
Qed.

(** The class under construction records the polymorphic parent [q] and
    tells it who it is. *)
Lemma registry_inv_register busy w this c q v fuel w' :
  registry_inv E busy w ->
  this ∈ busy -> q ∉ busy ->
  classImplementation w !! this = Some c ->
  is_Some (classImplementation w !! q) ->
  declares E this v ->
  addDiscriminator fuel q v this
    (with_class this (set_parentModelClasses (parentModelClasses c ++ [q]) c) w)
    = Returned (tt, w') ->
  registry_inv E busy w'.
Proof.
  intros [Hclosed Hcomplete] Hthis Hq Hc Hqc Hd Hrun.
  set (w1 := with_class this (set_parentModelClasses (parentModelClasses c ++ [q]) c) w) in *.
  pose proof (addDiscriminator_registered _ _ _ _ _ _ _ Hrun) as Hr.
  assert (Hqthis : q <> this) by (intros ->; done).
  (* the edges of [w1]: those of [w] and the new one *)
  assert (Hedge : forall x p, parent_of w1 x p -> parent_of w x p \/ (x = this /\ p = q)).
  { intros x p (cx & Hcx & Hp). unfold w1 in Hcx. simpl in Hcx.
    destruct (decide (x = this)) as [->|Hne].
    - rewrite lookup_insert_eq in Hcx. injection Hcx as <-. simpl in Hp.
      apply elem_of_app in Hp as [Hp|Hp].
      + left. by exists c.
      + right. by apply list_elem_of_singleton in Hp.
    - rewrite lookup_insert_ne in Hcx by done. left. by exists cx. }
  assert (Hedge' : forall x p, parent_of w x p -> parent_of w1 x p).
  { intros x p (cx & Hcx & Hp). destruct (decide (x = this)) as [->|Hne].
    - rewrite Hc in Hcx. injection Hcx as <-. eexists. split.
      + unfold w1. simpl. apply lookup_insert_eq.
      + simpl. apply elem_of_app. by left.
    - exists cx. split; [|done]. unfold w1. simpl. by rewrite lookup_insert_ne. }
  (* a path that starts outside the class under construction stays in [w] *)
  assert (Hpath : forall a b, a <> this -> rtc (parent_of w1) a b -> rtc (parent_of w) a b).
  { intros a b Ha Hab. induction Hab as [|x y z Hxy _ IH]; [reflexivity|].
    destruct (Hedge x y Hxy) as [Hw|[-> _]]; [|done].
    eapply rtc_l; [exact Hw|]. apply IH.
    destruct (Hclosed x y Hw) as [_ Hy]. intros ->. done. }
  assert (Hsome : forall i, is_Some (classImplementation w !! i) ->
                            is_Some (classImplementation w' !! i)).
  { intros i [ci Hci].
    assert (is_Some (classImplementation w1 !! i)) as [ci1 Hci1].
    { unfold w1. simpl. destruct (decide (i = this)) as [->|Hne].
      - rewrite lookup_insert_eq. eauto.
      - rewrite lookup_insert_ne by done. eauto. }
    destruct (registered_lookup _ _ _ _ _ _ Hr Hci1) as (ci' & -> & _). eauto. }
  split.
  - intros x p Hxp. apply (registered_parent_of _ _ _ _ _ _ Hr) in Hxp.
    destruct (Hedge x p Hxp) as [Hw|[-> ->]].
    + destruct (Hclosed x p Hw) as [Hp Hbusy]. split; [by apply Hsome|done].
    + split; [by apply Hsome|done].
  - intros d p a v' Hd' Hdp Hpa.
    apply (registered_parent_of _ _ _ _ _ _ Hr) in Hdp.
    apply (registered_rtc _ _ _ _ _ _ Hr) in Hpa.
    assert (Hp : p <> this).
    { destruct (Hedge d p Hdp) as [Hw|[_ ->]]; [|done].
      destruct (Hclosed d p Hw) as [_ Hbusy]. intros ->. done. }
    destruct (Hedge d p Hdp) as [Hw|[-> ->]].
    + (* an edge of [w]: the entry was there, and is kept or overwritten *)
      destruct (Hcomplete d p a v' Hd' Hw (Hpath _ _ Hp Hpa)) as (D & HD & (ca & Hca & Hv)).
      assert (is_Some (classImplementation w1 !! a)) as [ca1 Hca1].
      { unfold w1. simpl. destruct (decide (a = this)) as [->|Hne].
        - rewrite lookup_insert_eq. eauto.
        - rewrite lookup_insert_ne by done. eauto. }
      assert (Hv1 : discriminators ca1 !! v' = Some D).
      { unfold w1 in Hca1. simpl in Hca1. destruct (decide (a = this)) as [->|Hne].
        - rewrite lookup_insert_eq in Hca1. injection Hca1 as <-.
          rewrite Hc in Hca. by injection Hca as <-.
        - rewrite lookup_insert_ne in Hca1 by done. congruence. }
      destruct (registered_lookup _ _ _ _ _ _ Hr Hca1) as (ca' & Hca' & [->| ->]).
      * exists D. split; [done|]. by exists ca1.
      * destruct (decide (v' = v)) as [->|Hne].
        -- exists this. split; [done|]. eexists. split; [done|]. apply lookup_insert_eq.
        -- exists D. split; [done|]. eexists. split; [done|].
           simpl. by rewrite lookup_insert_ne.
    + (* the new edge: the registration reached every class behind [q] *)
      destruct Hd as (sch & Hsch & Hv), Hd' as (sch' & Hsch' & Hv').
      rewrite Hsch in Hsch'. injection Hsch' as <-. rewrite Hv in Hv'. injection Hv' as <-.
      exists this. split; [by exists sch|].
      by eapply addDiscriminator_reaches.
Qed.

Lemma preserves_ret {A} (I : World -> Prop) (a : A) : preserves I (ret a).
Proof. by intros w a' w' HI [= _ <-]. Qed.

Lemma preserves_bind {A B} (I : World -> Prop) (m : M A) (k : A -> M B) :
  preserves I m -> (forall a, preserves I (k a)) -> preserves I (bind m k).
Proof.
  intros Hm Hk w b w' HI (a & w1 & H1 & H2)%bind_Returned.
  eapply Hk; [|exact H2]. by eapply Hm.
Qed.

Lemma preserves_forM_ {A} (I : World -> Prop) (l : list A) (body : A -> M unit) :
  (forall x, x ∈ l -> preserves I (body x)) -> preserves I (forM_ l body).
Proof.
  induction l as [|x l IH]; intros Hbody; simpl.
  - apply preserves_ret.
  - apply preserves_bind.
    + apply Hbody. left.
    + intros _. apply IH. intros y Hy. apply Hbody. by right.
Qed.

Lemma preserves_get_class I s : preserves I (get_class s).
Proof. by intros w c w' HI [_ ->]%get_class_Returned. Qed.

Lemma preserves_get_interface I s : preserves I (get_interface s).
Proof. by intros w c w' HI [_ ->]%get_interface_Returned. Qed.

Lemma preserves_find_interface I s : preserves I (find_interface s).
Proof. by intros w c w' HI [= _ <-]. Qed.

Lemma preserves_lift {A} I (r : completion A) : preserves I (lift r).
Proof. by intros w c w' HI [_ ->]%lift_Returned. Qed.

Lemma preserves_get_allProperties I s : preserves I (get_allProperties E s).
Proof. by intros w c w' HI [= _ <-]. Qed.

Lemma preserves_modify_regview busy s f :
  (forall c, regview (f c) = regview c) ->
  preserves (registry_inv E busy) (modify_class s f).
Proof.
  intros Hf w [] w' HI (c & Hc & [= ->])%modify_class_Returned.
  eapply registry_inv_same; [|exact HI]. by apply same_registry_with_class with c.
Qed.

Lemma preserves_modify_interface busy s f :
  preserves (registry_inv E busy) (modify_interface s f).
Proof.
  intros w [] w' HI (c & Hc & [= ->])%modify_interface_Returned.
  eapply registry_inv_same; [|exact HI]. apply same_registry_with_interface.
Qed.

Section Resolver.
Context (resolve0 : SchemaId -> M TypeDeclaration).
Hypothesis resolve0_inv : forall q busy,
  (forall s, s ∈ busy -> rk q < rk s) ->
  preserves (registry_inv E busy) (resolve0 q).

Lemma registerWithParents_inv fuel this schema busy :
  schemas E !! this = Some schema -> this ∈ busy ->
  (forall q s, q ∈ allOf schema -> s ∈ busy -> rk q < rk s) ->
  preserves (registry_inv E busy) (registerWithParents resolve0 fuel this schema).
Proof.
  intros Hs Hthis Hrk. unfold registerWithParents.
  destruct (truthy_string _) as [v|] eqn:Hv; [|apply preserves_ret].
  apply preserves_forM_. intros q Hq.
  apply preserves_bind; [apply resolve0_inv; intros s; by apply Hrk|].
  intros _ w b w' HI (pc & w1 & [Hpc ->]%get_class_Returned & H)%bind_Returned.
  destruct (isPolymorphic pc); [|by injection H as _ <-].
  apply bind_Returned in H as ([] & w2 & (c & Hc & [= ->])%modify_class_Returned & H).
  destruct b.
  apply (registry_inv_register busy w this c q v fuel w'); [done|done| |done|eauto| |done].
  - intros Hin. specialize (Hrk q q Hq Hin). lia.
  - by exists schema.
Qed.

Lemma implementInterfaceForParentSchema_inv fuel this busy :
  forall p, (forall s, s ∈ busy -> rk p < rk s) ->
    preserves (registry_inv E busy)
      (implementInterfaceForParentSchema E resolve0 fuel this p).
Proof.
  induction fuel as [|fuel IH]; intros p Hrk; [intros w a w' _ [=]|].
  simpl.
  apply preserves_bind; [by apply resolve0_inv|].
  intros td. apply preserves_bind; [apply preserves_get_class|].
  intros me. apply preserves_bind; [apply preserves_get_interface|].
  intros mine. apply preserves_bind; [apply preserves_find_interface|].
  intros pif. destruct (truthy_number _); [apply preserves_ret|].
  apply preserves_bind; [apply preserves_modify_interface|].
  intros _. apply preserves_bind; [apply preserves_get_class|].
  intros pc. apply preserves_bind; [apply preserves_get_class|].
  intros me2. apply preserves_bind; [apply preserves_lift|].
  intros fieldName. apply preserves_bind; [by apply preserves_modify_regview|].
  intros _. apply preserves_bind; [by apply preserves_modify_regview|].
  intros _. apply preserves_bind; [apply preserves_get_interface|].
  intros pi. apply preserves_bind; [apply preserves_get_allProperties|].
  intros inherited. apply preserves_bind; [apply preserves_lift|].
  intros parent. apply preserves_bind.
  { apply preserves_modify_regview. intros c.
    destruct (addInheritedProperties_own_step E (inheritedDescription pi parent)
                inherited c) as [_ Hd].
    unfold regview. f_equal.
    - generalize inherited. intros ps. revert c Hd.
      induction ps as [|each ps IHps]; intros c _; [done|].
      change (addInheritedProperties E (inheritedDescription pi parent) (each :: ps) c)
        with (addInheritedProperties E (inheritedDescription pi parent) ps
                (addInheritedProperty E (inheritedDescription pi parent) each c)).
      rewrite IHps; [|apply addInheritedProperties_own_step].
      unfold addInheritedProperty. by case_decide.
    - apply map_eq. intros u. generalize inherited. intros ps. clear Hd. revert c.
      induction ps as [|each ps IHps]; intros c; [done|].
      change (addInheritedProperties E (inheritedDescription pi parent) (each :: ps) c)
        with (addInheritedProperties E (inheritedDescription pi parent) ps
                (addInheritedProperty E (inheritedDescription pi parent) each c)).
      rewrite IHps. unfold addInheritedProperty. by case_decide. }
  intros _. apply preserves_bind; [by apply preserves_modify_regview|].
  intros _. apply preserves_bind; [by apply preserves_modify_regview|].
  intros _. apply preserves_forM_. intros each _. by apply IH.
Qed.

Lemma regview_ModelClass_epilogue schema c :
  regview (ModelClass_epilogue E schema c) = regview c.
Proof.
  unfold ModelClass_epilogue.
  assert (H1 : forall x, regview (implementSerializers E x) = regview x).
  { intros x. unfold implementSerializers.
    by destruct (jsonSerialization (project E)), (existsb _ _), (xmlSerialization (project E)). }
  assert (H2 : forall x, regview (implementReadHeaders E x) = regview x).
  { intros x. unfold implementReadHeaders. by destruct (hasHeaderProperties x). }
  assert (H3 : forall x, regview (implementValidation E x) = regview x).
  { intros x. unfold implementValidation.
    by destruct (storagePipeline (project E)), (bool_decide _). }
  assert (H4 : forall x, regview (implementAdditionalProperties schema x) = regview x).
  { intros x. unfold implementAdditionalProperties.
    by destruct (additionalProperties schema) as [|[]|]. }
  rewrite H1, H2, H3, H4.
  change (regview (set_validationStatements []
                     (set_fields [] (addProperties E (properties schema) c))) =
          regview (set_validationStatements [] (set_fields [] c))).
  by rewrite addProperties_others.
Qed.

Lemma ModelClass_constructor_inv fuel this schema busy w w' :
  schemas E !! this = Some schema ->
  classImplementation w !! this = None ->
  (forall s, s ∈ busy -> rk this < rk s) ->
  registry_inv E busy w ->
  ModelClass_constructor E resolve0 fuel this schema w = Returned (tt, w') ->
  registry_inv E busy w'.
Proof.
  intros Hs Hfresh Hrk HI. unfold ModelClass_constructor.
  destruct (ModelClass_prologue_Returned E this schema w) as (w1 & Hpro & Hw1).
  rewrite (bind_Returned_2 _ _ _ _ _ Hpro).
  set (busy' := busy ∪ {[this]}).
  assert (Hthis : this ∈ busy').
  { unfold busy'. rewrite elem_of_union, elem_of_singleton. by right. }
  assert (Hrk' : forall q s, q ∈ allOf schema -> s ∈ busy' -> rk q < rk s).
  { intros q s Hq. unfold busy'. rewrite elem_of_union, elem_of_singleton.
    pose proof (graph_acyclic this schema q Hs Hq).
    intros [Hin| ->]; [|done]. specialize (Hrk s Hin). lia. }
  assert (HI1 : registry_inv E busy' w1).
  { eapply registry_inv_same;
      [|apply (registry_inv_fresh busy w this (prologueClass E this schema) Hfresh); [|done]].
    - intros i. simpl. by rewrite Hw1.
    - unfold prologueClass. by destruct (discriminator schema). }
  intros H.
  assert (registry_inv E busy' w') as HI'.
  { assert (Hrest : preserves (registry_inv E busy')
              (registerWithParents resolve0 fuel this schema ;;;
               modify_class this addDefaultConstructor ;;;
               forM_ (allOf schema) (fun parentSchema =>
                 implementInterfaceForParentSchema E resolve0 fuel this parentSchema) ;;;
               modify_class this (ModelClass_epilogue E schema)));
      [|exact (Hrest w1 tt w' HI1 H)].
    apply preserves_bind; [by apply registerWithParents_inv|].
    intros _. apply preserves_bind; [by apply preserves_modify_regview|].
    intros _. apply preserves_bind.
    - apply preserves_forM_. intros p Hp.
      apply implementInterfaceForParentSchema_inv. intros s. by apply Hrk'.
    - intros _. apply preserves_modify_regview. apply regview_ModelClass_epilogue. }
  eapply registry_inv_weaken; [|exact HI']. unfold busy'. apply union_subseteq_l.
Qed.

End Resolver.

Lemma resolve_inv fuel :
  forall q busy, (forall s, s ∈ busy -> rk q < rk s) ->
    preserves (registry_inv E busy) (resolve E fuel q).
Proof.
  induction fuel as [|fuel IH]; intros q busy Hrk w r w' HI H;
    apply resolve_Returned in H as (schema & Hs & _ & [[_ ->]|[Hfresh Hnew]]);
    try done.
  rewrite (ModelClass_new_unfold _ _ _ _ Hs) in Hnew.
  by eapply (ModelClass_constructor_inv (resolve E fuel) IH).
Qed.

Lemma registry_inv_empty : registry_inv E ∅ emptyWorld.
Proof.
  split.
  - intros x p (c & Hc & _). simpl in Hc. by rewrite lookup_empty in Hc.
  - intros d p a v _ (c & Hc & _). simpl in Hc. by rewrite lookup_empty in Hc.
Qed.

(** After a build pass over an acyclic schema graph the registry is
    complete. *)
Lemma build_registry_complete fuel roots w :
  build E fuel roots emptyWorld = Returned (tt, w) -> registry_complete E w.
Proof.
  intros H. cut (registry_inv E ∅ w); [by intros []|].
  assert (Hbuild : preserves (registry_inv E ∅) (build E fuel roots));
    [|exact (Hbuild emptyWorld tt w registry_inv_empty H)].
  apply preserves_forM_. intros s _. apply preserves_bind.
  - apply resolve_inv. intros s' Hs'. by apply elem_of_empty in Hs'.
  - intros _. apply preserves_ret.
Qed.

End Registry.

(** Checks of [acyclic] and of the uniqueness of a literal that can be
    computed on a given schema graph. *)
Lemma acyclic_check E rk :
  map_Forall (fun s sch => Forall (fun p => rk p < rk s) (allOf sch)) (schemas E) ->
  acyclic E rk.
Proof.
  intros H s sch p Hs Hp. specialize (H s sch Hs). rewrite Forall_forall in H. by apply H.
Qed.

Lemma declares_unique_check E v D :
  map_Forall (fun d sch => truthy_string (x_ms_discriminator_value sch) = Some v -> d = D)
             (schemas E) ->
  forall d, declares E d v -> d = D.
Proof. intros H d (sch & Hs & Hv). by apply (H d sch Hs). Qed.

(** * Further properties of the code *)

(** ** Private names of fields *)

Lemma field_named_elem_of fs nm : field_named fs nm = true <-> nm ∈ fieldNames fs.
Proof.
  unfold field_named, fieldNames. rewrite existsb_exists, list_elem_of_fmap.
  split.
  - intros (f & Hf & Hnm). apply bool_decide_eq_true in Hnm.
    exists f. split; [done|]. by apply list_elem_of_In.
  - intros (f & -> & Hf). exists f. split; [by apply list_elem_of_In|].
    by apply bool_decide_eq_true.
Qed.

Lemma getPrivateNameForField_scan fs baseName :
  getPrivateNameForField fs baseName =
  match List.find (fun nm => negb (field_named fs nm)) (candidates baseName) with
  | Some nm => Returned nm
  | None => exhausted baseName
  end.
Proof.
  unfold getPrivateNameForField, candidates.
  apply (getPrivateNameForField_loop_scan fs baseName 99 0). done.
Qed.

Lemma getPrivateNameForField_Returned fs baseName nm :
  getPrivateNameForField fs baseName = Returned nm ->
  (nm ∉ fieldNames fs) /\ nm ∈ candidates baseName.
Proof.
  rewrite getPrivateNameForField_scan.
  destruct (List.find _ _) as [nm'|] eqn:Hfind; [|discriminate].
  intros [= ->]. apply find_some in Hfind as [Hin Hfree].
  split; [|by apply list_elem_of_In].
  rewrite <- field_named_elem_of. by destruct (field_named fs nm).
Qed.

(** X1. The name returned is borne by no field of the class, so the name asked
    for after a field of that name was added is another one: two fields
    named through [getPrivateNameForField] never share their name. *)
Theorem getPrivateNameForField_fresh fs baseName nm f baseName' nm' :
  getPrivateNameForField fs baseName = Returned nm ->
  field_name f = nm ->
  getPrivateNameForField (fs ++ [f]) baseName' = Returned nm' ->
  (nm ∉ fieldNames fs) /\ (nm' ∉ fieldNames fs) /\ nm' <> nm.
Proof.
  intros [Hfresh _]%getPrivateNameForField_Returned Hf
         [Hfresh' _]%getPrivateNameForField_Returned.
  unfold fieldNames in Hfresh'. rewrite map_app, not_elem_of_app in Hfresh'.
  destruct Hfresh' as [H1 H2]. split; [done|]. split; [done|].
  simpl in H2. rewrite Hf in H2. intros ->. apply H2. left.
Qed.

Lemma getPrivateNameForField_fresh_witness :
  ("_Base" ∉ fieldNames []) /\ ("_Base0" ∉ fieldNames []) /\ "_Base0" <> "_Base".
Proof.
  apply (getPrivateNameForField_fresh [] "_Base" "_Base"
           (privateField "_Base" (DeclarationOf 0) "Base" "") "_Base" "_Base0");
    reflexivity.
Defined.

(** X2. The scan never runs out of the model's fuel, and it throws only when the
    class has a hundred fields or more: with fewer fields one of the hundred
    names is free. *)
Theorem getPrivateNameForField_throws_only_when_crowded fs baseName :
  getPrivateNameForField fs baseName <> Diverged /\
  (forall e, getPrivateNameForField fs baseName = Thrown e -> 100 <= length fs) /\
  (length fs < 100 -> exists nm, getPrivateNameForField fs baseName = Returned nm).
Proof.
  assert (Hthrown : forall e, getPrivateNameForField fs baseName = Thrown e ->
                              100 <= length fs).
  { intros e. rewrite getPrivateNameForField_scan.
    destruct (List.find _ _) as [nm|] eqn:Hfind; [discriminate|]. intros _.
    assert (Hall : forall nm, nm ∈ candidates baseName -> nm ∈ fieldNames fs).
    { intros nm Hnm. apply field_named_elem_of.
      apply list_elem_of_In in Hnm.
      pose proof (find_none _ _ Hfind nm Hnm) as Hn. by apply negb_false_iff in Hn. }
    pose proof (NoDup_submseteq _ _ (candidates_NoDup baseName) Hall) as Hsub.
    apply submseteq_length in Hsub.
    unfold fieldNames in Hsub. rewrite length_map in Hsub.
    unfold candidates in Hsub. rewrite length_map, length_seq in Hsub. done. }
  split; [|split; [done|]].
  - rewrite getPrivateNameForField_scan. unfold exhausted. by destruct (List.find _ _).
  - intros Hlen. destruct (getPrivateNameForField fs baseName) as [nm|e|] eqn:Hrun.
    + by exists nm.
    + specialize (Hthrown e eq_refl). lia.
    + exfalso. revert Hrun. rewrite getPrivateNameForField_scan. unfold exhausted.
      by destruct (List.find _ _).
Qed.

Lemma getPrivateNameForField_throws_only_when_crowded_witness :
  exists nm,
    getPrivateNameForField [privateField "_Base" (DeclarationOf 0) "Base" ""] "_Base"
      = Returned nm.
Proof.
  apply (proj2 (proj2 (getPrivateNameForField_throws_only_when_crowded
                         [privateField "_Base" (DeclarationOf 0) "Base" ""] "_Base"))).
  simpl. lia.
Defined.

(** ** What a registration touches *)

Lemma register_in_id v D c :
  discriminators c !! v = Some D -> register_in v D c = c.
Proof. intros H. unfold register_in. rewrite insert_id by done. by destruct c. Qed.

Lemma registered_same_parents v D w w' : registered v D w w' -> same_parents w w'.
Proof.
  intros [_ H] i. specialize (H i).
  destruct H as [c c' [->| ->]|]; done.
Qed.

Lemma same_parents_sym w w' : same_parents w w' -> same_parents w' w.
Proof. intros H i. by rewrite H. Qed.

Lemma same_parents_trans w1 w2 w3 :
  same_parents w1 w2 -> same_parents w2 w3 -> same_parents w1 w3.
Proof. intros H12 H23 i. by rewrite H12. Qed.

(** A class that the call changes is reachable from the class it was called
    on. *)
Lemma addDiscriminator_touches fuel v D :
  forall P w w', addDiscriminator fuel P v D w = Returned (tt, w') ->
  forall i, classImplementation w' !! i = classImplementation w !! i \/
            rtc (parent_of w) P i.
Proof.
  induction fuel as [|fuel IH]; intros P w w' Hrun i; [discriminate|].
  apply addDiscriminator_unfold in Hrun as (c & Hc & Hloop).
  pose proof (registered_with_class v D w P c Hc) as Hr1.
  set (w1 := with_class P (register_in v D c) w) in *.
  assert (Hloop_spec : forall l w2 w3,
    forM_ l (fun each => addDiscriminator fuel each v D) w2 = Returned (tt, w3) ->
    classImplementation w3 !! i = classImplementation w2 !! i \/
    exists p, p ∈ l /\ rtc (parent_of w2) p i).
  { induction l as [|x l IHl]; intros w2 w3 Hl.
    - injection Hl as <-. by left.
    - simpl in Hl. apply bind_Returned in Hl as ([] & w2' & Hx & Hl).
      pose proof (addDiscriminator_registered _ _ _ _ _ _ _ Hx) as Hr.
      destruct (IHl _ _ Hl) as [Heq|(p & Hp & Hpi)].
      + destruct (IH _ _ _ Hx i) as [Heq'|Hxi].
        * left. congruence.
        * right. exists x. split; [left|done].
      + right. exists p. split; [by right|].
        by apply (registered_rtc _ _ _ _ _ _ Hr). }
  destruct (Hloop_spec _ _ _ Hloop) as [Heq|(p & Hp & Hpi)].
  - destruct (decide (i = P)) as [->|Hne]; [right; reflexivity|].
    left. rewrite Heq. unfold w1. simpl. by rewrite lookup_insert_ne.
  - right. eapply rtc_l; [by exists c|].
    by apply (registered_rtc _ _ _ _ _ _ Hr1).
Qed.

(** X3. A registration gives the entry to the class it is called on and to
    every class reachable from it through the recorded polymorphic-parent
    lists, and it changes nothing else: no other entry of these maps, no
    other member of these classes, no class that is not reachable, no
    interface. *)
Theorem addDiscriminator_exact fuel P v D w w' :
  addDiscriminator fuel P v D w = Returned (tt, w') ->
  interfaceImplementation w' = interfaceImplementation w /\
  forall i,
    (rtc (parent_of w) P i ->
       exists c, classImplementation w !! i = Some c /\
                 classImplementation w' !! i =
                   Some (set_discriminators (<[v := D]> (discriminators c)) c)) /\
    (~ rtc (parent_of w) P i ->
       classImplementation w' !! i = classImplementation w !! i).
Proof.
  intros Hrun. pose proof (addDiscriminator_registered _ _ _ _ _ _ _ Hrun) as Hr.
  split; [by destruct Hr|]. intros i. split.
  - intros Hi. destruct (addDiscriminator_reaches _ _ _ _ _ _ Hrun i Hi) as (c' & Hc' & Hv).
    destruct (registered_lookup_inv _ _ _ _ _ _ Hr Hc') as (c & Hc & Hcc).
    exists c. split; [done|]. rewrite Hc'. f_equal.
    destruct Hcc as [->| ->]; [|done]. symmetry. by apply register_in_id.
  - intros Hi. by destruct (addDiscriminator_touches _ _ _ _ _ _ Hrun i).
Qed.

Lemma addDiscriminator_exact_witness :
  interfaceImplementation (worldOf (addDiscriminator 5 1 "g" 2 chainParents))
    = interfaceImplementation chainParents /\
  forall i,
    (rtc (parent_of chainParents) 1 i ->
       exists c, classImplementation chainParents !! i = Some c /\
                 classImplementation (worldOf (addDiscriminator 5 1 "g" 2 chainParents)) !! i =
                   Some (set_discriminators (<["g" := 2]> (discriminators c)) c)) /\
    (~ rtc (parent_of chainParents) 1 i ->
       classImplementation (worldOf (addDiscriminator 5 1 "g" 2 chainParents)) !! i
       = classImplementation chainParents !! i).
Proof.
  apply (addDiscriminator_exact 5 1 "g" 2 chainParents). vm_compute. reflexivity.
Defined.

(** Whether a registration returns depends on the recorded polymorphic-parent
    lists only. *)
Lemma addDiscriminator_returns_same_parents fuel v D v0 D0 :
  forall P w w0 w',
    same_parents w w0 ->
    addDiscriminator fuel P v D w = Returned (tt, w') ->
    exists w0', addDiscriminator fuel P v0 D0 w0 = Returned (tt, w0').
Proof.
  induction fuel as [|fuel IH]; intros P w w0 w' Hsame Hrun; [discriminate|].
  apply addDiscriminator_unfold in Hrun as (c & Hc & Hloop).
  assert (exists c0, classImplementation w0 !! P = Some c0 /\
                     parentModelClasses c0 = parentModelClasses c) as (c0 & Hc0 & Hpar).
  { specialize (Hsame P). rewrite Hc in Hsame.
    destruct (classImplementation w0 !! P) as [c0|]; [|discriminate].
    exists c0. split; [done|]. by injection Hsame. }
  simpl. rewrite (bind_Returned_2 _ _ _ _ _ (modify_class_Some _ _ _ _ Hc0)).
  unfold bind at 1. unfold get_class at 1. simpl. rewrite lookup_insert_eq. simpl.
  rewrite Hpar.
  assert (Hsame1 : same_parents (with_class P (register_in v D c) w)
                     (with_class P (register_in v0 D0 c0) w0)).
  { intros i. simpl. destruct (decide (i = P)) as [->|Hne].
    - rewrite !lookup_insert_eq. simpl. by rewrite Hpar.
    - rewrite !lookup_insert_ne by done. apply Hsame. }
  assert (Hloop_spec : forall l w' w2 w02,
    forM_ l (fun each => addDiscriminator fuel each v D) w2 = Returned (tt, w') ->
    same_parents w2 w02 ->
    exists w0', forM_ l (fun each => addDiscriminator fuel each v0 D0) w02 = Returned (tt, w0')).
  { clear Hloop Hsame1. induction l as [|x l IHl]; intros w3 w2 w02 Hl Hs; simpl.
    - by eexists.
    - simpl in Hl. apply bind_Returned in Hl as ([] & w2' & Hx & Hl).
      destruct (IH x w2 w02 w2' Hs Hx) as (w02' & Hx0).
      rewrite (bind_Returned_2 _ _ _ _ _ Hx0).
      apply (IHl w3 w2' w02' Hl).
      pose proof (registered_same_parents _ _ _ _ (addDiscriminator_registered _ _ _ _ _ _ _ Hx)).
      pose proof (registered_same_parents _ _ _ _ (addDiscriminator_registered _ _ _ _ _ _ _ Hx0)).
      apply (same_parents_trans w2' w2 w02'); [by apply same_parents_sym|].
      by apply (same_parents_trans w2 w02 w02'). }
  apply (Hloop_spec _ _ _ _ Hloop Hsame1).
Qed.

(** X4. A registration is idempotent: made again, it returns and leaves the
    world as the first one left it. *)
Theorem addDiscriminator_idempotent fuel P v D w w1 :
  addDiscriminator fuel P v D w = Returned (tt, w1) ->
  addDiscriminator fuel P v D w1 = Returned (tt, w1).
Proof.
  intros Hrun. pose proof (addDiscriminator_registered _ _ _ _ _ _ _ Hrun) as Hr1.
  destruct (addDiscriminator_returns_same_parents fuel v D v D P w w1 w1
              (registered_same_parents _ _ _ _ Hr1) Hrun) as (w2 & Hrun2).
  rewrite Hrun2. do 2 f_equal.
  pose proof (addDiscriminator_registered _ _ _ _ _ _ _ Hrun2) as Hr2.
  destruct w1 as [cls1 ifs1], w2 as [cls2 ifs2]. f_equal.
  - apply map_eq. intros i.
    destruct (addDiscriminator_touches _ _ _ _ _ _ Hrun2 i) as [Heq|Hi]; [done|].
    apply (registered_rtc _ _ _ _ _ _ Hr1) in Hi.
    destruct (addDiscriminator_reaches _ _ _ _ _ _ Hrun i Hi) as (c1 & Hc1 & Hv).
    destruct (registered_lookup _ _ _ _ _ _ Hr2 Hc1) as (c2 & Hc2 & Hcc).
    simpl in *. rewrite Hc1, Hc2. f_equal.
    destruct Hcc as [->| ->]; [done|]. by apply register_in_id.
  - by destruct Hr2.
Qed.

Lemma addDiscriminator_idempotent_witness :
  addDiscriminator 5 1 "g" 2 (worldOf (addDiscriminator 5 1 "g" 2 chainParents))
  = Returned (tt, worldOf (addDiscriminator 5 1 "g" 2 chainParents)).
Proof.
  apply (addDiscriminator_idempotent 5 1 "g" 2 chainParents). vm_compute. reflexivity.
Defined.

Lemma registered_endless v D w w' C : registered v D w w' -> endless w C -> endless w' C.
Proof.
  intros Hr Hend a Ha. destruct (Hend a Ha) as (b & Hb & Hab).
  exists b. split; [done|]. by apply (registered_parent_of _ _ _ _ _ _ Hr).
Qed.

(** X5. Along recorded polymorphic-parent lists that do not end (a class that
    is its own ancestor), a registration never returns, whatever the depth
    allowed to the recursion. *)
Theorem addDiscriminator_endless fuel v D (C : SchemaId -> Prop) :
  forall P w r, endless w C -> C P -> addDiscriminator fuel P v D w <> Returned r.
Proof.
  induction fuel as [|fuel IH]; intros P w [[] w'] Hend HP Hrun; [discriminate|].
  apply addDiscriminator_unfold in Hrun as (c & Hc & Hloop).
  pose proof (registered_with_class v D w P c Hc) as Hr1.
  destruct (Hend P HP) as (b & Hb & (c' & Hc' & Hbin)).
  rewrite Hc in Hc'. injection Hc' as <-.
  assert (Hloop_spec : forall l w2 w3,
    forM_ l (fun each => addDiscriminator fuel each v D) w2 = Returned (tt, w3) ->
    endless w2 C -> forall x, x ∈ l ->
    exists w2a w2b, endless w2a C /\ addDiscriminator fuel x v D w2a = Returned (tt, w2b)).
  { induction l as [|y l IHl]; intros w2 w3 Hl Hend2 x Hx; [by apply elem_of_nil in Hx|].
    simpl in Hl. apply bind_Returned in Hl as ([] & w2' & Hy & Hl).
    apply elem_of_cons in Hx as [->|Hx]; [by exists w2, w2'|].
    apply (IHl w2' w3 Hl); [|done].
    eapply registered_endless; [|done]. by eapply addDiscriminator_registered. }
  destruct (Hloop_spec _ _ _ Hloop (registered_endless _ _ _ _ _ Hr1 Hend) b Hbin)
    as (w2a & w2b & Hend2 & Hrun2).
  by apply (IH b w2a (tt, w2b) Hend2 Hb).
Qed.

Lemma addDiscriminator_endless_witness :
  endless narcissusWorld (fun s => s = 0) /\
  forall r, addDiscriminator 1000 0 "self" 0 narcissusWorld <> Returned r.
Proof.
  assert (Hend : endless narcissusWorld (fun s => s = 0)).
  { intros a ->. exists 0. split; [done|].
    eexists. split; [vm_compute; reflexivity|]. apply list_elem_of_In. vm_compute. auto. }
  split; [exact Hend|]. intros r.
  apply (addDiscriminator_endless 1000 "self" 0 (fun s => s = 0)); [exact Hend|done].
Defined.

(** The build of the schema that is its own polymorphic parent does not
    return. *)
Example narcissus_build : build narcissusEnvironment 40 [0] emptyWorld = Diverged.
Proof. vm_compute. reflexivity. Qed.

(** ** The members of a built class *)

Lemma addProperty_layout E index property c :
  fields (addProperty E index property c)
    = fields c ++ [newModelField E (serializedNameOf (index, property)) property] /\
  validationStatements (addProperty E index property c)
    = validationStatements c ++
        [validatePresenceStatement E (serializedNameOf (index, property)) property;
         validationStatement E (serializedNameOf (index, property)) property].
Proof. unfold addProperty. cbn. by rewrite <- app_assoc. Qed.

(** The loop over the properties of the schema appends one field and two
    validation statements per property. *)
Lemma addProperties_layout E ps c :
  fields (addProperties E ps c)
    = fields c ++ map (fun kv => newModelField E (serializedNameOf kv) kv.2) ps /\
  validationStatements (addProperties E ps c)
    = validationStatements c ++
        flat_map (fun kv => [validatePresenceStatement E (serializedNameOf kv) kv.2;
                             validationStatement E (serializedNameOf kv) kv.2]) ps.
Proof.
  revert c. induction ps as [|[index property] ps IH]; intros c.
  - simpl. by rewrite !app_nil_r.
  - change (addProperties E ((index, property) :: ps) c)
      with (addProperties E ps (addProperty E index property c)).
    destruct (IH (addProperty E index property c)) as [-> ->].
    destruct (addProperty_layout E index property c) as [-> ->].
    simpl. by rewrite <- !app_assoc.
Qed.

Lemma core_implementAdditionalProperties schema c :
  core (implementAdditionalProperties schema c) = core c.
Proof. unfold implementAdditionalProperties. by destruct (additionalProperties schema) as [|[]|]. Qed.

Lemma core_implementValidation E c : core (implementValidation E c) = core c.
Proof.
  unfold implementValidation. by destruct (storagePipeline (project E)), (bool_decide _).
Qed.

Lemma core_implementReadHeaders E c : core (implementReadHeaders E c) = core c.
Proof. unfold implementReadHeaders. by destruct (hasHeaderProperties c). Qed.

Lemma core_implementSerializers E c : core (implementSerializers E c) = core c.
Proof.
  unfold implementSerializers.
  by destruct (jsonSerialization (project E)), (existsb _ _), (xmlSerialization (project E)).
Qed.

(** What the end of the constructor does to the members that are not
    interfaces, methods or flags. *)
Lemma core_ModelClass_epilogue E schema c :
  core (ModelClass_epilogue E schema c) =
  (name c, fullName c, modelInterface c, parentModelClasses c, discriminators c,
   fields c ++ ownFields E schema, backingFields c, class_properties c,
   validationStatements c ++ ownValidation E schema).
Proof.
  unfold ModelClass_epilogue.
  rewrite core_implementSerializers, core_implementReadHeaders, core_implementValidation,
    core_implementAdditionalProperties.
  destruct (addProperties_layout E (properties schema) c) as [Hf Hv].
  pose proof (addProperties_others E (properties schema) c) as Ho.
  unfold core, ownFields, ownValidation. rewrite Hf, Hv.
  assert (Hc : core (set_validationStatements [] (set_fields [] (addProperties E (properties schema) c)))
               = core (set_validationStatements [] (set_fields [] c))) by (by rewrite Ho).
  unfold core in Hc. cbn in Hc. by injection Hc as -> -> -> -> -> -> ->.
Qed.

Lemma flags_implementSerializers E c :
  jsonSerializer (implementSerializers E c)
    = (jsonSerialization (project E) || jsonSerializer c) /\
  xmlSerializer (implementSerializers E c)
    = (xmlSerialization (project E) && bool_decide (class_properties c <> [])
       || xmlSerializer c).
Proof.
  unfold implementSerializers.
  assert (Hany : existsb (fun p => negb (IsHeaderProperty p)) (class_properties c)
                 = bool_decide (class_properties c <> [])).
  { by destruct (class_properties c). }
  rewrite Hany.
  destruct (jsonSerialization (project E)), (bool_decide _),
    (xmlSerialization (project E)); cbn; by rewrite ?orb_true_r.
Qed.

Lemma flags_ModelClass_epilogue E schema c :
  jsonSerializer (ModelClass_epilogue E schema c)
    = (jsonSerialization (project E) || jsonSerializer c) /\
  xmlSerializer (ModelClass_epilogue E schema c)
    = (xmlSerialization (project E) && bool_decide (class_properties c <> [])
       || xmlSerializer c).
Proof.
  unfold ModelClass_epilogue.
  set (c1 := addProperties E (properties schema) c).
  set (c2 := implementAdditionalProperties schema c1).
  set (c3 := implementValidation E c2).
  set (c4 := implementReadHeaders E c3).
  destruct (flags_implementSerializers E c4) as [-> ->].
  assert (H4 : (jsonSerializer c4, xmlSerializer c4, class_properties c4)
               = (jsonSerializer c3, xmlSerializer c3, class_properties c3)).
  { unfold c4, implementReadHeaders. by destruct (hasHeaderProperties c3). }
  assert (H3 : (jsonSerializer c3, xmlSerializer c3, class_properties c3)
               = (jsonSerializer c2, xmlSerializer c2, class_properties c2)).
  { unfold c3, implementValidation.
    by destruct (storagePipeline (project E)), (bool_decide _). }
  assert (H2 : (jsonSerializer c2, xmlSerializer c2, class_properties c2)
               = (jsonSerializer c1, xmlSerializer c1, class_properties c1)).
  { unfold c2, implementAdditionalProperties. by destruct (additionalProperties schema) as [|[]|]. }
  assert (H1 : (jsonSerializer c1, xmlSerializer c1, class_properties c1)
               = (jsonSerializer c, xmlSerializer c, class_properties c)).
  { pose proof (addProperties_others E (properties schema) c) as Ho. fold c1 in Ho.
    change ((jsonSerializer (set_validationStatements [] (set_fields [] c1)),
             xmlSerializer (set_validationStatements [] (set_fields [] c1)),
             class_properties (set_validationStatements [] (set_fields [] c1)))
            = (jsonSerializer (set_validationStatements [] (set_fields [] c)),
               xmlSerializer (set_validationStatements [] (set_fields [] c)),
               class_properties (set_validationStatements [] (set_fields [] c)))).
    by rewrite Ho. }
  injection H4 as -> -> ->. injection H3 as -> -> ->. injection H2 as -> -> ->.
  injection H1 as -> -> ->. done.
Qed.

(** No virtual property is a header property: a ReadHeaders method reads
    no header. *)
Lemma readHeadersOf_stub E c : readHeadersOf E c = readHeadersStub.
Proof.
  unfold readHeadersOf, readHeadersStub. f_equal.
  induction (class_properties c) as [|p ps IH]; [done|].
  rewrite filter_cons. by destruct (decide _).
Qed.

(** X6. The interfaces and the methods of a built class whose schema does
    not leave its additional properties unconstrained, in their order: the
    interface of the schema, IValidates; the default constructor, Validate,
    ReadHeaders.  The class has no other interface and no other method. *)
Theorem built_class_members E fuel this schema w w' :
  schemas E !! this = Some schema ->
  additionalProperties schema <> APBoolean true ->
  ModelClass_new E fuel this w = Returned (tt, w') ->
  exists c,
    classImplementation w' !! this = Some c /\
    name c = csharp_name schema /\ modelInterface c = this /\
    interfaces c =
      ModelInterfaceOf this ::
        match validateMethod c with Some _ => [IValidates] | None => [] end /\
    methods c =
      defaultConstructorOf schema ::
        match validateMethod c with Some m => [m] | None => [] end ++
        (if hasHeaderProperties c then [readHeadersStub] else []).
Proof.
  intros Hschema Hadditional (schema' & c & Hs & Hshape & Hc)%ModelClass_new_Returned.
  rewrite Hschema in Hs. injection Hs as <-.
  exists (ModelClass_epilogue E schema c). split; [done|].
  destruct (ModelClass_epilogue_spec E schema c) as (_ & Hh & _ & _ & Hi & Hvm & Hm).
  pose proof (core_ModelClass_epilogue E schema c) as Hcore.
  unfold core in Hcore. injection Hcore as Hn _ Hmi _ _ _ _ _ _.
  unfold shape in Hshape.
  injection Hshape as Hn0 _ _ Hmi0 Hi0 Hm0 Hv0 _ _ _.
  change (name (addDefaultConstructor (prologueClass E this schema)))
    with (name (prologueClass E this schema)) in Hn0.
  change (modelInterface (addDefaultConstructor (prologueClass E this schema)))
    with (modelInterface (prologueClass E this schema)) in Hmi0.
  change (interfaces (addDefaultConstructor (prologueClass E this schema)))
    with (interfaces (prologueClass E this schema)) in Hi0.
  change (validateMethod (addDefaultConstructor (prologueClass E this schema)))
    with (validateMethod (prologueClass E this schema)) in Hv0.
  destruct (prologueClass_shape E this schema) as (_ & _ & Hpi & Hpm & Hpv).
  assert (Hpn : name (prologueClass E this schema) = csharp_name schema
                /\ modelInterface (prologueClass E this schema) = this).
  { unfold prologueClass. by destruct (discriminator schema). }
  destruct Hpn as [Hpn Hpmi].
  unfold addDefaultConstructor in Hm0. cbn [methods set_methods] in Hm0.
  rewrite Hpm, Hpn in Hm0.
  rewrite Hn, Hn0, Hpn, Hmi, Hmi0, Hpmi, Hi, Hm, Hvm, Hh, Hi0, Hpi, Hm0, Hv0.
  rewrite Hpv, readHeadersOf_stub.
  unfold dictionaryOf. rewrite decide_False by done.
  repeat split; by destruct (validationWanted E _).
Qed.

Lemma built_class_members_witness :
  exists c,
    classImplementation
      (worldOf (ModelClass_new (checkedEnvironment defaultProject) 5 0 emptyWorld)) !! 0
      = Some c /\
    name c = "Checked" /\ modelInterface c = 0 /\
    interfaces c =
      ModelInterfaceOf 0 ::
        match validateMethod c with Some _ => [IValidates] | None => [] end /\
    methods c =
      defaultConstructorOf (objectSchema "Checked" [("id", requiredProperty)] [] None None
                              APUndefined) ::
        match validateMethod c with Some m => [m] | None => [] end ++
        (if hasHeaderProperties c then [readHeadersStub] else []).
Proof.
  apply (built_class_members (checkedEnvironment defaultProject) 5 0
           (objectSchema "Checked" [("id", requiredProperty)] [] None None APUndefined)
           emptyWorld).
  - reflexivity.
  - discriminate.
  - vm_compute. reflexivity.
Defined.

(** X7. The class gets a ReadHeaders method exactly when a property of its
    own schema is a header property, and the method reads no header: no
    property of a class is known as a header property, and the body of the
    method is the return statement alone. *)
Theorem ReadHeaders_reads_nothing E fuel this w w' :
  ModelClass_new E fuel this w = Returned (tt, w') ->
  exists schema c,
    schemas E !! this = Some schema /\ classImplementation w' !! this = Some c /\
    (readHeadersStub ∈ methods c <->
       exists index property,
         (index, property) ∈ properties schema /\ headerProperty property = Some Header) /\
    (forall m, m ∈ methods c -> method_access m = Internal -> m = readHeadersStub).
Proof.
  intros (schema & c & Hs & Hshape & Hc)%ModelClass_new_Returned.
  exists schema, (ModelClass_epilogue E schema c). split; [done|]. split; [done|].
  destruct (ModelClass_epilogue_spec E schema c) as (_ & _ & _ & _ & _ & _ & Hm).
  apply shape_inv in Hshape as (_ & _ & _ & Hm0 & _ & Hh0).
  change (hasHeaderProperties (addDefaultConstructor (prologueClass E this schema)))
    with (hasHeaderProperties (prologueClass E this schema)) in Hh0.
  destruct (prologueClass_shape E this schema) as (_ & Hph & _ & Hpm & _).
  unfold addDefaultConstructor in Hm0. cbn [methods set_methods] in Hm0.
  rewrite Hpm in Hm0. rewrite Hph in Hh0.
  rewrite Hm, Hm0, Hh0, readHeadersOf_stub.
  assert (Hex : existsb (fun kv => isHeaderProperty kv.2) (properties schema) = true <->
                exists index property,
                  (index, property) ∈ properties schema /\
                  headerProperty property = Some Header).
  { rewrite existsb_exists. split.
    - intros ([index property] & Hin & Hhp). exists index, property.
      split; [by apply list_elem_of_In|].
      unfold isHeaderProperty in Hhp. simpl in Hhp.
      apply orb_true_iff in Hhp as [Hhp|Hhp]; by apply bool_decide_eq_true in Hhp.
    - intros (index & property & Hin & Hhp). exists (index, property).
      split; [by apply list_elem_of_In|].
      unfold isHeaderProperty. simpl. by rewrite bool_decide_eq_true_2. }
  split.
  - rewrite <- Hex. destruct (existsb _ _).
    + split; [done|]. intros _. rewrite !elem_of_app, !elem_of_cons. tauto.
    + split; [|done]. rewrite app_nil_r. unfold validateOf, readHeadersStub.
      destruct (validationWanted E _);
        rewrite !elem_of_app, !elem_of_cons, !elem_of_nil;
        intros Hin; decompose [or] Hin; try done; discriminate.
  - intros m Hin Hacc. unfold validateOf in Hin.
    destruct (validationWanted E _), (existsb _ _);
      rewrite !elem_of_app, !elem_of_cons, !elem_of_nil in Hin;
      decompose [or] Hin; subst; try done; discriminate.
Qed.

Lemma ReadHeaders_reads_nothing_witness :
  exists schema c,
    schemas headersEnvironment !! 0 = Some schema /\
    classImplementation (worldOf (ModelClass_new headersEnvironment 5 0 emptyWorld)) !! 0
      = Some c /\
    (readHeadersStub ∈ methods c <->
       exists index property,
         (index, property) ∈ properties schema /\ headerProperty property = Some Header) /\
    (forall m, m ∈ methods c -> method_access m = Internal -> m = readHeadersStub).
Proof.
  apply (ReadHeaders_reads_nothing headersEnvironment 5 0 emptyWorld).
  vm_compute. reflexivity.
Defined.

(** X8. The class gets its JSON serializer exactly when the project
    serializes to JSON, and its XML serializer exactly when the project
    serializes to XML and the class has a virtual property: the properties of
    the schema itself, which are fields of the class, do not count. *)
Theorem serializers_of_built_class E fuel this w w' :
  ModelClass_new E fuel this w = Returned (tt, w') ->
  exists c, classImplementation w' !! this = Some c /\
    jsonSerializer c = jsonSerialization (project E) /\
    xmlSerializer c = (xmlSerialization (project E) && bool_decide (class_properties c <> [])).
Proof.
  intros (schema & c & Hs & Hshape & Hc)%ModelClass_new_Returned.
  exists (ModelClass_epilogue E schema c). split; [done|].
  destruct (flags_ModelClass_epilogue E schema c) as [-> ->].
  pose proof (core_ModelClass_epilogue E schema c) as Hcore.
  unfold core in Hcore. injection Hcore as _ _ _ _ _ _ _ -> _.
  unfold shape in Hshape. injection Hshape as _ _ _ _ _ _ _ _ -> ->.
  assert (Hp : jsonSerializer (prologueClass E this schema) = false
               /\ xmlSerializer (prologueClass E this schema) = false).
  { unfold prologueClass. by destruct (discriminator schema). }
  destruct Hp as [-> ->]. by rewrite !orb_false_r.
Qed.

Lemma serializers_of_built_class_witness :
  exists c,
    classImplementation
      (worldOf (ModelClass_new (checkedEnvironment xmlProject) 5 0 emptyWorld)) !! 0 = Some c /\
    jsonSerializer c = jsonSerialization (project (checkedEnvironment xmlProject)) /\
    xmlSerializer c =
      (xmlSerialization (project (checkedEnvironment xmlProject))
       && bool_decide (class_properties c <> [])).
Proof.
  apply (serializers_of_built_class (checkedEnvironment xmlProject) 5 0 emptyWorld).
  vm_compute. reflexivity.
Defined.

(** A schema with a property of its own gets no XML serializer in a project
    that serializes to XML. *)
Example own_properties_without_xmlSerializer :
  (length <$> (fields <$>
     classOf (worldOf (build (checkedEnvironment xmlProject) 5 [0] emptyWorld)) 0)) = Some 1 /\
  (xmlSerializer <$>
     classOf (worldOf (build (checkedEnvironment xmlProject) 5 [0] emptyWorld)) 0) = Some false.
Proof. split; vm_compute; reflexivity. Qed.

(** ** Fields and validation statements of a built class *)

Lemma other_step_core E c c' :
  other_step E c c' ->
  (name c', fullName c', modelInterface c', parentModelClasses c', fields c',
   backingFields c', class_properties c', validationStatements c', isPolymorphic c',
   xmlSerializer c')
  = (name c, fullName c, modelInterface c, parentModelClasses c, fields c,
     backingFields c, class_properties c, validationStatements c, isPolymorphic c,
     xmlSerializer c).
Proof.
  intros [H _].
  change ((name (set_discriminators ∅ c'), fullName (set_discriminators ∅ c'),
           modelInterface (set_discriminators ∅ c'),
           parentModelClasses (set_discriminators ∅ c'), fields (set_discriminators ∅ c'),
           backingFields (set_discriminators ∅ c'),
           class_properties (set_discriminators ∅ c'),
           validationStatements (set_discriminators ∅ c'),
           isPolymorphic (set_discriminators ∅ c'), xmlSerializer (set_discriminators ∅ c'))
          = (name (set_discriminators ∅ c), fullName (set_discriminators ∅ c),
             modelInterface (set_discriminators ∅ c),
             parentModelClasses (set_discriminators ∅ c), fields (set_discriminators ∅ c),
             backingFields (set_discriminators ∅ c),
             class_properties (set_discriminators ∅ c),
             validationStatements (set_discriminators ∅ c),
             isPolymorphic (set_discriminators ∅ c), xmlSerializer (set_discriminators ∅ c))).
  by rewrite H.
Qed.

Lemma other_step_layout E c c' : other_step E c c' -> layout E c -> layout E c'.
Proof.
  intros Hstep (Hf & Hv & Hn & Hb). apply other_step_core in Hstep.
  injection Hstep as _ _ _ _ Hf' Hb' _ Hv' _ _. unfold layout.
  by rewrite Hf', Hb', Hv'.
Qed.

Lemma preserves_at_class_evolves {A} E this (m : M A) :
  respects (evolves E) m -> preserves (at_class this (layout E)) m.
Proof.
  intros Hm w a w' (c & Hc & HL) H.
  destruct (evolves_lookup E w w' this c (Hm w a w' H) Hc) as (c' & Hc' & Hstep).
  exists c'. split; [done|]. by eapply other_step_layout.
Qed.

Lemma preserves_at_class_modify this P s f :
  (forall c, P c -> P (f c)) -> preserves (at_class this P) (modify_class s f).
Proof.
  intros Hf w [] w' (c & Hc & HP) (c0 & Hc0 & [= ->])%modify_class_Returned.
  unfold at_class. simpl. destruct (decide (this = s)) as [->|Hne].
  - rewrite lookup_insert_eq. rewrite Hc in Hc0. injection Hc0 as <-. eauto.
  - rewrite lookup_insert_ne by done. eauto.
Qed.

Lemma preserves_at_class_modify_interface this P s f :
  preserves (at_class this P) (modify_interface s f).
Proof. by intros w [] w' HP (i & Hi & [= ->])%modify_interface_Returned. Qed.

Lemma preserves_at_class_addDiscriminator this P fuel q v D :
  (forall c, P c -> P (register_in v D c)) ->
  preserves (at_class this P) (addDiscriminator fuel q v D).
Proof.
  intros HP w [] w' (c & Hc & Hc') H.
  apply addDiscriminator_registered in H.
  destruct (registered_lookup _ _ _ _ _ _ H Hc) as (c1 & Hc1 & [->| ->]);
    exists c1 || (eexists; split; [done|]); eauto.
Qed.

(** The loop over the properties of the parent interface touches the
    virtual properties only. *)
Lemma addInheritedProperties_core E description ps c :
  (fields (addInheritedProperties E description ps c),
   backingFields (addInheritedProperties E description ps c),
   validationStatements (addInheritedProperties E description ps c),
   modelInterface (addInheritedProperties E description ps c),
   xmlSerializer (addInheritedProperties E description ps c))
  = (fields c, backingFields c, validationStatements c, modelInterface c, xmlSerializer c).
Proof.
  revert c. induction ps as [|each ps IH]; intros c; [done|].
  change (addInheritedProperties E description (each :: ps) c)
    with (addInheritedProperties E description ps (addInheritedProperty E description each c)).
  rewrite IH. unfold addInheritedProperty. by case_decide.
Qed.

Section Layout.
Context (E : Environment) (this : SchemaId).
Context (resolve0 : SchemaId -> M TypeDeclaration).
Hypothesis resolve0_evolves : forall p, respects (evolves E) (resolve0 p).

Lemma registerWithParents_layout fuel schema :
  preserves (at_class this (layout E)) (registerWithParents resolve0 fuel this schema).
Proof.
  unfold registerWithParents.
  destruct (truthy_string _) as [v|]; [|apply preserves_ret].
  apply preserves_forM_. intros q _.
  apply preserves_bind; [by apply preserves_at_class_evolves|].
  intros _. apply preserves_bind; [apply preserves_get_class|].
  intros pc. destruct (isPolymorphic pc); [|apply preserves_ret].
  apply preserves_bind; [by apply preserves_at_class_modify|].
  intros _. by apply preserves_at_class_addDiscriminator.
Qed.

(** One more backing entry under a private name keeps the layout. *)
Lemma layout_flattened c td nm cls description vps :
  layout E c ->
  getPrivateNameForField (fields c) (backingFieldBaseName E cls) = Returned nm ->
  let backingField := privateField nm td cls description in
  layout E
    (set_validationStatements
       ((validationStatements c ++ [validatePresence E td nm]) ++ [validateValue E td nm])
       (set_class_properties vps
          (set_backingFields
             (backingFields c ++
                [{| className := cls; typeDeclaration := td; field := backingField |}])
             (set_fields (fields c ++ [backingField]) c)))).
Proof.
  intros (Hf & Hv & Hn & Hb) Hnm backingField. unfold layout. cbn.
  rewrite map_app, Hf, Hv. split; [done|]. split; [|split].
  - unfold inheritedValidation. rewrite flat_map_app. cbn. by rewrite <- app_assoc.
  - rewrite <- Hf. unfold fieldNames. rewrite map_app. cbn.
    apply NoDup_app. split; [done|]. split; [|apply NoDup_singleton].
    intros x Hx ->%list_elem_of_singleton.
    by destruct (getPrivateNameForField_Returned _ _ _ Hnm).
  - apply Forall_app. split; [done|]. by apply Forall_singleton.
Qed.

Lemma implementInterfaceForParentSchema_layout fuel :
  forall p, preserves (at_class this (layout E))
              (implementInterfaceForParentSchema E resolve0 fuel this p).
Proof.
  induction fuel as [|fuel IH]; intros p; [intros w a w' _ [=]|].
  intros w [] w' HL H. simpl in H.
  apply bind_Returned in H as (td & w1 & Hres & H).
  apply (preserves_at_class_evolves E this _ (resolve0_evolves p) _ _ _ HL) in Hres as HL1.
  apply bind_Returned in H as (me & ? & [Hme ->]%get_class_Returned & H).
  apply bind_Returned in H as (mine & ? & [Hmine ->]%get_interface_Returned & H).
  apply bind_Returned in H as (pif & ? & Hpif & H).
  unfold find_interface in Hpif. injection Hpif as <- <-.
  destruct (truthy_number _); [by injection H as <-|].
  apply bind_Returned in H as ([] & ? & (i & Hi & [= ->])%modify_interface_Returned & H).
  apply bind_Returned in H as (pc & ? & [Hpc ->]%get_class_Returned & H).
  apply bind_Returned in H as (me2 & ? & [Hme2 ->]%get_class_Returned & H).
  simpl in Hme2. rewrite Hme in Hme2. injection Hme2 as <-.
  apply bind_Returned in H as (nm & ? & [Hnm ->]%lift_Returned & H).
  apply bind_Returned in H as ([] & ? & (c1 & Hc1 & [= ->])%modify_class_Returned & H).
  simpl in Hc1. rewrite Hme in Hc1. injection Hc1 as <-.
  apply bind_Returned in H as ([] & ? & (c2 & Hc2 & [= ->])%modify_class_Returned & H).
  simpl in Hc2. rewrite lookup_insert_eq in Hc2. injection Hc2 as <-.
  apply bind_Returned in H as (pi & ? & [Hpi ->]%get_interface_Returned & H).
  apply bind_Returned in H as (inherited & ? & [= _ <-] & H).
  apply bind_Returned in H as (parent & ? & [Hparent ->]%lift_Returned & H).
  apply bind_Returned in H as ([] & ? & (c3 & Hc3 & [= ->])%modify_class_Returned & H).
  simpl in Hc3. rewrite lookup_insert_eq in Hc3. injection Hc3 as <-.
  apply bind_Returned in H as ([] & ? & (c4 & Hc4 & [= ->])%modify_class_Returned & H).
  simpl in Hc4. rewrite lookup_insert_eq in Hc4. injection Hc4 as <-.
  apply bind_Returned in H as ([] & ? & (c5 & Hc5 & [= ->])%modify_class_Returned & H).
  simpl in Hc5. rewrite lookup_insert_eq in Hc5. injection Hc5 as <-.
  revert H. apply preserves_forM_; [intros each _; apply IH|].
  destruct HL1 as (c & Hc & HLc). rewrite Hme in Hc. injection Hc as <-.
  eexists. split; [simpl; apply lookup_insert_eq|].
  pose proof (layout_flattened me td nm (fullName pc) (backingFieldDescription E me)
                (class_properties
                   (addInheritedProperties E (inheritedDescription pi parent) inherited
                      (set_backingFields
                         (backingFields me ++
                            [{| className := fullName pc; typeDeclaration := td;
                                field := privateField nm td (fullName pc)
                                           (backingFieldDescription E me) |}])
                         (set_fields
                            (fields me ++
                               [privateField nm td (fullName pc)
                                  (backingFieldDescription E me)]) me))))
                HLc Hnm) as HL'.
  cbv zeta in HL'. unfold layout in HL' |- *. cbn in HL' |- *.
  set (c2 := set_backingFields _ _) in *.
  pose proof (addInheritedProperties_core E (inheritedDescription pi parent)
                inherited c2) as Hcore.
  injection Hcore as -> -> -> _ _. exact HL'.
Qed.

(** The constructor that returns leaves the epilogue of a class with the
    layout of the loops over [allOf]. *)
Lemma ModelClass_constructor_layout fuel schema w w' :
  ModelClass_constructor E resolve0 fuel this schema w = Returned (tt, w') ->
  exists c, classImplementation w' !! this = Some (ModelClass_epilogue E schema c) /\
            layout E c.
Proof.
  unfold ModelClass_constructor.
  destruct (ModelClass_prologue_Returned E this schema w) as (w1 & Hpro & Hw1).
  rewrite (bind_Returned_2 _ _ _ _ _ Hpro).
  intros ([] & w2 & Hreg & H)%bind_Returned.
  apply bind_Returned in H as ([] & w3 & Hctor & H).
  apply bind_Returned in H as ([] & w4 & Hflat & H).
  apply modify_class_Returned in H as (c4 & Hc4 & [= ->]).
  assert (HL1 : at_class this (layout E) w1).
  { exists (prologueClass E this schema). rewrite Hw1, lookup_insert_eq. split; [done|].
    unfold prologueClass, layout.
    destruct (discriminator schema); cbn; repeat split; constructor. }
  apply (registerWithParents_layout _ _ _ _ _ HL1) in Hreg as HL2.
  apply (preserves_at_class_modify this (layout E) this addDefaultConstructor) in Hctor as HL3;
    [|done|done].
  assert (HL4 : at_class this (layout E) w4).
  { revert Hflat. apply preserves_forM_; [|done].
    intros p _. apply implementInterfaceForParentSchema_layout. }
  destruct HL4 as (c & Hc & HL). rewrite Hc4 in Hc. injection Hc as <-.
  exists c4. split; [|done]. simpl. apply lookup_insert_eq.
Qed.

End Layout.

(** X9. The fields of a built class are the fields of its backing entries,
    in the order of the entries, followed by one field per property of the
    schema; the validation statements are a presence check and a value check
    per backing field, followed by those of the properties of the schema.
    The backing fields are private fields of the type of the parent, created
    with a new instance of its class, and no two of them share a name. *)
Theorem built_class_layout E fuel this w w' :
  ModelClass_new E fuel this w = Returned (tt, w') ->
  exists schema c,
    schemas E !! this = Some schema /\ classImplementation w' !! this = Some c /\
    fields c = map field (backingFields c) ++ ownFields E schema /\
    validationStatements c
      = inheritedValidation E (backingFields c) ++ ownValidation E schema /\
    NoDup (backingFieldNames c) /\
    Forall backingEntry (backingFields c).
Proof.
  destruct fuel as [|fuel]; [discriminate|].
  destruct (schemas E !! this) as [schema|] eqn:Hs; [|simpl; by rewrite Hs].
  rewrite (ModelClass_new_unfold _ _ _ _ Hs). intros H.
  apply (ModelClass_constructor_layout E this _ (resolve_evolves E fuel)) in H
    as (c & Hc & Hf & Hv & Hn & Hb).
  exists schema, (ModelClass_epilogue E schema c). split; [done|]. split; [done|].
  pose proof (core_ModelClass_epilogue E schema c) as Hcore.
  unfold core in Hcore. injection Hcore as _ _ _ _ _ Hf' Hb' _ Hv'.
  unfold backingFieldNames. rewrite Hf', Hb', Hv', Hf, Hv.
  repeat split; [|done].
  rewrite Hf in Hn. unfold fieldNames in Hn. by rewrite map_map in Hn.
Qed.

Lemma built_class_layout_witness :
  exists schema c,
    schemas twiceEnvironment !! 1 = Some schema /\
    classImplementation
      (worldOf (ModelClass_new twiceEnvironment 5 1 (seeded 1 0 "IDerived"))) !! 1 = Some c /\
    fields c = map field (backingFields c) ++ ownFields twiceEnvironment schema /\
    validationStatements c
      = inheritedValidation twiceEnvironment (backingFields c)
        ++ ownValidation twiceEnvironment schema /\
    NoDup (backingFieldNames c) /\
    Forall backingEntry (backingFields c).
Proof.
  apply (built_class_layout twiceEnvironment 5 1 (seeded 1 0 "IDerived")).
  vm_compute. reflexivity.
Defined.

(** ** A build from scratch *)

Lemma indexOf_zero_head {A} `{EqDecision A} (l : list A) (x : A) :
  indexOf l x = 0%Z -> head l = Some x.
Proof.
  destruct l as [|y l]; simpl; [discriminate|].
  destruct (decide (y = x)) as [->|_]; [done|].
  destruct (decide (indexOf l x = (-1)%Z)); [discriminate|lia].
Qed.

(** The prologue always returns, and the world that it leaves. *)
Lemma ModelClass_prologue_world E this schema w :
  exists w1, ModelClass_prologue E this schema w = Returned (tt, w1) /\
    classImplementation w1 = <[this := prologueClass E this schema]> (classImplementation w) /\
    interfaceImplementation w1 =
      match interfaceImplementation w !! this with
      | Some _ => interfaceImplementation w
      | None => <[this := newModelInterface E this schema]> (interfaceImplementation w)
      end.
Proof.
  unfold ModelClass_prologue, prologueClass.
  set (w0 := match interfaceImplementation w !! this with
             | Some _ => w
             | None => with_interface this (newModelInterface E this schema) w
             end).
  assert (Hcls : classImplementation w0 = classImplementation w).
  { unfold w0. by destruct (interfaceImplementation w !! this). }
  assert (Hifs : interfaceImplementation w0 =
                 match interfaceImplementation w !! this with
                 | Some _ => interfaceImplementation w
                 | None => <[this := newModelInterface E this schema]> (interfaceImplementation w)
                 end).
  { unfold w0. by destruct (interfaceImplementation w !! this). }
  unfold bind at 1. unfold put_class at 1.
  change (Build_World _ _) with (with_class this (emptyClass E this schema) w).
  unfold bind at 1. rewrite modify_class_with_class.
  unfold bind at 1. unfold find_interface at 1. simpl interfaceImplementation.
  match goal with |- context [with_class this ?c w] =>
    assert (Hi : (match interfaceImplementation w !! this with
                  | Some _ => ret tt
                  | None => put_interface this (newModelInterface E this schema)
                  end) (with_class this c w) = Returned (tt, with_class this c w0)) end.
  { unfold w0. by destruct (interfaceImplementation w !! this). }
  unfold bind at 1. rewrite Hi.
  unfold bind at 1. rewrite modify_class_with_class.
  destruct (discriminator schema).
  - rewrite modify_class_with_class. eexists. split; [done|]. simpl. by rewrite Hcls.
  - eexists. split; [done|]. simpl. by rewrite Hcls.
Qed.

Lemma preserves_pristine_modify E s f :
  (forall c, modelInterface (f c) = modelInterface c) ->
  (forall c, unflattened c -> unflattened (f c)) ->
  preserves (pristine E) (modify_class s f).
Proof.
  intros Hmi Hf w [] w' [Hifs Hcls] (c & Hc & [= ->])%modify_class_Returned.
  split; [done|]. intros i ci. simpl.
  destruct (decide (i = s)) as [->|Hne].
  - rewrite lookup_insert_eq. intros [= <-].
    destruct (Hcls s c Hc) as (Hm & Hu & Hi).
    split; [by rewrite Hmi|]. split; [by apply Hf|done].
  - rewrite lookup_insert_ne by done. apply Hcls.
Qed.

Lemma preserves_pristine_addDiscriminator E fuel q v D :
  preserves (pristine E) (addDiscriminator fuel q v D).
Proof.
  intros w [] w' [Hifs Hcls] H. apply addDiscriminator_registered in H.
  pose proof H as [Heq _]. split.
  - rewrite Heq. exact Hifs.
  - intros s c' Hc'. rewrite Heq.
    destruct (registered_lookup_inv _ _ _ _ _ _ H Hc') as (c & Hc & [->| ->]);
      by destruct (Hcls s c Hc) as (? & ? & ?).
Qed.

Lemma unflattened_ModelClass_epilogue E schema c :
  unflattened c -> unflattened (ModelClass_epilogue E schema c).
Proof.
  intros (Hb & Hp & Hx).
  pose proof (core_ModelClass_epilogue E schema c) as Hcore.
  unfold core in Hcore. injection Hcore as _ _ _ _ _ _ Hb' Hp' _.
  destruct (flags_ModelClass_epilogue E schema c) as [_ Hx'].
  unfold unflattened. rewrite Hb', Hp', Hx', Hb, Hp, Hx.
  rewrite bool_decide_eq_false_2 by (by intros []). by rewrite andb_false_r.
Qed.

(** The prologue publishes an unflattened class and, where there is none,
    a new interface. *)
Lemma ModelClass_prologue_pristine E this schema :
  schemas E !! this = Some schema ->
  preserves (pristine E) (ModelClass_prologue E this schema).
Proof.
  intros Hs w [] w' [Hifs Hcls] H.
  destruct (ModelClass_prologue_world E this schema w) as (w1 & Hpro & Hc1 & Hi1).
  rewrite Hpro in H. injection H as <-.
  assert (Hkeep : forall s, is_Some (interfaceImplementation w !! s) ->
                            is_Some (interfaceImplementation w1 !! s)).
  { intros s Hsome. rewrite Hi1.
    destruct (interfaceImplementation w !! this); [done|].
    apply lookup_insert_is_Some. destruct (decide (this = s)); auto. }
  split.
  - intros s i. rewrite Hi1.
    destruct (interfaceImplementation w !! this) eqn:Hthis; [apply Hifs|].
    destruct (decide (s = this)) as [->|Hne].
    + rewrite lookup_insert_eq. intros [= <-]. by exists schema.
    + rewrite lookup_insert_ne by done. apply Hifs.
  - intros s c. rewrite Hc1. destruct (decide (s = this)) as [->|Hne].
    + rewrite lookup_insert_eq. intros [= <-].
      split; [|split].
      * unfold prologueClass. by destruct (discriminator schema).
      * unfold prologueClass, unflattened. by destruct (discriminator schema).
      * rewrite Hi1. destruct (interfaceImplementation w !! this) eqn:Hthis; [by rewrite Hthis|].
        rewrite lookup_insert_eq. eauto.
    + rewrite lookup_insert_ne by done. intros Hc.
      destruct (Hcls s c Hc) as (? & ? & ?). auto.
Qed.

Section Pristine.
Context (E : Environment).
Hypothesis newModelInterface_head : forall s sch p,
  head (mi_interfaces (newModelInterface E s sch)) <> Some (ModelInterfaceOf p).
Context (resolve0 : SchemaId -> M TypeDeclaration).
Hypothesis resolve0_pristine : forall p, preserves (pristine E) (resolve0 p).

Lemma registerWithParents_pristine fuel this schema :
  preserves (pristine E) (registerWithParents resolve0 fuel this schema).
Proof.
  unfold registerWithParents.
  destruct (truthy_string _) as [v|]; [|apply preserves_ret].
  apply preserves_forM_. intros q _.
  apply preserves_bind; [apply resolve0_pristine|].
  intros _. apply preserves_bind; [apply preserves_get_class|].
  intros pc. destruct (isPolymorphic pc); [|apply preserves_ret].
  apply preserves_bind; [by apply preserves_pristine_modify|].
  intros _. apply preserves_pristine_addDiscriminator.
Qed.

(** In a pristine world the call does what resolving the parent does, and
    nothing more: its test sends every parent away. *)
Lemma implementInterfaceForParentSchema_pristine fuel this p w w' :
  pristine E w ->
  implementInterfaceForParentSchema E resolve0 fuel this p w = Returned (tt, w') ->
  pristine E w' /\ exists td, resolve0 p w = Returned (td, w').
Proof.
  destruct fuel as [|fuel]; [discriminate|]. intros HP H. simpl in H.
  apply bind_Returned in H as (td & w1 & Hres & H).
  pose proof (resolve0_pristine p _ _ _ HP Hres) as [Hifs Hcls].
  apply bind_Returned in H as (me & ? & [Hme ->]%get_class_Returned & H).
  apply bind_Returned in H as (mine & ? & [Hmine ->]%get_interface_Returned & H).
  apply bind_Returned in H as (pif & ? & Hpif & H).
  unfold find_interface in Hpif. injection Hpif as <- <-.
  destruct (Hcls this me Hme) as (Hmi & _). rewrite Hmi in Hmine.
  destruct (Hifs this mine Hmine) as (sch & Hsch & ->).
  assert (Hguard : truthy_number
            match interfaceImplementation w1 !! p with
            | Some _ => indexOf (mi_interfaces (newModelInterface E this sch)) (ModelInterfaceOf p)
            | None => (-1)%Z
            end = true).
  { unfold truthy_number. apply negb_true_iff, bool_decide_eq_false.
    destruct (interfaceImplementation w1 !! p); [|done].
    intros Hz%indexOf_zero_head. by apply newModelInterface_head in Hz. }
  rewrite Hguard in H. injection H as <-. split; [done|]. by exists td.
Qed.

Lemma ModelClass_constructor_pristine fuel this schema :
  schemas E !! this = Some schema ->
  preserves (pristine E) (ModelClass_constructor E resolve0 fuel this schema).
Proof.
  intros Hs. unfold ModelClass_constructor.
  apply preserves_bind; [by apply ModelClass_prologue_pristine|].
  intros _. apply preserves_bind; [apply registerWithParents_pristine|].
  intros _. apply preserves_bind; [by apply preserves_pristine_modify|].
  intros _. apply preserves_bind.
  - apply preserves_forM_. intros p _ w2 [] w3 HP2 H2.
    by destruct (implementInterfaceForParentSchema_pristine _ _ _ _ _ HP2 H2).
  - intros _. apply preserves_pristine_modify.
    + intros c. pose proof (core_ModelClass_epilogue E schema c) as Hcore.
      unfold core in Hcore. by injection Hcore.
    + apply unflattened_ModelClass_epilogue.
Qed.

End Pristine.

Lemma resolve_pristine E fuel :
  (forall s sch p, head (mi_interfaces (newModelInterface E s sch)) <> Some (ModelInterfaceOf p)) ->
  forall q, preserves (pristine E) (resolve E fuel q).
Proof.
  intros Hnew. induction fuel as [|fuel IH]; intros q w r w' HP H;
    apply resolve_Returned in H as (schema & Hs & _ & [[_ ->]|[Hfresh Hnewc]]);
    try done.
  rewrite (ModelClass_new_unfold _ _ _ _ Hs) in Hnewc.
  by eapply (ModelClass_constructor_pristine E Hnew (resolve E fuel) IH).
Qed.

(** X10. A build that starts with nothing built flattens nothing, whatever
    the schema graph, provided that the constructor of a model interface does
    not list a model interface first: no class gets a backing entry or a
    virtual property, hence none gets an XML serializer, and every interface
    stays as its constructor left it. *)
Theorem build_from_scratch_flattens_nothing E fuel roots w :
  (forall s sch p, head (mi_interfaces (newModelInterface E s sch)) <> Some (ModelInterfaceOf p)) ->
  build E fuel roots emptyWorld = Returned (tt, w) ->
  (forall s c, classImplementation w !! s = Some c ->
     backingFields c = [] /\ class_properties c = [] /\ xmlSerializer c = false) /\
  (forall s i, interfaceImplementation w !! s = Some i ->
     exists sch, schemas E !! s = Some sch /\ i = newModelInterface E s sch).
Proof.
  intros Hnew H.
  assert (HP : pristine E w).
  { assert (Hbuild : preserves (pristine E) (build E fuel roots)).
    { apply preserves_forM_. intros s _. apply preserves_bind.
      - by apply resolve_pristine.
      - intros _. apply preserves_ret. }
    apply (Hbuild emptyWorld tt w); [|done].
    split; intros s x; simpl; by rewrite lookup_empty. }
  destruct HP as [Hifs Hcls]. split; [|done].
  intros s c Hc. by destruct (Hcls s c Hc) as (_ & ? & _).
Qed.

Lemma build_from_scratch_flattens_nothing_witness :
  (forall s c,
     classImplementation (worldOf (build lineageEnvironment 5 [2] emptyWorld)) !! s = Some c ->
     backingFields c = [] /\ class_properties c = [] /\ xmlSerializer c = false) /\
  (forall s i,
     interfaceImplementation (worldOf (build lineageEnvironment 5 [2] emptyWorld)) !! s = Some i ->
     exists sch, schemas lineageEnvironment !! s = Some sch /\
                 i = newModelInterface lineageEnvironment s sch).
Proof.
  apply (build_from_scratch_flattens_nothing lineageEnvironment 5 [2]).
  - intros s sch p. simpl. discriminate.
  - vm_compute. reflexivity.
Defined.

(** ** Soundness of the registry of discriminators *)

Lemma parents_grow_tc w w' a b :
  parents_grow w w' -> tc (parent_of w) a b -> tc (parent_of w') a b.
Proof.
  intros Hg. induction 1 as [x y Hxy|x y z Hxy _ IH].
  - apply tc_once. by apply Hg.
  - eapply tc_l; [|exact IH]. by apply Hg.
Qed.

Lemma registered_parents_grow v D w w' : registered v D w w' -> parents_grow w w'.
Proof. intros Hr a b. by apply (registered_parent_of _ _ _ _ _ _ Hr). Qed.

Lemma addInheritedProperties_polyview E description ps c :
  polyview (addInheritedProperties E description ps c) = polyview c.
Proof.
  revert c. induction ps as [|each ps IH]; intros c; [done|].
  change (addInheritedProperties E description (each :: ps) c)
    with (addInheritedProperties E description ps (addInheritedProperty E description each c)).
  rewrite IH. unfold addInheritedProperty. by case_decide.
Qed.

Lemma polyview_ModelClass_epilogue E schema c :
  polyview (ModelClass_epilogue E schema c) = polyview c.
Proof.
  pose proof (core_ModelClass_epilogue E schema c) as Hcore.
  unfold core in Hcore. injection Hcore as _ _ _ Hp Hd _ _ _ _.
  destruct (ModelClass_epilogue_spec E schema c) as (Hi & _).
  unfold polyview. by rewrite Hp, Hd, Hi.
Qed.

Section Sound.
Context (E : Environment).

(** A change of a class that the registry does not read. *)
Lemma registry_sound_with_class s c c' w :
  classImplementation w !! s = Some c -> polyview c' = polyview c ->
  registry_sound E w -> registry_sound E (with_class s c' w).
Proof.
  intros Hc Hview (H1 & H2 & H3). unfold polyview in Hview.
  injection Hview as Hpoly Hpar Hdis.
  assert (Hlook : forall i ci, classImplementation (with_class s c' w) !! i = Some ci ->
            exists ci0, classImplementation w !! i = Some ci0 /\ polyview ci = polyview ci0).
  { intros i ci. simpl. destruct (decide (i = s)) as [->|Hne].
    - rewrite lookup_insert_eq. intros [= <-]. exists c. split; [done|].
      unfold polyview. by rewrite Hpoly, Hpar, Hdis.
    - rewrite lookup_insert_ne by done. eauto. }
  assert (Hlook' : forall i ci0, classImplementation w !! i = Some ci0 ->
            exists ci, classImplementation (with_class s c' w) !! i = Some ci /\
                       polyview ci = polyview ci0).
  { intros i ci0. simpl. destruct (decide (i = s)) as [->|Hne].
    - rewrite lookup_insert_eq, Hc. intros [= <-]. exists c'. split; [done|].
      unfold polyview. by rewrite Hpoly, Hpar, Hdis.
    - rewrite lookup_insert_ne by done. eauto. }
  assert (Hpo : forall a b, parent_of (with_class s c' w) a b <-> parent_of w a b).
  { intros a b. split.
    - intros (ca & Hca & Hb). destruct (Hlook a ca Hca) as (ca0 & Hca0 & [= _ Hp _]).
      exists ca0. split; [done|]. by rewrite <- Hp.
    - intros (ca0 & Hca0 & Hb). destruct (Hlook' a ca0 Hca0) as (ca & Hca & [= _ Hp _]).
      exists ca. split; [done|]. by rewrite Hp. }
  split; [|split].
  - intros a ca Hca. destruct (Hlook a ca Hca) as (ca0 & Hca0 & [= Hp _ _]).
    rewrite Hp. by apply H1.
  - intros a p Hap%Hpo. destruct (H2 a p Hap) as [Hsch (pc & Hpc & Hpp)].
    split; [done|]. destruct (Hlook' p pc Hpc) as (pc' & Hpc' & [= Hp _ _]).
    exists pc'. split; [done|]. by rewrite Hp.
  - intros a v d (ca & Hca & Hv). destruct (Hlook a ca Hca) as (ca0 & Hca0 & [= _ _ Hd]).
    destruct (H3 a v d) as [Hdec Htc]; [exists ca0; split; [done|]; by rewrite <- Hd|].
    split; [done|]. eapply parents_grow_tc; [|exact Htc]. intros x y. apply Hpo.
Qed.

Lemma preserves_sound_modify s f :
  (forall c, polyview (f c) = polyview c) ->
  preserves (registry_sound E) (modify_class s f).
Proof.
  intros Hf w [] w' HS (c & Hc & [= ->])%modify_class_Returned.
  by apply registry_sound_with_class with c.
Qed.

Lemma preserves_sound_modify_interface s f :
  preserves (registry_sound E) (modify_interface s f).
Proof. by intros w [] w' HS (i & Hi & [= ->])%modify_interface_Returned. Qed.

(** A registration of a class that carries the literal, with a class to
    which its recorded parents lead. *)
Lemma addDiscriminator_sound fuel P v D w w' :
  declares E D v -> tc (parent_of w) D P -> registry_sound E w ->
  addDiscriminator fuel P v D w = Returned (tt, w') -> registry_sound E w'.
Proof.
  intros Hdec Htc (H1 & H2 & H3) Hrun.
  pose proof (addDiscriminator_registered _ _ _ _ _ _ _ Hrun) as Hr.
  pose proof (registered_parents_grow _ _ _ _ Hr) as Hg.
  split; [|split].
  - intros a c' Hc'.
    destruct (registered_lookup_inv _ _ _ _ _ _ Hr Hc') as (c & Hc & [->| ->]);
      by apply (H1 a c).
  - intros a p Hap. apply (registered_parent_of _ _ _ _ _ _ Hr) in Hap.
    destruct (H2 a p Hap) as [Hsch (pc & Hpc & Hpp)]. split; [done|].
    destruct (registered_lookup _ _ _ _ _ _ Hr Hpc) as (pc' & Hpc' & [->| ->]);
      (eexists; split; [exact Hpc'|exact Hpp]).
  - intros a u d (c' & Hc' & Hu).
    destruct (registered_lookup_inv _ _ _ _ _ _ Hr Hc') as (c & Hc & Hcc).
    assert (Hold : discriminators c !! u = Some d -> declares E d u /\ tc (parent_of w') d a).
    { intros Hcu. destruct (H3 a u d) as [? ?]; [by exists c|].
      split; [done|]. by eapply parents_grow_tc. }
    destruct Hcc as [->| ->]; [by apply Hold|].
    simpl in Hu. destruct (decide (u = v)) as [->|Hne].
    + rewrite lookup_insert_eq in Hu. injection Hu as <-.
      destruct (addDiscriminator_touches _ _ _ _ _ _ Hrun a) as [Heq|Hreach].
      * rewrite Hc', Hc in Heq. injection Heq as Heq.
        apply Hold. rewrite <- Heq. simpl. apply lookup_insert_eq.
      * split; [done|]. eapply parents_grow_tc; [done|]. by eapply tc_rtc_r.
    + rewrite lookup_insert_ne in Hu by done. by apply Hold.
Qed.

(** A class that was not there, published by the prologue. *)
Lemma registry_sound_fresh this schema w :
  schemas E !! this = Some schema -> classImplementation w !! this = None ->
  registry_sound E w -> registry_sound E (with_class this (prologueClass E this schema) w).
Proof.
  intros Hs Hfresh (H1 & H2 & H3).
  assert (Hview : polyview (prologueClass E this schema)
                  = (bool_decide (is_Some (discriminator schema)), [], ∅)).
  { unfold prologueClass. by destruct (discriminator schema) as [d|]. }
  unfold polyview in Hview. injection Hview as Hpoly Hpar Hdis.
  assert (Hpo : forall a b, parent_of (with_class this (prologueClass E this schema) w) a b
                            <-> parent_of w a b).
  { intros a b. unfold parent_of. simpl. destruct (decide (a = this)) as [->|Hne].
    - rewrite lookup_insert_eq, Hfresh. split.
      + intros (c & [= <-] & Hb). rewrite Hpar in Hb. by apply elem_of_nil in Hb.
      + by intros (c & [=] & _).
    - by rewrite lookup_insert_ne. }
  split; [|split].
  - intros a c. simpl. destruct (decide (a = this)) as [->|Hne].
    + rewrite lookup_insert_eq. intros [= <-]. by exists schema.
    + rewrite lookup_insert_ne by done. apply H1.
  - intros a p Hap%Hpo. destruct (H2 a p Hap) as [Hsch (pc & Hpc & Hpp)].
    split; [done|]. exists pc. split; [|done]. simpl.
    rewrite lookup_insert_ne; [done|]. intros <-. by rewrite Hfresh in Hpc.
  - intros a v d (c & Hc & Hv). simpl in Hc. destruct (decide (a = this)) as [->|Hne].
    + rewrite lookup_insert_eq in Hc. injection Hc as <-.
      rewrite Hdis in Hv. by rewrite lookup_empty in Hv.
    + rewrite lookup_insert_ne in Hc by done.
      destruct (H3 a v d) as [? Htc]; [by exists c|]. split; [done|].
      eapply parents_grow_tc; [|exact Htc]. intros x y. apply Hpo.
Qed.

(** One more recorded parent: a polymorphic class, a parent in the schema
    of a class that carries a literal. *)
Lemma registry_sound_push this schema c q pc w :
  schemas E !! this = Some schema -> q ∈ allOf schema ->
  is_Some (truthy_string (x_ms_discriminator_value schema)) ->
  classImplementation w !! this = Some c ->
  classImplementation w !! q = Some pc -> isPolymorphic pc = true ->
  registry_sound E w ->
  registry_sound E
    (with_class this (set_parentModelClasses (parentModelClasses c ++ [q]) c) w).
Proof.
  intros Hs Hq Hv Hc Hpc Hpoly (H1 & H2 & H3).
  set (c' := set_parentModelClasses (parentModelClasses c ++ [q]) c).
  assert (Hg : parents_grow w (with_class this c' w)).
  { intros a b (ca & Hca & Hb). unfold parent_of. simpl.
    destruct (decide (a = this)) as [->|Hne].
    - rewrite lookup_insert_eq. exists c'. split; [done|].
      rewrite Hc in Hca. injection Hca as <-. simpl. apply elem_of_app. by left.
    - rewrite lookup_insert_ne by done. by exists ca. }
  assert (Hlook : forall i ci, classImplementation w !! i = Some ci ->
            exists ci', classImplementation (with_class this c' w) !! i = Some ci' /\
                        isPolymorphic ci' = isPolymorphic ci).
  { intros i ci Hci. simpl. destruct (decide (i = this)) as [->|Hne].
    - rewrite lookup_insert_eq. exists c'. split; [done|].
      rewrite Hc in Hci. by injection Hci as <-.
    - rewrite lookup_insert_ne by done. by exists ci. }
  split; [|split].
  - intros a ca. simpl. destruct (decide (a = this)) as [->|Hne].
    + rewrite lookup_insert_eq. intros [= <-]. by apply (H1 this c).
    + rewrite lookup_insert_ne by done. apply H1.
  - intros a p (ca & Hca & Hp). simpl in Hca.
    assert (Hcase : parent_of w a p \/ (a = this /\ p = q)).
    { destruct (decide (a = this)) as [->|Hne].
      - rewrite lookup_insert_eq in Hca. injection Hca as <-. simpl in Hp.
        apply elem_of_app in Hp as [Hp|Hp%list_elem_of_singleton]; [|by right].
        left. by exists c.
      - rewrite lookup_insert_ne in Hca by done. left. by exists ca. }
    destruct Hcase as [Hap|[-> ->]].
    + destruct (H2 a p Hap) as [Hsch (pc0 & Hpc0 & Hpp)]. split; [done|].
      destruct (Hlook p pc0 Hpc0) as (pc' & Hpc' & Hi). exists pc'. by rewrite Hi.
    + split; [by exists schema|].
      destruct (Hlook q pc Hpc) as (pc' & Hpc' & Hi). exists pc'. by rewrite Hi.
  - intros a v d (ca & Hca & Hd). simpl in Hca.
    destruct (H3 a v d) as [Hdec Htc].
    { destruct (decide (a = this)) as [->|Hne].
      - rewrite lookup_insert_eq in Hca. injection Hca as <-. by exists c.
      - rewrite lookup_insert_ne in Hca by done. by exists ca. }
    split; [done|]. by eapply parents_grow_tc.
Qed.

Lemma ModelClass_prologue_sound this schema w w1 :
  schemas E !! this = Some schema -> classImplementation w !! this = None ->
  registry_sound E w ->
  ModelClass_prologue E this schema w = Returned (tt, w1) ->
  registry_sound E w1.
Proof.
  intros Hs Hfresh HS H.
  destruct (ModelClass_prologue_world E this schema w) as (w1' & Hpro & Hc1 & Hi1).
  rewrite Hpro in H. injection H as <-.
  destruct (registry_sound_fresh this schema w Hs Hfresh HS) as (H1 & H2 & H3).
  assert (Hpo : forall a b, parent_of w1' a b <->
                  parent_of (with_class this (prologueClass E this schema) w) a b).
  { intros a b. unfold parent_of. simpl. by rewrite Hc1. }
  split; [|split].
  - intros a c. rewrite Hc1. apply H1.
  - intros a p Hap%Hpo. destruct (H2 a p Hap) as [Hsch Hpc]. split; [done|].
    by rewrite Hc1.
  - intros a v d Hh. destruct (H3 a v d) as [Hdec Htc].
    { unfold holds in *. simpl. by rewrite <- Hc1. }
    split; [done|]. eapply parents_grow_tc; [|exact Htc]. intros x y. apply Hpo.
Qed.

Context (resolve0 : SchemaId -> M TypeDeclaration).
Hypothesis resolve0_sound : forall p, preserves (registry_sound E) (resolve0 p).

Lemma registerWithParents_sound fuel this schema :
  schemas E !! this = Some schema ->
  preserves (registry_sound E) (registerWithParents resolve0 fuel this schema).
Proof.
  intros Hs. unfold registerWithParents.
  destruct (truthy_string _) as [v|] eqn:Hv; [|apply preserves_ret].
  apply preserves_forM_. intros q Hq.
  apply preserves_bind; [apply resolve0_sound|].
  intros _ w [] w' HS (pc & ? & [Hpc ->]%get_class_Returned & H)%bind_Returned.
  destruct (isPolymorphic pc) eqn:Hpoly; [|by injection H as <-].
  apply bind_Returned in H as ([] & w2 & (c & Hc & [= ->])%modify_class_Returned & H).
  revert H. apply addDiscriminator_sound.
  - by exists schema.
  - apply tc_once. eexists. split; [simpl; apply lookup_insert_eq|].
    simpl. apply elem_of_app. right. by apply list_elem_of_singleton.
  - by apply (registry_sound_push this schema c q pc).
Qed.

Lemma implementInterfaceForParentSchema_sound fuel this :
  forall p, preserves (registry_sound E)
              (implementInterfaceForParentSchema E resolve0 fuel this p).
Proof.
  induction fuel as [|fuel IH]; intros p; [intros w a w' _ [=]|].
  simpl.
  apply preserves_bind; [apply resolve0_sound|].
  intros td. apply preserves_bind; [apply preserves_get_class|].
  intros me. apply preserves_bind; [apply preserves_get_interface|].
  intros mine. apply preserves_bind; [apply preserves_find_interface|].
  intros pif. destruct (truthy_number _); [apply preserves_ret|].
  apply preserves_bind; [apply preserves_sound_modify_interface|].
  intros _. apply preserves_bind; [apply preserves_get_class|].
  intros pc. apply preserves_bind; [apply preserves_get_class|].
  intros me2. apply preserves_bind; [apply preserves_lift|].
  intros fieldName. apply preserves_bind; [by apply preserves_sound_modify|].
  intros _. apply preserves_bind; [by apply preserves_sound_modify|].
  intros _. apply preserves_bind; [apply preserves_get_interface|].
  intros pi. apply preserves_bind; [apply preserves_get_allProperties|].
  intros inherited. apply preserves_bind; [apply preserves_lift|].
  intros parent. apply preserves_bind.
  { apply preserves_sound_modify. apply addInheritedProperties_polyview. }
  intros _. apply preserves_bind; [by apply preserves_sound_modify|].
  intros _. apply preserves_bind; [by apply preserves_sound_modify|].
  intros _. apply preserves_forM_. intros each _. apply IH.
Qed.

Lemma ModelClass_constructor_sound fuel this schema w w' :
  schemas E !! this = Some schema -> classImplementation w !! this = None ->
  registry_sound E w ->
  ModelClass_constructor E resolve0 fuel this schema w = Returned (tt, w') ->
  registry_sound E w'.
Proof.
  intros Hs Hfresh HS. unfold ModelClass_constructor.
  intros ([] & w1 & Hpro & H)%bind_Returned.
  pose proof (ModelClass_prologue_sound this schema w w1 Hs Hfresh HS Hpro) as HS1.
  assert (Hrest : preserves (registry_sound E)
            (registerWithParents resolve0 fuel this schema ;;;
             modify_class this addDefaultConstructor ;;;
             forM_ (allOf schema) (fun parentSchema =>
               implementInterfaceForParentSchema E resolve0 fuel this parentSchema) ;;;
             modify_class this (ModelClass_epilogue E schema)));
    [|exact (Hrest w1 tt w' HS1 H)].
  apply preserves_bind; [by apply registerWithParents_sound|].
  intros _. apply preserves_bind; [by apply preserves_sound_modify|].
  intros _. apply preserves_bind.
  - apply preserves_forM_. intros p _. apply implementInterfaceForParentSchema_sound.
  - intros _. apply preserves_sound_modify. apply polyview_ModelClass_epilogue.
Qed.

End Sound.

Lemma resolve_sound E fuel : forall q, preserves (registry_sound E) (resolve E fuel q).
Proof.
  induction fuel as [|fuel IH]; intros q w r w' HS H;
    apply resolve_Returned in H as (schema & Hs & _ & [[_ ->]|[Hfresh Hnew]]);
    try done.
  rewrite (ModelClass_new_unfold _ _ _ _ Hs) in Hnew.
  by eapply (ModelClass_constructor_sound E (resolve E fuel) IH).
Qed.

(** X11. After a build that starts with nothing built, the registry holds
    nothing that the schemas do not say, whatever the schema graph.  An entry
    of a discriminator map leads to a class whose schema carries the literal
    and from which recorded parents lead to the holder of the entry.  A
    recorded parent is a parent in the schema of a class that carries a
    literal, and its own schema has a discriminator property. *)
Theorem registry_sound_after_build E fuel roots w :
  build E fuel roots emptyWorld = Returned (tt, w) ->
  (forall a v d, holds w a v d -> declares E d v /\ tc (parent_of w) d a) /\
  (forall a p, parent_of w a p ->
     exists sa sp, schemas E !! a = Some sa /\ schemas E !! p = Some sp /\
       p ∈ allOf sa /\ is_Some (truthy_string (x_ms_discriminator_value sa)) /\
       is_Some (discriminator sp)).
Proof.
  intros H.
  assert (HS : registry_sound E w).
  { assert (Hbuild : preserves (registry_sound E) (build E fuel roots)).
    { apply preserves_forM_. intros s _. apply preserves_bind.
      - apply resolve_sound.
      - intros _. apply preserves_ret. }
    apply (Hbuild emptyWorld tt w); [|done].
    split; [|split].
    - intros a c. simpl. by rewrite lookup_empty.
    - intros a p (c & Hc & _). simpl in Hc. by rewrite lookup_empty in Hc.
    - intros a v d (c & Hc & _). simpl in Hc. by rewrite lookup_empty in Hc. }
  destruct HS as (H1 & H2 & H3). split; [done|].
  intros a p Hap. destruct (H2 a p Hap) as [(sa & Hsa & Hp & Hv) (pc & Hpc & Hpoly)].
  destruct (H1 p pc Hpc) as (sp & Hsp & Hpp).
  exists sa, sp. repeat split; try done.
  rewrite Hpoly in Hpp. symmetry in Hpp. by apply bool_decide_eq_true in Hpp.
Qed.

Lemma registry_sound_after_build_witness :
  (forall a v d,
     holds (worldOf (build chainEnvironment 5 [2] emptyWorld)) a v d ->
     declares chainEnvironment d v /\
     tc (parent_of (worldOf (build chainEnvironment 5 [2] emptyWorld))) d a) /\
  (forall a p,
     parent_of (worldOf (build chainEnvironment 5 [2] emptyWorld)) a p ->
     exists sa sp, schemas chainEnvironment !! a = Some sa /\
       schemas chainEnvironment !! p = Some sp /\
       p ∈ allOf sa /\ is_Some (truthy_string (x_ms_discriminator_value sa)) /\
       is_Some (discriminator sp)).
Proof.
  apply (registry_sound_after_build chainEnvironment 5 [2]). vm_compute. reflexivity.
Defined.

(** ** One pass of flattening *)

Lemma indexOf_head {A} `{EqDecision A} (l : list A) (x : A) :
  head l = Some x -> indexOf l x = 0%Z.
Proof. destruct l as [|y l]; [done|]. simpl. intros [= ->]. by rewrite decide_True. Qed.

(** The loop over the properties of the parent interface appends the
    proxies to the virtual properties of the class. *)
Lemma addInheritedProperties_set E description ps c :
  addInheritedProperties E description ps c =
  set_class_properties (class_properties c ++ map (proxyOf E description) ps) c.
Proof.
  revert c. induction ps as [|each ps IH]; intros c.
  - simpl. rewrite app_nil_r. by destruct c.
  - change (addInheritedProperties E description (each :: ps) c)
      with (addInheritedProperties E description ps (addInheritedProperty E description each c)).
    rewrite IH, addInheritedProperty_class_properties.
    rewrite <- app_assoc. unfold addInheritedProperty. by case_decide.
Qed.

Lemma implementInterfaceForParentSchema_resolves E res fuel this p w r :
  implementInterfaceForParentSchema E res fuel this p w = Returned r ->
  exists td w1, res p w = Returned (td, w1).
Proof.
  destruct fuel as [|fuel]; [discriminate|]. simpl.
  intros (td & w1 & Hres & _)%bind_Returned. eauto.
Qed.

(** A call that passes the test: the interface of the class lists the
    interface of the parent once more; the class gets its backing field, its
    backing entry, a proxy for each property that [allProperties] gives for
    the interface of the parent then, and its validation statements; and the
    call goes on with the parent again, once for each parent of the
    parent. *)
Lemma implementInterfaceForParentSchema_passes
    E res fuel this p w td w1 me mine parentInterface parent r :
  res p w = Returned (td, w1) ->
  classImplementation w1 !! this = Some me ->
  interfaceImplementation w1 !! modelInterface me = Some mine ->
  head (mi_interfaces mine) = Some (ModelInterfaceOf p) ->
  interfaceImplementation w1 !! p = Some parentInterface ->
  schemas E !! p = Some parent ->
  implementInterfaceForParentSchema E res (S fuel) this p w = Returned r ->
  exists parentClass nm,
    classImplementation w1 !! p = Some parentClass /\
    getPrivateNameForField (fields me) (backingFieldBaseName E (fullName parentClass))
      = Returned nm /\
    forM_ (allOf parent)
      (fun _ => implementInterfaceForParentSchema E res fuel this p)
      (with_class this
         (flattenedClass E me td nm (fullName parentClass) parentInterface parent
            (allProperties E (interfaceImplementation (pushed me mine p w1)) p))
         (pushed me mine p w1))
    = Returned r.
Proof.
  intros Hres Hme Hmine Hhead Hpi Hparent H. simpl in H.
  rewrite (bind_Returned_2 _ _ _ _ _ Hres) in H.
  apply bind_Returned in H as (me' & ? & [Hme' ->]%get_class_Returned & H).
  rewrite Hme in Hme'. injection Hme' as <-.
  apply bind_Returned in H as (mine' & ? & [Hmine' ->]%get_interface_Returned & H).
  rewrite Hmine in Hmine'. injection Hmine' as <-.
  apply bind_Returned in H as (pif & ? & Hpif & H).
  unfold find_interface in Hpif. injection Hpif as <- <-.
  rewrite Hpi, (indexOf_head _ _ Hhead) in H.
  change (truthy_number 0) with false in H. cbv iota in H.
  apply bind_Returned in H as ([] & ? & (i & Hi & [= ->])%modify_interface_Returned & H).
  rewrite Hmine in Hi. injection Hi as <-.
  apply bind_Returned in H as (pc & ? & [Hpc ->]%get_class_Returned & H).
  apply bind_Returned in H as (me2 & ? & [Hme2 ->]%get_class_Returned & H).
  simpl in Hpc, Hme2. rewrite Hme in Hme2. injection Hme2 as <-.
  apply bind_Returned in H as (nm & ? & [Hnm ->]%lift_Returned & H).
  apply bind_Returned in H as ([] & ? & (c1 & Hc1 & [= ->])%modify_class_Returned & H).
  simpl in Hc1. rewrite Hme in Hc1. injection Hc1 as <-.
  apply bind_Returned in H as ([] & ? & (c2 & Hc2 & [= ->])%modify_class_Returned & H).
  simpl in Hc2. rewrite lookup_insert_eq in Hc2. injection Hc2 as <-.
  apply bind_Returned in H as (pi' & ? & [Hpi' ->]%get_interface_Returned & H).
  apply bind_Returned in H as (inherited & ? & [= Hinherited <-] & H).
  apply bind_Returned in H as (parent' & ? & [Hparent' ->]%lift_Returned & H).
  rewrite Hparent in Hparent'. injection Hparent' as <-.
  apply bind_Returned in H as ([] & ? & (c3 & Hc3 & [= ->])%modify_class_Returned & H).
  simpl in Hc3. rewrite lookup_insert_eq in Hc3. injection Hc3 as <-.
  apply bind_Returned in H as ([] & ? & (c4 & Hc4 & [= ->])%modify_class_Returned & H).
  simpl in Hc4. rewrite lookup_insert_eq in Hc4. injection Hc4 as <-.
  apply bind_Returned in H as ([] & ? & (c5 & Hc5 & [= ->])%modify_class_Returned & H).
  simpl in Hc5. rewrite lookup_insert_eq in Hc5. injection Hc5 as <-.
  exists pc, nm. split; [done|]. split; [done|].
  rewrite !with_class_with_class in H.
  assert (Hname : mi_name pi' = mi_name parentInterface).
  { simpl in Hpi'. destruct (decide (p = modelInterface me)) as [Heq|Hne].
    - rewrite Heq, lookup_insert_eq in Hpi'. injection Hpi' as <-.
      rewrite Heq, Hmine in Hpi. by injection Hpi as <-.
    - rewrite lookup_insert_ne in Hpi' by done. rewrite Hpi in Hpi'. by injection Hpi' as <-. }
  rewrite addInheritedProperties_set in H.
  unfold inheritedDescription in H. rewrite Hname in H.
  match type of H with
  | forM_ _ _ (with_class _ ?c _) = _ =>
      assert (Hc : c = flattenedClass E me td nm (fullName pc) parentInterface parent
                         (allProperties E (interfaceImplementation (pushed me mine p w1)) p))
  end.
  { rewrite <- Hinherited.
    unfold flattenedClass, inheritedDescription, privateField, backingFieldDescription. cbn.
    by rewrite <- !app_assoc. }
  by rewrite Hc in H.
Qed.

Section Flattening.
Context (E : Environment) (fuel0 : nat) (this p : SchemaId) (parent : Schema).
Hypothesis parent_schema : schemas E !! p = Some parent.

Lemma resolve_stable w td w' :
  is_Some (classImplementation w !! p) ->
  resolve E fuel0 p w = Returned (td, w') -> w' = w.
Proof.
  intros [c Hc] (schema & _ & _ & [[_ ->]|[Hnone _]])%resolve_Returned; [done|].
  by rewrite Hc in Hnone.
Qed.

Lemma resolve_leaves_class w td w' :
  resolve E fuel0 p w = Returned (td, w') ->
  td = DeclarationOf p /\ is_Some (classImplementation w' !! p).
Proof.
  intros (schema & _ & -> & [[Hc ->]|[_ Hnew]])%resolve_Returned; [done|].
  split; [done|].
  apply ModelClass_new_Returned in Hnew as (? & c & _ & _ & Hc). eauto.
Qed.

(** The test lets the parent through in the world that the call leaves for
    the next one. *)
Lemma flattenedClass_admits w1 me mine td nm cls parentInterface inherited :
  classImplementation w1 !! this = Some me ->
  interfaceImplementation w1 !! modelInterface me = Some mine ->
  head (mi_interfaces mine) = Some (ModelInterfaceOf p) ->
  interfaceImplementation w1 !! p = Some parentInterface ->
  is_Some (classImplementation w1 !! p) ->
  let w8 := with_class this (flattenedClass E me td nm cls parentInterface parent inherited)
              (pushed me mine p w1) in
  is_Some (classImplementation w8 !! p) /\
  exists me8 mine8,
    classImplementation w8 !! this = Some me8 /\
    interfaceImplementation w8 !! modelInterface me8 = Some mine8 /\
    head (mi_interfaces mine8) = Some (ModelInterfaceOf p) /\
    is_Some (interfaceImplementation w8 !! p).
Proof.
  intros Hme Hmine Hhead Hpi Hpc w8. split.
  - unfold w8. simpl. destruct (decide (p = this)) as [->|Hne].
    + rewrite lookup_insert_eq. eauto.
    + by rewrite lookup_insert_ne.
  - eexists _, _. split; [unfold w8; simpl; apply lookup_insert_eq|].
    split; [unfold w8; simpl; apply lookup_insert_eq|]. split.
    + simpl. destruct (mi_interfaces mine); [discriminate|done].
    + unfold w8. simpl. destruct (decide (p = modelInterface me)) as [->|Hne].
      * rewrite lookup_insert_eq. eauto.
      * rewrite lookup_insert_ne by done. eauto.
Qed.

Lemma implementInterfaceForParentSchema_endless fuel :
  allOf parent <> [] ->
  forall w td w1 me mine parentInterface r,
    resolve E fuel0 p w = Returned (td, w1) ->
    classImplementation w1 !! this = Some me ->
    interfaceImplementation w1 !! modelInterface me = Some mine ->
    head (mi_interfaces mine) = Some (ModelInterfaceOf p) ->
    interfaceImplementation w1 !! p = Some parentInterface ->
    implementInterfaceForParentSchema E (resolve E fuel0) fuel this p w <> Returned r.
Proof.
  intros Hparents. induction fuel as [|fuel IH];
    intros w td w1 me mine parentInterface r Hres Hme Hmine Hhead Hpi H; [discriminate|].
  destruct (resolve_leaves_class _ _ _ Hres) as [_ Hpc].
  destruct (implementInterfaceForParentSchema_passes E _ fuel this p w td w1 me mine
              parentInterface parent r Hres Hme Hmine Hhead Hpi parent_schema H)
    as (pc & nm & Hpc' & Hnm & Hloop).
  destruct (flattenedClass_admits w1 me mine td nm (fullName pc) parentInterface
              (allProperties E (interfaceImplementation (pushed me mine p w1)) p)
              Hme Hmine Hhead Hpi Hpc)
    as (Hpc8 & me8 & mine8 & Hme8 & Hmine8 & Hhead8 & [pi8 Hpi8]).
  destruct (allOf parent) as [|x rest]; [done|].
  simpl in Hloop. apply bind_Returned in Hloop as ([] & w9 & Hcall & _).
  destruct (implementInterfaceForParentSchema_resolves _ _ _ _ _ _ _ Hcall)
    as (td8 & w8' & Hres8).
  pose proof (resolve_stable _ _ _ Hpc8 Hres8) as ->.
  by apply (IH _ td8 _ me8 mine8 pi8 (tt, w9) Hres8 Hme8 Hmine8 Hhead8 Hpi8).
Qed.

End Flattening.

(** X12. A call for a parent that has parents of its own never returns once
    its test lets the parent through.  The call that should handle the
    parents of the parent handles the parent again, whose interface is still
    listed first, and so on, until the private names are used up or the
    recursion is too deep. *)
Theorem flattening_a_parent_with_parents_never_returns
    E fuel0 fuel this p parent w td w1 me mine parentInterface :
  schemas E !! p = Some parent -> allOf parent <> [] ->
  resolve E fuel0 p w = Returned (td, w1) ->
  classImplementation w1 !! this = Some me ->
  interfaceImplementation w1 !! modelInterface me = Some mine ->
  head (mi_interfaces mine) = Some (ModelInterfaceOf p) ->
  interfaceImplementation w1 !! p = Some parentInterface ->
  forall r, implementInterfaceForParentSchema E (resolve E fuel0) fuel this p w <> Returned r.
Proof.
  intros Hparent Hparents Hres Hme Hmine Hhead Hpi r.
  by apply (implementInterfaceForParentSchema_endless E fuel0 this p parent Hparent fuel
              Hparents w td w1 me mine parentInterface r).
Qed.

Lemma flattening_a_parent_with_parents_never_returns_witness :
  resolve lineageEnvironment 5 1 halfBuilt = Returned (DeclarationOf 1, halfBuilt) /\
  forall r,
    implementInterfaceForParentSchema lineageEnvironment (resolve lineageEnvironment 5)
      200 2 1 halfBuilt <> Returned r.
Proof.
  split; [vm_compute; reflexivity|].
  apply (flattening_a_parent_with_parents_never_returns lineageEnvironment 5 200 2 1
           (objectSchema "Parent" [("parentName", plainProperty)] [0] None None APUndefined)
           halfBuilt (DeclarationOf 1) halfBuilt
           (prologueClass lineageEnvironment 2
              (objectSchema "Child" [] [1] None None APUndefined))
           {| mi_name := "IChild"; mi_interfaces := [ModelInterfaceOf 1];
              mi_properties := [] |}
           (sampleInterface 1
              (objectSchema "Parent" [("parentName", plainProperty)] [0] None None
                 APUndefined))).
  - reflexivity.
  - discriminate.
  - vm_compute. reflexivity.
  - vm_compute. reflexivity.
  - vm_compute. reflexivity.
  - reflexivity.
  - vm_compute. reflexivity.
Defined.

(** X13. A call that returns after its test let the parent through has
    flattened the parent once, and done nothing else.  The interface of the
    class lists the interface of the parent once more.  The class has one
    more private field, under the first name that is free, and the backing
    entry of this field; one more virtual property for each property that
    [allProperties] gives for the interface of the parent once the interface
    of the class is extended, in order; and the presence check and the value
    check of the field. *)
Theorem flattening_adds_one_entry
    E fuel0 fuel this p parent w td w1 w' me mine parentInterface :
  schemas E !! p = Some parent ->
  resolve E fuel0 p w = Returned (td, w1) ->
  classImplementation w1 !! this = Some me ->
  interfaceImplementation w1 !! modelInterface me = Some mine ->
  head (mi_interfaces mine) = Some (ModelInterfaceOf p) ->
  interfaceImplementation w1 !! p = Some parentInterface ->
  implementInterfaceForParentSchema E (resolve E fuel0) fuel this p w = Returned (tt, w') ->
  exists parentClass nm,
    classImplementation w1 !! p = Some parentClass /\
    getPrivateNameForField (fields me) (backingFieldBaseName E (fullName parentClass))
      = Returned nm /\
    w' = with_class this
           (flattenedClass E me (DeclarationOf p) nm (fullName parentClass)
              parentInterface parent
              (allProperties E (interfaceImplementation (pushed me mine p w1)) p))
           (pushed me mine p w1).
Proof.
  intros Hparent Hres Hme Hmine Hhead Hpi H.
  destruct (decide (allOf parent = [])) as [Hnone|Hsome].
  - destruct fuel as [|fuel]; [discriminate|].
    destruct (resolve_leaves_class E fuel0 p _ _ _ Hres) as [-> _].
    destruct (implementInterfaceForParentSchema_passes E _ fuel this p w _ w1 me mine
                parentInterface parent _ Hres Hme Hmine Hhead Hpi Hparent H)
      as (pc & nm & Hpc & Hnm & Hloop).
    exists pc, nm. split; [done|]. split; [done|].
    rewrite Hnone in Hloop. by injection Hloop as <-.
  - by destruct (implementInterfaceForParentSchema_endless E fuel0 this p parent Hparent fuel
                   Hsome w td w1 me mine parentInterface (tt, w') Hres Hme Hmine Hhead Hpi).
Qed.

Lemma flattening_adds_one_entry_witness :
  exists parentClass nm,
    classImplementation halfBuiltHeaders !! 0 = Some parentClass /\
    getPrivateNameForField
      (fields (prologueClass headersEnvironment 1
                 (objectSchema "Child" [] [0] None None APUndefined)))
      (backingFieldBaseName headersEnvironment (fullName parentClass)) = Returned nm /\
    worldOf (implementInterfaceForParentSchema headersEnvironment (resolve headersEnvironment 5)
               5 1 0 halfBuiltHeaders)
    = with_class 1
        (flattenedClass headersEnvironment
           (prologueClass headersEnvironment 1
              (objectSchema "Child" [] [0] None None APUndefined))
           (DeclarationOf 0) nm (fullName parentClass)
           (sampleInterface 0
              (objectSchema "Parent" [("etag", headerSourced)] [] None None APUndefined))
           (objectSchema "Parent" [("etag", headerSourced)] [] None None APUndefined)
           [{| ip_name := "etag"; setAccess := Public |}])
        (with_interface 1
           {| mi_name := "IChild"; mi_interfaces := [ModelInterfaceOf 0; ModelInterfaceOf 0];
              mi_properties := [] |}
           halfBuiltHeaders).
Proof.
  apply (flattening_adds_one_entry headersEnvironment 5 5 1 0
           (objectSchema "Parent" [("etag", headerSourced)] [] None None APUndefined)
           halfBuiltHeaders (DeclarationOf 0) halfBuiltHeaders
           (worldOf (implementInterfaceForParentSchema headersEnvironment
                       (resolve headersEnvironment 5) 5 1 0 halfBuiltHeaders))
           (prologueClass headersEnvironment 1
              (objectSchema "Child" [] [0] None None APUndefined))
           {| mi_name := "IChild"; mi_interfaces := [ModelInterfaceOf 0];
              mi_properties := [] |}
           (sampleInterface 0
              (objectSchema "Parent" [("etag", headerSourced)] [] None None APUndefined))).
  - reflexivity.
  - vm_compute. reflexivity.
  - vm_compute. reflexivity.
  - vm_compute. reflexivity.
  - reflexivity.
  - vm_compute. reflexivity.
  - vm_compute. reflexivity.
Defined.

(** ** The build of an acyclic graph returns *)

Lemma forM__returns {A} (I : World -> Prop) (l : list A) (body : A -> M unit) :
  (forall x, x ∈ l -> forall w, I w -> exists w', body x w = Returned (tt, w') /\ I w') ->
  forall w, I w -> exists w', forM_ l body w = Returned (tt, w') /\ I w'.
Proof.
  induction l as [|x l IH]; intros Hbody w HI; simpl.
  - by exists w.
  - destruct (Hbody x (list_elem_of_here _ _) w HI) as (w1 & Hx & HI1).
    rewrite (bind_Returned_2 _ _ _ _ _ Hx).
    apply IH; [|done]. intros y Hy. apply Hbody. by right.
Qed.

Lemma modify_class_returns s f w :
  is_Some (classImplementation w !! s) ->
  exists w', modify_class s f w = Returned (tt, w').
Proof. intros [c Hc]. eexists. by apply modify_class_Some. Qed.

(** A check of [closed_graph] that can be computed on a given schema
    graph. *)
Lemma closed_graph_check E :
  map_Forall (fun _ sch => Forall (fun p => is_Some (schemas E !! p)) (allOf sch)) (schemas E) ->
  closed_graph E.
Proof.
  intros H s sch p Hs Hp. specialize (H s sch Hs). rewrite Forall_forall in H. by apply H.
Qed.

Section Returns.
Context (E : Environment) (rk : SchemaId -> nat).
Hypothesis graph_acyclic : acyclic E rk.
Hypothesis graph_closed : closed_graph E.
Hypothesis newModelInterface_head : forall s sch p,
  head (mi_interfaces (newModelInterface E s sch)) <> Some (ModelInterfaceOf p).

Lemma registry_sound_ranked w : registry_sound E w -> ranked rk w.
Proof.
  intros (_ & H2 & _) a b Hab.
  destruct (H2 a b Hab) as [(sch & Hs & Hb & _) (pc & Hpc & _)].
  split; [eauto|]. by eapply graph_acyclic.
Qed.

Lemma resolve_steady fuel this q w td w' :
  steady E this w -> resolve E fuel q w = Returned (td, w') -> steady E this w'.
Proof.
  intros (HP & HS & [c Hc]) H. split; [|split].
  - by eapply (resolve_pristine E fuel newModelInterface_head q).
  - by eapply (resolve_sound E fuel q).
  - destruct (evolves_lookup E w w' this c (resolve_evolves E fuel q w td w' H) Hc)
      as (c' & Hc' & _). eauto.
Qed.

Section Constructor.
Context (fuel this : SchemaId) (schema : Schema).
Hypothesis this_schema : schemas E !! this = Some schema.
Hypothesis this_rank : rk this <= fuel.
Hypothesis resolve_below : forall q w,
  pristine E w -> registry_sound E w -> is_Some (schemas E !! q) -> rk q < fuel ->
  exists td w', resolve E fuel q w = Returned (td, w').

Lemma registerWithParents_returns w :
  steady E this w ->
  exists w', registerWithParents (resolve E fuel) fuel this schema w = Returned (tt, w') /\
             steady E this w'.
Proof.
  unfold registerWithParents.
  destruct (truthy_string _) as [v|] eqn:Hv; [|intros HI; by exists w].
  apply forM__returns. intros q Hq w1 HI1.
  pose proof (graph_acyclic this schema q this_schema Hq) as Hrk.
  destruct HI1 as (HP1 & HS1 & Hthis1).
  destruct (resolve_below q w1 HP1 HS1) as (td & w2 & Hres);
    [by eapply graph_closed|lia|].
  rewrite (bind_Returned_2 _ _ _ _ _ Hres).
  destruct (resolve_steady fuel this q w1 td w2) as (HP2 & HS2 & [c Hc]); [done|done|].
  destruct (resolve_leaves_class E fuel q _ _ _ Hres) as [_ [pc Hpc]].
  unfold bind at 1. unfold get_class at 1. rewrite Hpc.
  destruct (isPolymorphic pc) eqn:Hpoly; [|by exists w2].
  rewrite (bind_Returned_2 _ _ _ _ _ (modify_class_Some _ _ _ _ Hc)).
  set (c' := set_parentModelClasses (parentModelClasses c ++ [q]) c).
  assert (HS3 : registry_sound E (with_class this c' w2)).
  { by apply (registry_sound_push E this schema c q pc). }
  assert (HP3 : pristine E (with_class this c' w2)).
  { assert (Hm : preserves (pristine E)
                   (modify_class this
                      (fun c => set_parentModelClasses (parentModelClasses c ++ [q]) c)))
      by (by apply preserves_pristine_modify).
    apply (Hm w2 tt _ HP2).
    exact (modify_class_Some this
             (fun c => set_parentModelClasses (parentModelClasses c ++ [q]) c) w2 c Hc). }
  destruct (addDiscriminator_returns rk fuel v this q (with_class this c' w2))
    as (w4 & Hadd).
  { by apply registry_sound_ranked. }
  { simpl. apply lookup_insert_is_Some. destruct (decide (this = q)); eauto. }
  { lia. }
  exists w4. split; [done|]. split; [|split].
  - by apply (preserves_pristine_addDiscriminator E fuel q v this _ tt _ HP3).
  - apply (addDiscriminator_sound E fuel q v this (with_class this c' w2)); try done.
    + by exists schema.
    + apply tc_once. exists c'. split; [simpl; apply lookup_insert_eq|].
      simpl. apply elem_of_app. right. by apply list_elem_of_singleton.
  - pose proof (addDiscriminator_registered _ _ _ _ _ _ _ Hadd) as Hr.
    destruct (registered_lookup _ _ _ _ this c' Hr) as (c4 & Hc4 & _);
      [simpl; apply lookup_insert_eq|eauto].
Qed.

(** From scratch, the call for a parent returns as soon as the parent is
    resolved. *)
Lemma implementInterfaceForParentSchema_returns p w :
  p ∈ allOf schema -> steady E this w ->
  exists w', implementInterfaceForParentSchema E (resolve E fuel) fuel this p w
             = Returned (tt, w') /\ steady E this w'.
Proof.
  intros Hp HI. pose proof (graph_acyclic this schema p this_schema Hp) as Hrk.
  pose proof HI as (HP & HS & Hthis).
  destruct (resolve_below p w HP HS) as (td & w1 & Hres); [by eapply graph_closed|lia|].
  pose proof (resolve_steady fuel this p w td w1 HI Hres) as HI1.
  pose proof HI1 as ([Hifs Hcls] & HS1 & [me Hme]).
  destruct (Hcls this me Hme) as (Hmi & _ & [mine Hmine]).
  destruct (Hifs this mine Hmine) as (sch & _ & ->).
  exists w1. split; [|exact HI1].
  destruct fuel as [|fuel']; [lia|].
  apply (implementInterfaceForParentSchema_skips E _ fuel' this p w td w1 me
           (newModelInterface E this sch)); try done.
  - by rewrite Hmi.
  - intros Hz%indexOf_zero_head. by apply newModelInterface_head in Hz.
Qed.

Lemma ModelClass_constructor_returns w :
  classImplementation w !! this = None -> pristine E w -> registry_sound E w ->
  exists w', ModelClass_constructor E (resolve E fuel) fuel this schema w = Returned (tt, w').
Proof.
  intros Hfresh HP HS. unfold ModelClass_constructor.
  destruct (ModelClass_prologue_world E this schema w) as (w1 & Hpro & Hc1 & Hi1).
  rewrite (bind_Returned_2 _ _ _ _ _ Hpro).
  assert (HI1 : steady E this w1).
  { split; [|split].
    - by apply (ModelClass_prologue_pristine E this schema this_schema w tt w1).
    - by apply (ModelClass_prologue_sound E this schema w w1).
    - rewrite Hc1, lookup_insert_eq. eauto. }
  destruct (registerWithParents_returns w1 HI1) as (w2 & Hreg & HP2 & HS2 & Hthis2).
  rewrite (bind_Returned_2 _ _ _ _ _ Hreg).
  destruct Hthis2 as [c2 Hc2].
  rewrite (bind_Returned_2 _ _ _ _ _ (modify_class_Some _ addDefaultConstructor _ _ Hc2)).
  assert (HI3 : steady E this (with_class this (addDefaultConstructor c2) w2)).
  { split; [|split].
    - assert (Hm : preserves (pristine E) (modify_class this addDefaultConstructor))
        by (by apply preserves_pristine_modify).
      apply (Hm w2 tt _ HP2). exact (modify_class_Some this addDefaultConstructor w2 c2 Hc2).
    - by apply (registry_sound_with_class E this c2).
    - simpl. rewrite lookup_insert_eq. eauto. }
  destruct (forM__returns (steady E this) (allOf schema)
              (fun parentSchema =>
                 implementInterfaceForParentSchema E (resolve E fuel) fuel this parentSchema)
              (fun p Hp w => implementInterfaceForParentSchema_returns p w Hp)
              _ HI3) as (w4 & Hflat & _ & _ & Hthis4).
  rewrite (bind_Returned_2 _ _ _ _ _ Hflat).
  by apply modify_class_returns.
Qed.

End Constructor.

(** Resolving a schema of smaller rank than the depth allowed returns. *)
Lemma resolve_returns fuel :
  forall q w, pristine E w -> registry_sound E w -> is_Some (schemas E !! q) -> rk q < fuel ->
    exists td w', resolve E fuel q w = Returned (td, w').
Proof.
  induction fuel as [|fuel IH]; intros q w HP HS [schema Hs] Hrk; [lia|].
  unfold resolve, resolveTypeDeclaration. rewrite Hs.
  destruct (classImplementation w !! q) as [c|] eqn:Hc; [by eauto|].
  change (exists td w', (ModelClass_new E (S fuel) q ;;; ret (DeclarationOf q)) w
                        = Returned (td, w')).
  rewrite (ModelClass_new_unfold _ _ _ _ Hs).
  destruct (ModelClass_constructor_returns fuel q schema Hs ltac:(lia) IH w Hc HP HS)
    as (w' & Hctor).
  rewrite (bind_Returned_2 _ _ _ _ _ Hctor). by eauto.
Qed.

End Returns.

(** X14. The build of an acyclic schema graph, from scratch and with the
    recursion allowed to go deeper than the graph, returns: no parent is
    missing, no class is read before it is published, no registration goes
    round in circles and no private name runs out.  Every root has its class
    then.  The graph names no parent outside itself, and the constructor of a
    model interface does not list a model interface first. *)
Theorem build_returns E rk fuel roots :
  acyclic E rk -> closed_graph E ->
  (forall s sch p, head (mi_interfaces (newModelInterface E s sch)) <> Some (ModelInterfaceOf p)) ->
  (forall s, s ∈ roots -> is_Some (schemas E !! s) /\ rk s < fuel) ->
  exists w, build E fuel roots emptyWorld = Returned (tt, w) /\
    forall s, s ∈ roots -> is_Some (classImplementation w !! s).
Proof.
  intros Hacyclic Hclosed Hhead Hroots.
  set (I := fun (done : list SchemaId) (w : World) =>
              pristine E w /\ registry_sound E w /\
              forall s, s ∈ done -> is_Some (classImplementation w !! s)).
  assert (Hloop : forall l done w,
            (forall s, s ∈ l -> is_Some (schemas E !! s) /\ rk s < fuel) ->
            I done w ->
            exists w', build E fuel l w = Returned (tt, w') /\ I (done ++ l) w').
  { induction l as [|s l IH]; intros done w Hl HI.
    - exists w. split; [done|]. by rewrite app_nil_r.
    - destruct HI as (HP & HS & Hdone).
      destruct (Hl s) as [Hs Hrk]; [left|].
      destruct (resolve_returns E rk Hacyclic Hclosed Hhead fuel s w HP HS Hs Hrk)
        as (td & w1 & Hres).
      assert (Hstep : build E fuel (s :: l) w = build E fuel l w1).
      { unfold build. cbn [forM_]. unfold bind. by rewrite Hres. }
      rewrite Hstep.
      destruct (IH (done ++ [s]) w1) as (w' & Hrest & HI').
      { intros y Hy. apply Hl. by right. }
      { split; [|split].
        - by eapply (resolve_pristine E fuel Hhead s).
        - by eapply (resolve_sound E fuel s).
        - intros y [Hy|Hy%list_elem_of_singleton]%elem_of_app.
          + destruct (Hdone y Hy) as [c Hc].
            destruct (evolves_lookup E w w1 y c (resolve_evolves E fuel s w td w1 Hres) Hc)
              as (c' & Hc' & _). eauto.
          + subst y. by destruct (resolve_leaves_class E fuel s _ _ _ Hres). }
      exists w'. split; [exact Hrest|]. by rewrite <- app_assoc in HI'. }
  destruct (Hloop roots [] emptyWorld Hroots) as (w & Hbuild & _ & _ & Hall).
  { split; [|split].
    - split; intros s x; simpl; by rewrite lookup_empty.
    - split; [|split].
      + intros a c. simpl. by rewrite lookup_empty.
      + intros a p (c & Hc & _). simpl in Hc. by rewrite lookup_empty in Hc.
      + intros a v d (c & Hc & _). simpl in Hc. by rewrite lookup_empty in Hc.
    - intros s Hs. by apply elem_of_nil in Hs. }
  exists w. split; [done|]. exact Hall.
Qed.

Lemma build_returns_witness :
  exists w, build chainEnvironment 3 [2; 1] emptyWorld = Returned (tt, w) /\
    forall s, s ∈ [2; 1] -> is_Some (classImplementation w !! s).
Proof.
  apply (build_returns chainEnvironment (fun s => s) 3 [2; 1]).
  - apply acyclic_check. apply (bool_decide_unpack _). vm_compute. exact I.
  - apply closed_graph_check. apply (bool_decide_unpack _). vm_compute. exact I.
  - intros s sch p. simpl. discriminate.
  - intros s Hs. repeat (apply elem_of_cons in Hs as [->|Hs]; [split; [by eexists|lia]|]).
    by apply elem_of_nil in Hs.
Defined.

(** ** The parents that a class records *)

Lemma preserves_at_class_other_step {A} E this (P : ModelClass -> Prop) (m : M A) :
  (forall c c', other_step E c c' -> P c -> P c') ->
  respects (evolves E) m -> preserves (at_class this P) m.
Proof.
  intros HP Hm w a w' (c & Hc & Hc') H.
  destruct (evolves_lookup E w w' this c (Hm w a w' H) Hc) as (c' & Hc1 & Hstep).
  exists c'. split; [done|]. by eapply HP.
Qed.

Lemma other_step_parents E c c' :
  other_step E c c' -> parentModelClasses c' = parentModelClasses c.
Proof. intros H%other_step_core. by injection H. Qed.

Lemma preserves_records_evolves {A} E this ps (m : M A) :
  respects (evolves E) m -> preserves (records this ps) m.
Proof.
  apply preserves_at_class_other_step. intros c c' Hstep <-.
  by apply (other_step_parents E).
Qed.

Lemma preserves_records_modify this ps s f :
  (forall c, parentModelClasses (f c) = parentModelClasses c) ->
  preserves (records this ps) (modify_class s f).
Proof. intros Hf. apply preserves_at_class_modify. intros c <-. apply Hf. Qed.

Lemma preserves_exact_modify E busy s f :
  s ∈ busy \/ (forall c, parentModelClasses (f c) = parentModelClasses c) ->
  preserves (parents_exact E busy) (modify_class s f).
Proof.
  intros Hf w [] w' HT (c & Hc & [= ->])%modify_class_Returned a ca sch Hca Hsch Ha.
  simpl in Hca. destruct (decide (a = s)) as [->|Hne].
  - rewrite lookup_insert_eq in Hca. injection Hca as <-.
    destruct Hf as [Hin|Hf]; [done|]. rewrite Hf. by apply (HT s).
  - rewrite lookup_insert_ne in Hca by done. by apply (HT a).
Qed.

Lemma preserves_exact_modify_interface E busy s f :
  preserves (parents_exact E busy) (modify_interface s f).
Proof. by intros w [] w' HT (i & Hi & [= ->])%modify_interface_Returned. Qed.

Lemma preserves_exact_addDiscriminator E busy fuel q v D :
  preserves (parents_exact E busy) (addDiscriminator fuel q v D).
Proof.
  intros w [] w' HT H a c' sch Hc' Hsch Ha.
  apply addDiscriminator_registered in H.
  destruct (registered_lookup_inv _ _ _ _ _ _ H Hc') as (c & Hc & [->| ->]);
    exact (HT a c sch Hc Hsch Ha).
Qed.

Lemma polyview_parents f :
  (forall c, polyview (f c) = polyview c) ->
  forall c : ModelClass, parentModelClasses (f c) = parentModelClasses c.
Proof. intros Hf c. specialize (Hf c). unfold polyview in Hf. by injection Hf. Qed.

Section Exact.
Context (E : Environment).
Context (resolve0 : SchemaId -> M TypeDeclaration).
Hypothesis resolve0_evolves : forall p, respects (evolves E) (resolve0 p).
Hypothesis resolve0_sound : forall p, preserves (registry_sound E) (resolve0 p).
Hypothesis resolve0_exact : forall p busy w td w',
  registry_sound E w -> parents_exact E busy w -> resolve0 p w = Returned (td, w') ->
  parents_exact E busy w'.

Lemma keeps_resolve0 busy p : preserves (keeps E busy) (resolve0 p).
Proof.
  intros w td w' [HS HT] H. split.
  - by eapply resolve0_sound.
  - by eapply resolve0_exact.
Qed.

Lemma keeps_modify busy this f :
  this ∈ busy -> (forall c, polyview (f c) = polyview c) ->
  preserves (keeps E busy) (modify_class this f).
Proof.
  intros Hthis Hf w [] w' [HS HT] H. split.
  - by eapply (preserves_sound_modify E this f Hf).
  - eapply (preserves_exact_modify E busy this f); [by left|done|done].
Qed.

Lemma keeps_modify_interface busy s f : preserves (keeps E busy) (modify_interface s f).
Proof. by intros w [] w' HK (i & Hi & [= ->])%modify_interface_Returned. Qed.

Lemma implementInterfaceForParentSchema_keeps busy fuel this :
  this ∈ busy ->
  forall p, preserves (keeps E busy) (implementInterfaceForParentSchema E resolve0 fuel this p).
Proof.
  intros Hthis. induction fuel as [|fuel IH]; intros p; [intros w a w' _ [=]|].
  simpl.
  apply preserves_bind; [apply keeps_resolve0|].
  intros td. apply preserves_bind; [apply preserves_get_class|].
  intros me. apply preserves_bind; [apply preserves_get_interface|].
  intros mine. apply preserves_bind; [apply preserves_find_interface|].
  intros pif. destruct (truthy_number _); [apply preserves_ret|].
  apply preserves_bind; [apply keeps_modify_interface|].
  intros _. apply preserves_bind; [apply preserves_get_class|].
  intros pc. apply preserves_bind; [apply preserves_get_class|].
  intros me2. apply preserves_bind; [apply preserves_lift|].
  intros fieldName. apply preserves_bind; [by apply keeps_modify|].
  intros _. apply preserves_bind; [by apply keeps_modify|].
  intros _. apply preserves_bind; [apply preserves_get_interface|].
  intros pi. apply preserves_bind; [apply preserves_get_allProperties|].
  intros inherited. apply preserves_bind; [apply preserves_lift|].
  intros parent. apply preserves_bind.
  { apply keeps_modify; [done|]. apply addInheritedProperties_polyview. }
  intros _. apply preserves_bind; [by apply keeps_modify|].
  intros _. apply preserves_bind; [by apply keeps_modify|].
  intros _. apply preserves_forM_. intros each _. apply IH.
Qed.

Lemma implementInterfaceForParentSchema_records fuel this ps :
  forall p, preserves (records this ps)
              (implementInterfaceForParentSchema E resolve0 fuel this p).
Proof.
  induction fuel as [|fuel IH]; intros p; [intros w a w' _ [=]|].
  simpl.
  apply preserves_bind; [by apply (preserves_records_evolves E)|].
  intros td. apply preserves_bind; [apply preserves_get_class|].
  intros me. apply preserves_bind; [apply preserves_get_interface|].
  intros mine. apply preserves_bind; [apply preserves_find_interface|].
  intros pif. destruct (truthy_number _); [apply preserves_ret|].
  apply preserves_bind; [apply preserves_at_class_modify_interface|].
  intros _. apply preserves_bind; [apply preserves_get_class|].
  intros pc. apply preserves_bind; [apply preserves_get_class|].
  intros me2. apply preserves_bind; [apply preserves_lift|].
  intros fieldName. apply preserves_bind; [by apply preserves_records_modify|].
  intros _. apply preserves_bind; [by apply preserves_records_modify|].
  intros _. apply preserves_bind; [apply preserves_get_interface|].
  intros pi. apply preserves_bind; [apply preserves_get_allProperties|].
  intros inherited. apply preserves_bind; [apply preserves_lift|].
  intros parent. apply preserves_bind.
  { apply preserves_records_modify. apply polyview_parents.
    apply addInheritedProperties_polyview. }
  intros _. apply preserves_bind; [by apply preserves_records_modify|].
  intros _. apply preserves_bind; [by apply preserves_records_modify|].
  intros _. apply preserves_forM_. intros each _. apply IH.
Qed.

(** The loop over [allOf] of a class that carries a literal records the
    parents that are polymorphic, and keeps the rest. *)
Lemma registerWithParents_loop busy fuel this schema v :
  schemas E !! this = Some schema -> this ∈ busy ->
  truthy_string (x_ms_discriminator_value schema) = Some v ->
  forall l acc w w',
    (forall q, q ∈ l -> q ∈ allOf schema) ->
    keeps E busy w -> records this acc w ->
    forM_ l (fun parentSchema =>
      parentDecl <- resolve0 parentSchema ;;
      parentClass <- get_class parentSchema ;;
      if isPolymorphic parentClass then
        modify_class this (fun c =>
          set_parentModelClasses (parentModelClasses c ++ [parentSchema]) c) ;;;
        addDiscriminator fuel parentSchema v this
      else ret tt) w = Returned (tt, w') ->
    keeps E busy w' /\
    records this (acc ++ filter (fun q => polymorphicSchema E q = true) l) w'.
Proof.
  intros Hs Hthis Hv. induction l as [|q l IH]; intros acc w w' Hl HK HR H.
  - injection H as <-. by rewrite app_nil_r.
  - simpl in H. apply bind_Returned in H as ([] & w4 & Hbody & H).
    apply bind_Returned in Hbody as (td & w2 & Hres & Hbody).
    pose proof (keeps_resolve0 busy q _ _ _ HK Hres) as [HS2 HT2].
    pose proof (preserves_records_evolves E this acc _ (resolve0_evolves q) _ _ _ HR Hres)
      as (c & Hc & Hacc).
    apply bind_Returned in Hbody as (pc & ? & [Hpc ->]%get_class_Returned & Hbody).
    assert (Hpoly : polymorphicSchema E q = isPolymorphic pc).
    { destruct HS2 as (H1 & _). destruct (H1 q pc Hpc) as (sq & Hsq & ->).
      unfold polymorphicSchema. by rewrite Hsq. }
    rewrite filter_cons. destruct (isPolymorphic pc) eqn:Hpc_poly.
    + rewrite decide_True by done.
      apply bind_Returned in Hbody
        as ([] & w3 & (c0 & Hc0 & [= ->])%modify_class_Returned & Hadd).
      rewrite Hc in Hc0. injection Hc0 as <-.
      set (c' := set_parentModelClasses (parentModelClasses c ++ [q]) c) in *.
      assert (HS3 : registry_sound E (with_class this c' w2)).
      { apply (registry_sound_push E this schema c q pc); try done. apply Hl. left. }
      assert (HT3 : parents_exact E busy (with_class this c' w2)).
      { intros a ca sch Hca Hsch Ha. simpl in Hca.
        rewrite lookup_insert_ne in Hca by (by intros ->). by apply (HT2 a). }
      apply (IH (acc ++ [q]) w4 w') in H.
      * by rewrite <- app_assoc in H.
      * intros y Hy. apply Hl. by right.
      * split.
        -- apply (addDiscriminator_sound E fuel q v this (with_class this c' w2)); try done.
           ++ by exists schema.
           ++ apply tc_once. exists c'. split; [simpl; apply lookup_insert_eq|].
              simpl. apply elem_of_app. right. by apply list_elem_of_singleton.
        -- by apply (preserves_exact_addDiscriminator E busy fuel q v this _ tt _ HT3).
      * pose proof (addDiscriminator_registered _ _ _ _ _ _ _ Hadd) as Hr.
        destruct (registered_lookup _ _ _ _ this c' Hr) as (c4 & Hc4 & Hcc);
          [simpl; apply lookup_insert_eq|].
        exists c4. split; [done|]. destruct Hcc as [->| ->]; simpl; by rewrite Hacc.
    + rewrite decide_False by (by rewrite Hpoly). injection Hbody as <-.
      apply (IH acc w2 w'); try done.
      * intros y Hy. apply Hl. by right.
      * by exists c.
Qed.

Lemma registerWithParents_records busy fuel this schema w w' :
  schemas E !! this = Some schema -> this ∈ busy ->
  keeps E busy w -> records this [] w ->
  registerWithParents resolve0 fuel this schema w = Returned (tt, w') ->
  keeps E busy w' /\ records this (wantedParents E schema) w'.
Proof.
  intros Hs Hthis HK HR. unfold registerWithParents, wantedParents.
  destruct (truthy_string _) as [v|] eqn:Hv; [|by intros [= <-]].
  intros H.
  by apply (registerWithParents_loop busy fuel this schema v Hs Hthis Hv
              (allOf schema) [] w w').
Qed.

Lemma ModelClass_constructor_exact busy fuel this schema w w' :
  schemas E !! this = Some schema -> classImplementation w !! this = None ->
  keeps E busy w ->
  ModelClass_constructor E resolve0 fuel this schema w = Returned (tt, w') ->
  parents_exact E busy w'.
Proof.
  intros Hs Hfresh [HS HT]. unfold ModelClass_constructor.
  intros ([] & w1 & Hpro & H)%bind_Returned.
  pose proof (ModelClass_prologue_sound E this schema w w1 Hs Hfresh HS Hpro) as HS1.
  destruct (ModelClass_prologue_world E this schema w) as (w1' & Hpro' & Hc1 & _).
  rewrite Hpro' in Hpro. injection Hpro as ->.
  set (busy' := busy ∪ {[this]}).
  assert (Hthis : this ∈ busy').
  { unfold busy'. rewrite elem_of_union, elem_of_singleton. by right. }
  assert (HT1 : parents_exact E busy' w1).
  { intros a c sch Hc Hsch Ha. rewrite Hc1 in Hc.
    rewrite lookup_insert_ne in Hc by (by intros ->). apply (HT a c sch Hc Hsch).
    intros Hin. apply Ha. unfold busy'. rewrite elem_of_union. by left. }
  assert (HR1 : records this [] w1).
  { exists (prologueClass E this schema). rewrite Hc1, lookup_insert_eq. split; [done|].
    unfold prologueClass. by destruct (discriminator schema). }
  apply bind_Returned in H as ([] & w2 & Hreg & H).
  destruct (registerWithParents_records busy' fuel this schema w1 w2 Hs Hthis
              (conj HS1 HT1) HR1 Hreg) as [HK2 HR2].
  assert (Hrest_keeps : preserves (keeps E busy')
            (modify_class this addDefaultConstructor ;;;
             forM_ (allOf schema) (fun parentSchema =>
               implementInterfaceForParentSchema E resolve0 fuel this parentSchema) ;;;
             modify_class this (ModelClass_epilogue E schema))).
  { apply preserves_bind; [by apply keeps_modify|].
    intros _. apply preserves_bind.
    - apply preserves_forM_. intros p _. by apply implementInterfaceForParentSchema_keeps.
    - intros _. apply keeps_modify; [done|]. apply polyview_ModelClass_epilogue. }
  assert (Hrest_records : preserves (records this (wantedParents E schema))
            (modify_class this addDefaultConstructor ;;;
             forM_ (allOf schema) (fun parentSchema =>
               implementInterfaceForParentSchema E resolve0 fuel this parentSchema) ;;;
             modify_class this (ModelClass_epilogue E schema))).
  { apply preserves_bind; [by apply preserves_records_modify|].
    intros _. apply preserves_bind.
    - apply preserves_forM_. intros p _. apply implementInterfaceForParentSchema_records.
    - intros _. apply preserves_records_modify. apply polyview_parents.
      apply polyview_ModelClass_epilogue. }
  destruct (Hrest_keeps w2 tt w' HK2 H) as [_ HT'].
  destruct (Hrest_records w2 tt w' HR2 H) as (c & Hc & Hps).
  intros a ca sch Hca Hsch Ha. destruct (decide (a = this)) as [->|Hne].
  - rewrite Hc in Hca. injection Hca as <-. rewrite Hs in Hsch. by injection Hsch as <-.
  - apply (HT' a ca sch Hca Hsch). unfold busy'.
    rewrite elem_of_union, elem_of_singleton. tauto.
Qed.

End Exact.

Lemma resolve_exact E fuel :
  forall q busy w td w',
    registry_sound E w -> parents_exact E busy w ->
    resolve E fuel q w = Returned (td, w') -> parents_exact E busy w'.
Proof.
  induction fuel as [|fuel IH]; intros q busy w td w' HS HT H;
    apply resolve_Returned in H as (schema & Hs & _ & [[_ ->]|[Hfresh Hnew]]);
    try done.
  rewrite (ModelClass_new_unfold _ _ _ _ Hs) in Hnew.
  by eapply (ModelClass_constructor_exact E (resolve E fuel) (resolve_evolves E fuel)
               (resolve_sound E fuel) IH busy fuel q schema w w').
Qed.

(** What a build from scratch keeps. *)
Lemma build_keeps E fuel roots w :
  build E fuel roots emptyWorld = Returned (tt, w) -> keeps E ∅ w.
Proof.
  assert (Hbuild : preserves (keeps E ∅) (build E fuel roots)).
  { apply preserves_forM_. intros s _. apply preserves_bind.
    - intros w0 td w1 [HS HT] Hres. split.
      + by eapply (resolve_sound E fuel s).
      + by eapply (resolve_exact E fuel s).
    - intros _. apply preserves_ret. }
  apply (Hbuild emptyWorld tt w). split.
  - split; [|split].
    + intros a c. simpl. by rewrite lookup_empty.
    + intros a p (c & Hc & _). simpl in Hc. by rewrite lookup_empty in Hc.
    + intros a v d (c & Hc & _). simpl in Hc. by rewrite lookup_empty in Hc.
  - intros a c sch Hc. simpl in Hc. by rewrite lookup_empty in Hc.
Qed.

(** X15. After a build that starts with nothing built, the class of a schema
    that carries a discriminator value records, as its polymorphic parents,
    exactly the parents of the schema that have a discriminator property, as
    often and in the order in which the schema names them; the class of a
    schema without a discriminator value records none. *)
Theorem recorded_parents_after_build E fuel roots w :
  build E fuel roots emptyWorld = Returned (tt, w) ->
  forall a c sch,
    classImplementation w !! a = Some c -> schemas E !! a = Some sch ->
    parentModelClasses c =
      match truthy_string (x_ms_discriminator_value sch) with
      | Some _ => filter (fun q => polymorphicSchema E q = true) (allOf sch)
      | None => []
      end.
Proof.
  intros [_ HT]%build_keeps a c sch Hc Hsch.
  apply (HT a c sch Hc Hsch). apply not_elem_of_empty.
Qed.

Lemma recorded_parents_after_build_witness :
  build knotEnvironment 9 [0] emptyWorld
    = Returned (tt, worldOf (build knotEnvironment 9 [0] emptyWorld)) /\
  forall a c sch,
    classImplementation (worldOf (build knotEnvironment 9 [0] emptyWorld)) !! a = Some c ->
    schemas knotEnvironment !! a = Some sch ->
    parentModelClasses c =
      match truthy_string (x_ms_discriminator_value sch) with
      | Some _ => filter (fun q => polymorphicSchema knotEnvironment q = true) (allOf sch)
      | None => []
      end.
Proof.
  split; [vm_compute; reflexivity|].
  apply (recorded_parents_after_build knotEnvironment 9 [0]). vm_compute. reflexivity.
Defined.

(** ** What a build leaves alone *)

#[global] Instance extends_interface_preorder : PreOrder extends_interface.
Proof.
  split.
  - by intros i.
  - intros i1 i2 i3 (Hn12 & Hl12) (Hn23 & Hl23).
    split; [congruence|]. by etransitivity.
Qed.

#[global] Instance interfaces_grow_preorder : PreOrder interfaces_grow.
Proof.
  split.
  - intros w s i Hi. by exists i.
  - intros w1 w2 w3 H12 H23 s i1 Hi1.
    destruct (H12 s i1 Hi1) as (i2 & Hi2 & He12).
    destruct (H23 s i2 Hi2) as (i3 & Hi3 & He23).
    exists i3. split; [done|]. by etransitivity.
Qed.

Lemma interfaces_grow_same w w' :
  interfaceImplementation w' = interfaceImplementation w -> interfaces_grow w w'.
Proof. intros Heq s i Hi. rewrite Heq. by exists i. Qed.

Lemma respects_grow_modify_class s f : respects interfaces_grow (modify_class s f).
Proof.
  intros w [] w' (c & Hc & [= ->])%modify_class_Returned. by apply interfaces_grow_same.
Qed.

Lemma respects_grow_push s x :
  respects interfaces_grow
    (modify_interface s (fun i => set_mi_interfaces (mi_interfaces i ++ [x]) i)).
Proof.
  intros w [] w' (i & Hi & [= ->])%modify_interface_Returned j ij Hj. simpl.
  destruct (decide (j = s)) as [->|Hne].
  - rewrite lookup_insert_eq. rewrite Hi in Hj. injection Hj as <-.
    eexists. split; [done|]. split; [done|]. by apply prefix_app_r.
  - rewrite lookup_insert_ne by done. by exists ij.
Qed.

Lemma respects_grow_addDiscriminator fuel q v D :
  respects interfaces_grow (addDiscriminator fuel q v D).
Proof.
  intros w [] w' H. apply addDiscriminator_registered in H as [Heq _].
  by apply interfaces_grow_same.
Qed.

Lemma respects_grow_prologue E this schema :
  respects interfaces_grow (ModelClass_prologue E this schema).
Proof.
  intros w [] w' H.
  destruct (ModelClass_prologue_world E this schema w) as (w1 & Hpro & _ & Hi1).
  rewrite Hpro in H. injection H as <-. intros s i Hi. rewrite Hi1.
  destruct (interfaceImplementation w !! this) eqn:Hthis; [by exists i|].
  rewrite lookup_insert_ne by (intros <-; by rewrite Hthis in Hi). by exists i.
Qed.

Section Grow.
Context (E : Environment).
Context (resolve0 : SchemaId -> M TypeDeclaration).
Hypothesis resolve0_grow : forall p, respects interfaces_grow (resolve0 p).

Lemma registerWithParents_grow fuel this schema :
  respects interfaces_grow (registerWithParents resolve0 fuel this schema).
Proof.
  unfold registerWithParents.
  destruct (truthy_string _) as [v|]; [|apply respects_ret; apply _].
  apply respects_forM_; try apply _. intros q _.
  apply respects_bind; try apply _; [apply resolve0_grow|].
  intros _. apply respects_bind; try apply _; [apply respects_get_class; apply _|].
  intros pc. destruct (isPolymorphic pc); [|apply respects_ret; apply _].
  apply respects_bind; try apply _; [apply respects_grow_modify_class|].
  intros _. apply respects_grow_addDiscriminator.
Qed.

Lemma implementInterfaceForParentSchema_grow fuel this :
  forall p, respects interfaces_grow
              (implementInterfaceForParentSchema E resolve0 fuel this p).
Proof.
  induction fuel as [|fuel IH]; intros p; [intros w a w' [=]|].
  simpl.
  apply respects_bind; try apply _; [apply resolve0_grow|].
  intros td. apply respects_bind; try apply _; [apply respects_get_class; apply _|].
  intros me. apply respects_bind; try apply _; [apply respects_get_interface; apply _|].
  intros mine. apply respects_bind; try apply _; [apply respects_find_interface; apply _|].
  intros pif. destruct (truthy_number _); [apply respects_ret; apply _|].
  apply respects_bind; try apply _; [apply respects_grow_push|].
  intros _. apply respects_bind; try apply _; [apply respects_get_class; apply _|].
  intros pc. apply respects_bind; try apply _; [apply respects_get_class; apply _|].
  intros me2. apply respects_bind; try apply _; [apply respects_lift; apply _|].
  intros fieldName. apply respects_bind; try apply _; [apply respects_grow_modify_class|].
  intros _. apply respects_bind; try apply _; [apply respects_grow_modify_class|].
  intros _. apply respects_bind; try apply _; [apply respects_get_interface; apply _|].
  intros pi. apply respects_bind; try apply _; [apply respects_get_allProperties; apply _|].
  intros inherited. apply respects_bind; try apply _; [apply respects_lift; apply _|].
  intros parent. apply respects_bind; try apply _; [apply respects_grow_modify_class|].
  intros _. apply respects_bind; try apply _; [apply respects_grow_modify_class|].
  intros _. apply respects_bind; try apply _; [apply respects_grow_modify_class|].
  intros _. apply respects_forM_; try apply _. intros each _. apply IH.
Qed.

Lemma ModelClass_constructor_grow fuel this schema :
  respects interfaces_grow (ModelClass_constructor E resolve0 fuel this schema).
Proof.
  unfold ModelClass_constructor.
  apply respects_bind; try apply _; [apply respects_grow_prologue|].
  intros _. apply respects_bind; try apply _; [apply registerWithParents_grow|].
  intros _. apply respects_bind; try apply _; [apply respects_grow_modify_class|].
  intros _. apply respects_bind; try apply _.
  - apply respects_forM_; try apply _. intros p _.
    apply implementInterfaceForParentSchema_grow.
  - intros _. apply respects_grow_modify_class.
Qed.

End Grow.

Lemma resolve_grow E fuel : forall q, respects interfaces_grow (resolve E fuel q).
Proof.
  induction fuel as [|fuel IH]; intros q w r w' H;
    apply resolve_Returned in H as (schema & Hs & _ & [[_ ->]|[Hfresh Hnew]]);
    try reflexivity; [discriminate|].
  rewrite (ModelClass_new_unfold _ _ _ _ Hs) in Hnew.
  by eapply (ModelClass_constructor_grow E (resolve E fuel) IH).
Qed.

Lemma other_step_rest E c c' :
  other_step E c c' -> set_discriminators (discriminators c) c' = c.
Proof.
  intros [H _]. destruct c, c'. unfold set_discriminators in *. simpl in *.
  by injection H as -> -> -> -> -> -> -> -> -> -> -> -> -> -> ->.
Qed.

(** X16. A build disturbs nothing that is built, whatever the world it starts
    in.  A class that was there is still there and differs at most in its
    discriminator map.  An interface that was there is still there, under its
    name, and its list of interfaces has only got longer. *)
Theorem build_only_adds E fuel roots w w' :
  build E fuel roots w = Returned (tt, w') ->
  (forall s c, classImplementation w !! s = Some c ->
     exists c', classImplementation w' !! s = Some c' /\
                set_discriminators (discriminators c) c' = c) /\
  (forall s i, interfaceImplementation w !! s = Some i ->
     exists i', interfaceImplementation w' !! s = Some i' /\
                mi_name i' = mi_name i /\
                mi_interfaces i `prefix_of` mi_interfaces i').
Proof.
  intros H. split.
  - intros s c Hc.
    destruct (evolves_lookup E w w' s c (build_evolves E fuel roots w tt w' H) Hc)
      as (c' & Hc' & Hstep).
    exists c'. split; [done|]. by apply (other_step_rest E).
  - assert (Hgrow : respects interfaces_grow (build E fuel roots)).
    { apply respects_forM_; try apply _. intros s _.
      apply respects_bind; try apply _; [apply resolve_grow|].
      intros _. apply respects_ret; apply _. }
    exact (Hgrow w tt w' H).
Qed.

Lemma build_only_adds_witness :
  (forall s c, classImplementation chainParents !! s = Some c ->
     exists c',
       classImplementation (worldOf (build chainEnvironment 5 [2] chainParents)) !! s = Some c' /\
       set_discriminators (discriminators c) c' = c) /\
  (forall s i, interfaceImplementation chainParents !! s = Some i ->
     exists i',
       interfaceImplementation (worldOf (build chainEnvironment 5 [2] chainParents)) !! s
         = Some i' /\
       mi_name i' = mi_name i /\
       mi_interfaces i `prefix_of` mi_interfaces i').
Proof.
  apply (build_only_adds chainEnvironment 5 [2] chainParents). vm_compute. reflexivity.
Defined.

(** ** Schemas without parents *)

(** The construction of the class of a schema without parents returns, and
    the class that it leaves for the schema. *)
Lemma ModelClass_new_leaf E fuel this schema w :
  schemas E !! this = Some schema -> allOf schema = [] ->
  exists w', ModelClass_new E (S fuel) this w = Returned (tt, w') /\
    classImplementation w' !! this = Some (leafClass E this schema).
Proof.
  intros Hs Hleaf. rewrite (ModelClass_new_unfold _ _ _ _ Hs).
  unfold ModelClass_constructor.
  destruct (ModelClass_prologue_world E this schema w) as (w1 & Hpro & Hc1 & Hi1).
  rewrite (bind_Returned_2 _ _ _ _ _ Hpro).
  assert (Hreg : registerWithParents (resolve E fuel) fuel this schema w1 = Returned (tt, w1)).
  { unfold registerWithParents. rewrite Hleaf. by destruct (truthy_string _). }
  rewrite (bind_Returned_2 _ _ _ _ _ Hreg).
  assert (Hthis : classImplementation w1 !! this = Some (prologueClass E this schema)).
  { by rewrite Hc1, lookup_insert_eq. }
  rewrite (bind_Returned_2 _ _ _ _ _ (modify_class_Some _ addDefaultConstructor _ _ Hthis)).
  rewrite Hleaf. simpl forM_. unfold bind at 1. unfold ret at 1.
  rewrite modify_class_with_class.
  eexists. split; [done|]. simpl. apply lookup_insert_eq.
Qed.

(** X17. The construction of the class of a schema without parents always
    returns, in any world: it publishes the class, which depends on the
    schema alone, and the interface of the schema where there was none, and
    it touches nothing else. *)
Theorem class_without_parents E fuel this schema w :
  schemas E !! this = Some schema -> allOf schema = [] ->
  exists w', ModelClass_new E (S fuel) this w = Returned (tt, w') /\
    classImplementation w' = <[this := leafClass E this schema]> (classImplementation w) /\
    interfaceImplementation w' =
      match interfaceImplementation w !! this with
      | Some _ => interfaceImplementation w
      | None => <[this := newModelInterface E this schema]> (interfaceImplementation w)
      end.
Proof.
  intros Hs Hleaf. rewrite (ModelClass_new_unfold _ _ _ _ Hs).
  unfold ModelClass_constructor.
  destruct (ModelClass_prologue_world E this schema w) as (w1 & Hpro & Hc1 & Hi1).
  rewrite (bind_Returned_2 _ _ _ _ _ Hpro).
  assert (Hreg : registerWithParents (resolve E fuel) fuel this schema w1 = Returned (tt, w1)).
  { unfold registerWithParents. rewrite Hleaf. by destruct (truthy_string _). }
  rewrite (bind_Returned_2 _ _ _ _ _ Hreg).
  assert (Hthis : classImplementation w1 !! this = Some (prologueClass E this schema)).
  { by rewrite Hc1, lookup_insert_eq. }
  rewrite (bind_Returned_2 _ _ _ _ _ (modify_class_Some _ addDefaultConstructor _ _ Hthis)).
  rewrite Hleaf. simpl forM_. unfold bind at 1. unfold ret at 1.
  rewrite modify_class_with_class.
  eexists. split; [done|]. simpl. split; [|done].
  rewrite Hc1. by rewrite insert_insert_eq.
Qed.

Lemma class_without_parents_witness :
  exists w', ModelClass_new relaxedEnvironment 1 0 emptyWorld = Returned (tt, w') /\
    classImplementation w' =
      <[0 := leafClass relaxedEnvironment 0
               (objectSchema "Relaxed" [("note", plainProperty)] [] None None APUndefined)]>
        (classImplementation emptyWorld) /\
    interfaceImplementation w' =
      match interfaceImplementation emptyWorld !! 0 with
      | Some _ => interfaceImplementation emptyWorld
      | None =>
          <[0 := newModelInterface relaxedEnvironment 0
                   (objectSchema "Relaxed" [("note", plainProperty)] [] None None APUndefined)]>
            (interfaceImplementation emptyWorld)
      end.
Proof.
  apply (class_without_parents relaxedEnvironment 0 0
           (objectSchema "Relaxed" [("note", plainProperty)] [] None None APUndefined)
           emptyWorld); reflexivity.
Defined.

(** A property that is not required contributes a blank presence check. *)
Lemma optional_presence_blank E n p :
  presence_as_ModelProperty E -> required p = false ->
  all_space (validatePresenceStatement E n p) = true.
Proof.
  intros HE Hopt. destruct (HE n p) as (presence & mp & Hreq & ->).
  rewrite ModelProperty_optional_presence; [done|]. by rewrite Hreq.
Qed.

(** X18. The class of a schema without parents gets no Validate method and
    no IValidates when every property of the schema is optional and has
    nothing to check for its value, the fields checking their presence as the
    properties of property.ts do: the presence check of a property that is
    not required is empty. *)
Theorem optional_properties_need_no_Validate E fuel this schema w w' :
  schemas E !! this = Some schema -> allOf schema = [] ->
  presence_as_ModelProperty E ->
  (forall index property, (index, property) ∈ properties schema ->
     required property = false /\
     all_space (validationStatement E (serializedNameOf (index, property)) property) = true) ->
  ModelClass_new E fuel this w = Returned (tt, w') ->
  exists c, classImplementation w' !! this = Some c /\
    validateMethod c = None /\ (IValidates ∉ interfaces c).
Proof.
  intros Hs Hleaf HE Hopt H. destruct fuel as [|fuel]; [discriminate|].
  destruct (ModelClass_new_leaf E fuel this schema w Hs Hleaf) as (w1 & Hrun & Hc1).
  rewrite Hrun in H. injection H as <-.
  exists (leafClass E this schema). split; [done|].
  unfold leafClass.
  set (c0 := addDefaultConstructor (prologueClass E this schema)).
  destruct (ModelClass_epilogue_spec E schema c0) as (_ & _ & _ & _ & Hi & Hvm & _).
  destruct (addProperties_layout E (properties schema) c0) as [_ Hv].
  assert (Hblank : validationWanted E (addProperties E (properties schema) c0) = false).
  { unfold validationWanted. apply andb_false_iff. right.
    apply negb_false_iff, bool_decide_eq_true.
    destruct (decide (trim (implementation
                (validationStatements (addProperties E (properties schema) c0))) = ""))
      as [|Hne]; [done|].
    apply trim_implementation_nonEmpty in Hne. rewrite Hv in Hne.
    unfold nonEmpty in Hne. rewrite Exists_exists in Hne.
    destruct Hne as (stmt & Hin & Hstmt).
    assert (Hnone : validationStatements c0 = []).
    { unfold c0, prologueClass. by destruct (discriminator schema). }
    rewrite Hnone in Hin. simpl in Hin.
    apply list_elem_of_In, in_flat_map in Hin as ([index property] & Hkv & Hin).
    apply list_elem_of_In in Hkv. destruct (Hopt index property Hkv) as [Hreq Hval].
    simpl in Hin. destruct Hin as [<-|[<-|[]]].
    - by rewrite (optional_presence_blank E _ _ HE Hreq) in Hstmt.
    - simpl in Hstmt. by rewrite Hval in Hstmt. }
  rewrite Hvm, Hi, Hblank. split.
  - unfold c0, prologueClass. by destruct (discriminator schema).
  - assert (Hifs : interfaces c0 = [ModelInterfaceOf this]).
    { unfold c0, prologueClass. by destruct (discriminator schema). }
    rewrite Hifs, app_nil_r. unfold dictionaryOf, IValidates.
    case_decide; rewrite ?elem_of_app, ?elem_of_cons, ?elem_of_nil;
      intros Hin; decompose [or] Hin; try done; discriminate.
Qed.

Lemma optional_properties_need_no_Validate_witness :
  exists c,
    classImplementation
      (worldOf (ModelClass_new relaxedEnvironment 5 0 emptyWorld)) !! 0 = Some c /\
    validateMethod c = None /\ (IValidates ∉ interfaces c).
Proof.
  apply (optional_properties_need_no_Validate relaxedEnvironment 5 0
           (objectSchema "Relaxed" [("note", plainProperty)] [] None None APUndefined)
           emptyWorld).
  - reflexivity.
  - reflexivity.
  - intros n p.
    exists ("await eventListener.AssertNotNull(" +:+ n +:+ ");"),
      (ModelProperty_new n (DeclarationOf 0) None None
         (objectSchema "Relaxed" [("note", plainProperty)] [] None None APUndefined)
         false (required p) n "").
    split; reflexivity.
  - intros index property Hin. simpl in Hin.
    apply list_elem_of_singleton in Hin. injection Hin as -> ->. split; reflexivity.
  - vm_compute. reflexivity.
Defined.

(** ** The registry in terms of the schemas *)

Lemma tc_first {A} (R : relation A) x z : tc R x z -> exists y, R x y /\ rtc R y z.
Proof.
  intros [x' z' H|x' y z' Hxy Hyz].
  - by exists z'.
  - exists y. split; [done|]. by apply tc_rtc.
Qed.

(** After a build from scratch, the parents that a class should record are
    recorded, and they are classes. *)
Lemma schema_parent_recorded E fuel roots w x y :
  build E fuel roots emptyWorld = Returned (tt, w) ->
  is_Some (classImplementation w !! x) -> schema_parent E x y ->
  parent_of w x y /\ is_Some (classImplementation w !! y).
Proof.
  intros [HS HT]%build_keeps [c Hc] (sch & Hsch & Hin).
  assert (Hxy : parent_of w x y).
  { exists c. split; [done|]. rewrite (HT x c sch Hc Hsch); [done|apply not_elem_of_empty]. }
  split; [done|]. destruct HS as (_ & H2 & _).
  destruct (H2 x y Hxy) as [_ (pc & Hpc & _)]. eauto.
Qed.

Lemma schema_parent_tc E fuel roots w x z :
  build E fuel roots emptyWorld = Returned (tt, w) ->
  tc (schema_parent E) x z -> is_Some (classImplementation w !! x) ->
  tc (parent_of w) x z.
Proof.
  intros Hbuild. induction 1 as [x z Hxz|x y z Hxy _ IH]; intros Hx.
  - apply tc_once. by apply (schema_parent_recorded E fuel roots w x z).
  - destruct (schema_parent_recorded E fuel roots w x y Hbuild Hx Hxy) as [Hp Hy].
    eapply tc_l; [done|]. by apply IH.
Qed.

(** X19. After the build of a schema graph that is acyclic along [allOf],
    from scratch, the class of a schema [D] that alone carries the literal
    [v] is known under [v] to every ancestor that the schemas give it through
    parents to record: the polymorphic parents of [D], the polymorphic
    parents of those among them that carry a literal themselves, and so on. *)
Theorem discriminators_reach_schema_ancestors E rk fuel roots w D v a :
  acyclic E rk ->
  build E fuel roots emptyWorld = Returned (tt, w) ->
  declares E D v -> (forall d, declares E d v -> d = D) ->
  is_Some (classImplementation w !! D) ->
  tc (schema_parent E) D a ->
  holds w a v D.
Proof.
  intros Hacyclic Hbuild HD Hunique Hclass Hreach.
  apply (schema_parent_tc E fuel roots w D a Hbuild) in Hreach; [|done].
  apply tc_first in Hreach as (p & Hp & Hpa).
  destruct (build_registry_complete E rk Hacyclic fuel roots w Hbuild D p a v HD Hp Hpa)
    as (D' & HD' & Hholds).
  by rewrite <- (Hunique D' HD').
Qed.

Lemma discriminators_reach_schema_ancestors_witness :
  holds (worldOf (build chainEnvironment 5 [2] emptyWorld)) 0 "g" 2.
Proof.
  apply (discriminators_reach_schema_ancestors chainEnvironment (fun s => s) 5 [2]).
  - apply acyclic_check. apply (bool_decide_unpack _). vm_compute. exact I.
  - vm_compute. reflexivity.
  - eexists. split; [vm_compute; reflexivity|]. reflexivity.
  - apply declares_unique_check. apply (bool_decide_unpack _). vm_compute. exact I.
  - vm_compute. eauto.
  - apply (tc_l _ 2 1 0).
    + eexists. split; [vm_compute; reflexivity|]. apply list_elem_of_In. vm_compute. auto.
    + apply tc_once.
      eexists. split; [vm_compute; reflexivity|]. apply list_elem_of_In. vm_compute. auto.
Defined.

(** ** The classes of a build from scratch *)

Lemma bare_other_step E c c' : other_step E c c' -> bare c' = bare c.
Proof.
  intros [H _].
  change (set_parentModelClasses [] (set_discriminators ∅ c')
          = set_parentModelClasses [] (set_discriminators ∅ c)).
  by rewrite H.
Qed.

Lemma bare_addProperties E ps c : bare (addProperties E ps c) = addProperties E ps (bare c).
Proof.
  revert c. induction ps as [|[index property] ps IH]; intros c; [done|].
  change (addProperties E ((index, property) :: ps) c)
    with (addProperties E ps (addProperty E index property c)).
  by rewrite IH.
Qed.

(** The end of the constructor does not read the registry of the class. *)
Lemma bare_ModelClass_epilogue E schema c :
  bare (ModelClass_epilogue E schema c) = ModelClass_epilogue E schema (bare c).
Proof.
  unfold ModelClass_epilogue. rewrite <- bare_addProperties.
  generalize (addProperties E (properties schema) c). intros c1.
  assert (H2 : forall x, bare (implementAdditionalProperties schema x)
                         = implementAdditionalProperties schema (bare x)).
  { intros x. unfold implementAdditionalProperties.
    by destruct (additionalProperties schema) as [|[]|]. }
  assert (H3 : forall x, bare (implementValidation E x) = implementValidation E (bare x)).
  { intros x. unfold implementValidation.
    change (validationStatements (bare x)) with (validationStatements x).
    by destruct (storagePipeline (project E)), (bool_decide _). }
  assert (H4 : forall x, bare (implementReadHeaders E x) = implementReadHeaders E (bare x)).
  { intros x. unfold implementReadHeaders.
    change (hasHeaderProperties (bare x)) with (hasHeaderProperties x).
    by destruct (hasHeaderProperties x). }
  assert (H5 : forall x, bare (implementSerializers E x) = implementSerializers E (bare x)).
  { intros x. unfold implementSerializers.
    change (class_properties (bare x)) with (class_properties x).
    by destruct (jsonSerialization (project E)), (existsb _ _),
         (xmlSerialization (project E)). }
  by rewrite H5, H4, H3, H2.
Qed.

Lemma bare_prologueClass E this schema :
  bare (prologueClass E this schema) = prologueClass E this schema.
Proof. unfold prologueClass. by destruct (discriminator schema). Qed.

Lemma preserves_finished_modify E busy s f :
  s ∈ busy \/ (forall c, bare (f c) = bare c) ->
  preserves (finished E busy) (modify_class s f).
Proof.
  intros Hf w [] w' HT (c & Hc & [= ->])%modify_class_Returned a ca sch Hca Hsch Ha.
  simpl in Hca. destruct (decide (a = s)) as [->|Hne].
  - rewrite lookup_insert_eq in Hca. injection Hca as <-.
    destruct Hf as [Hin|Hf]; [done|]. rewrite Hf. by apply (HT s).
  - rewrite lookup_insert_ne in Hca by done. by apply (HT a).
Qed.

Lemma preserves_finished_addDiscriminator E busy fuel q v D :
  preserves (finished E busy) (addDiscriminator fuel q v D).
Proof.
  intros w [] w' HT H a c' sch Hc' Hsch Ha.
  apply addDiscriminator_registered in H.
  destruct (registered_lookup_inv _ _ _ _ _ _ H Hc') as (c & Hc & [->| ->]);
    exact (HT a c sch Hc Hsch Ha).
Qed.

Lemma preserves_scratch_modify E busy s f :
  s ∈ busy -> (forall c, modelInterface (f c) = modelInterface c) ->
  (forall c, unflattened c -> unflattened (f c)) ->
  preserves (scratch E busy) (modify_class s f).
Proof.
  intros Hs Hmi Hf w [] w' [HP HF] H. split.
  - by eapply (preserves_pristine_modify E s f).
  - eapply (preserves_finished_modify E busy s f); [by left|done|done].
Qed.

Lemma preserves_bare_modify this K s f :
  (forall c, bare (f c) = bare c) ->
  preserves (at_class this (fun c => bare c = K)) (modify_class s f).
Proof. intros Hf. apply preserves_at_class_modify. intros c <-. apply Hf. Qed.

Section Scratch.
Context (E : Environment).
Hypothesis newModelInterface_head : forall s sch p,
  head (mi_interfaces (newModelInterface E s sch)) <> Some (ModelInterfaceOf p).
Context (resolve0 : SchemaId -> M TypeDeclaration).
Hypothesis resolve0_evolves : forall p, respects (evolves E) (resolve0 p).
Hypothesis resolve0_scratch : forall p busy, preserves (scratch E busy) (resolve0 p).

Lemma resolve0_keeps_pristine p : preserves (pristine E) (resolve0 p).
Proof.
  intros w td w' HP H.
  assert (HS : scratch E (dom (classImplementation w)) w).
  { split; [done|]. intros a c sch Hc _ Ha. destruct Ha. apply elem_of_dom. eauto. }
  by destruct (resolve0_scratch p (dom (classImplementation w)) w td w' HS H).
Qed.

Lemma registerWithParents_scratch busy fuel this schema :
  this ∈ busy ->
  preserves (scratch E busy) (registerWithParents resolve0 fuel this schema).
Proof.
  intros Hthis. unfold registerWithParents.
  destruct (truthy_string _) as [v|]; [|apply preserves_ret].
  apply preserves_forM_. intros q _.
  apply preserves_bind; [apply resolve0_scratch|].
  intros _. apply preserves_bind; [apply preserves_get_class|].
  intros pc. destruct (isPolymorphic pc); [|apply preserves_ret].
  apply preserves_bind; [by apply preserves_scratch_modify|].
  intros _ w [] w' [HP HF] H. split.
  - by eapply preserves_pristine_addDiscriminator.
  - by eapply preserves_finished_addDiscriminator.
Qed.

Lemma registerWithParents_bare fuel this schema K :
  preserves (at_class this (fun c => bare c = K))
    (registerWithParents resolve0 fuel this schema).
Proof.
  unfold registerWithParents.
  destruct (truthy_string _) as [v|]; [|apply preserves_ret].
  apply preserves_forM_. intros q _.
  apply preserves_bind.
  { apply (preserves_at_class_other_step E); [|apply resolve0_evolves].
    intros c c' Hstep <-. by apply (bare_other_step E). }
  intros _. apply preserves_bind; [apply preserves_get_class|].
  intros pc. destruct (isPolymorphic pc); [|apply preserves_ret].
  apply preserves_bind; [by apply preserves_bare_modify|].
  intros _. by apply preserves_at_class_addDiscriminator.
Qed.

Lemma ModelClass_constructor_scratch busy fuel this schema :
  schemas E !! this = Some schema ->
  forall w w', classImplementation w !! this = None -> scratch E busy w ->
    ModelClass_constructor E resolve0 fuel this schema w = Returned (tt, w') ->
    scratch E busy w'.
Proof.
  intros Hs w w' Hfresh [HP HF]. unfold ModelClass_constructor.
  intros ([] & w1 & Hpro & H)%bind_Returned.
  pose proof (ModelClass_prologue_pristine E this schema Hs w tt w1 HP Hpro) as HP1.
  destruct (ModelClass_prologue_world E this schema w) as (w1' & Hpro' & Hc1 & _).
  rewrite Hpro' in Hpro. injection Hpro as ->.
  set (busy' := busy ∪ {[this]}).
  assert (Hthis : this ∈ busy').
  { unfold busy'. rewrite elem_of_union, elem_of_singleton. by right. }
  assert (HF1 : finished E busy' w1).
  { intros a c sch Hc Hsch Ha. rewrite Hc1 in Hc.
    rewrite lookup_insert_ne in Hc by (by intros ->). apply (HF a c sch Hc Hsch).
    intros Hin. apply Ha. unfold busy'. rewrite elem_of_union. by left. }
  assert (HB1 : at_class this (fun c => bare c = prologueClass E this schema) w1).
  { exists (prologueClass E this schema). rewrite Hc1, lookup_insert_eq. split; [done|].
    apply bare_prologueClass. }
  apply bind_Returned in H as ([] & w2 & Hreg & H).
  pose proof (registerWithParents_scratch busy' fuel this schema Hthis w1 tt w2
                (conj HP1 HF1) Hreg) as HS2.
  pose proof (registerWithParents_bare fuel this schema _ w1 tt w2 HB1 Hreg) as HB2.
  apply bind_Returned in H as ([] & w3 & (c2 & Hc2 & [= ->])%modify_class_Returned & H).
  destruct HB2 as (c2' & Hc2' & Hbare2). rewrite Hc2 in Hc2'. injection Hc2' as <-.
  assert (HS3 : scratch E busy' (with_class this (addDefaultConstructor c2) w2)).
  { assert (Hm : preserves (scratch E busy') (modify_class this addDefaultConstructor))
      by (by apply preserves_scratch_modify).
    apply (Hm w2 tt _ HS2). exact (modify_class_Some this addDefaultConstructor w2 c2 Hc2). }
  assert (HB3 : at_class this
                  (fun c => bare c = addDefaultConstructor (prologueClass E this schema))
                  (with_class this (addDefaultConstructor c2) w2)).
  { eexists. split; [simpl; apply lookup_insert_eq|].
    change (addDefaultConstructor (bare c2)
            = addDefaultConstructor (prologueClass E this schema)).
    by rewrite Hbare2. }
  apply bind_Returned in H as ([] & w4 & Hflat & H).
  assert (Hflat_spec :
    scratch E busy' w4 /\
    at_class this (fun c => bare c = addDefaultConstructor (prologueClass E this schema)) w4).
  { revert HS3 HB3 Hflat.
    generalize (with_class this (addDefaultConstructor c2) w2). clear H.
    induction (allOf schema) as [|p ps IHps]; intros w3 HS3 HB3 Hflat.
    - by injection Hflat as <-.
    - simpl in Hflat. apply bind_Returned in Hflat as ([] & w3' & Hp & Hflat).
      destruct HS3 as [HP3 HF3].
      destruct (implementInterfaceForParentSchema_pristine E newModelInterface_head
                  resolve0 resolve0_keeps_pristine fuel this p w3 w3' HP3 Hp)
        as [_ (td & Hres)].
      apply (IHps w3'); [|clear IHps|done].
      + by apply (resolve0_scratch p busy' w3 td w3').
      + revert HB3 Hres.
        apply (preserves_at_class_other_step E); [|apply resolve0_evolves].
        intros c c' Hstep <-. by apply (bare_other_step E). }
  destruct Hflat_spec as [[HP4 HF4] (c4 & Hc4 & Hbare4)].
  apply modify_class_Returned in H as (c4' & Hc4' & [= ->]).
  rewrite Hc4 in Hc4'. injection Hc4' as <-.
  split.
  - assert (Hm : preserves (pristine E) (modify_class this (ModelClass_epilogue E schema))).
    { apply preserves_pristine_modify.
      - intros c. pose proof (core_ModelClass_epilogue E schema c) as Hcore.
        unfold core in Hcore. by injection Hcore.
      - apply unflattened_ModelClass_epilogue. }
    apply (Hm w4 tt _ HP4).
    exact (modify_class_Some this (ModelClass_epilogue E schema) w4 c4 Hc4).
  - intros a ca sch Hca Hsch Ha. simpl in Hca. destruct (decide (a = this)) as [->|Hne].
    + rewrite lookup_insert_eq in Hca. injection Hca as <-.
      rewrite Hs in Hsch. injection Hsch as <-.
      rewrite bare_ModelClass_epilogue, Hbare4. done.
    + rewrite lookup_insert_ne in Hca by done. apply (HF4 a ca sch Hca Hsch).
      unfold busy'. rewrite elem_of_union, elem_of_singleton. tauto.
Qed.

End Scratch.

Lemma resolve_scratch E fuel :
  (forall s sch p, head (mi_interfaces (newModelInterface E s sch)) <> Some (ModelInterfaceOf p)) ->
  forall q busy, preserves (scratch E busy) (resolve E fuel q).
Proof.
  intros Hnew. induction fuel as [|fuel IH]; intros q busy w r w' HS H;
    apply resolve_Returned in H as (schema & Hs & _ & [[_ ->]|[Hfresh Hnewc]]);
    try done.
  rewrite (ModelClass_new_unfold _ _ _ _ Hs) in Hnewc.
  by eapply (ModelClass_constructor_scratch E Hnew (resolve E fuel)
               (resolve_evolves E fuel) IH busy fuel q schema Hs w w').
Qed.

(** X20. After a build that starts with nothing built, every class is, its
    registry apart, the class that the constructor leaves for a schema
    without parents: the parents of the schema leave no trace in it but the
    recorded parents and the entries of the registry.  The constructor of a
    model interface does not list a model interface first. *)
Theorem build_from_scratch_ignores_parents E fuel roots w :
  (forall s sch p, head (mi_interfaces (newModelInterface E s sch)) <> Some (ModelInterfaceOf p)) ->
  build E fuel roots emptyWorld = Returned (tt, w) ->
  forall s c sch,
    classImplementation w !! s = Some c -> schemas E !! s = Some sch ->
    set_discriminators ∅ (set_parentModelClasses [] c)
    = ModelClass_epilogue E sch (addDefaultConstructor (prologueClass E s sch)).
Proof.
  intros Hnew H.
  assert (HS : scratch E ∅ w).
  { assert (Hbuild : preserves (scratch E ∅) (build E fuel roots)).
    { apply preserves_forM_. intros s _. apply preserves_bind.
      - by apply resolve_scratch.
      - intros _. apply preserves_ret. }
    apply (Hbuild emptyWorld tt w); [|done]. split.
    - split; intros s x; simpl; by rewrite lookup_empty.
    - intros a c sch Hc. simpl in Hc. by rewrite lookup_empty in Hc. }
  destruct HS as [_ HF]. intros s c sch Hc Hsch.
  apply (HF s c sch Hc Hsch). apply not_elem_of_empty.
Qed.

Lemma build_from_scratch_ignores_parents_witness :
  build lineageEnvironment 5 [2] emptyWorld
    = Returned (tt, worldOf (build lineageEnvironment 5 [2] emptyWorld)) /\
  forall s c sch,
    classImplementation (worldOf (build lineageEnvironment 5 [2] emptyWorld)) !! s = Some c ->
    schemas lineageEnvironment !! s = Some sch ->
    set_discriminators ∅ (set_parentModelClasses [] c)
    = ModelClass_epilogue lineageEnvironment sch
        (addDefaultConstructor (prologueClass lineageEnvironment s sch)).
Proof.
  split; [vm_compute; reflexivity|].
  apply (build_from_scratch_ignores_parents lineageEnvironment 5 [2]).
  - intros s sch p. simpl. discriminate.
  - vm_compute. reflexivity.
Defined.

(** ** The accessors of the virtual properties *)

Lemma proxyOf_accessors E description each : proxyAccessors E (proxyOf E description each).
Proof.
  unfold proxyAccessors, proxyOf.
  destruct (decide (setAccess each = Internal)) as [Heq|Hne]; cbn.
  - by rewrite decide_True.
  - by rewrite decide_False.
Qed.

Lemma addInheritedProperties_proxies E description ps c :
  proxies E c -> proxies E (addInheritedProperties E description ps c).
Proof.
  intros Hc. unfold proxies. rewrite addInheritedProperties_class_properties.
  apply Forall_app. split; [done|].
  apply Forall_forall. intros vp (each & -> & _)%list_elem_of_fmap.
  apply proxyOf_accessors.
Qed.

Lemma other_step_proxies E c c' : other_step E c c' -> proxies E c -> proxies E c'.
Proof.
  intros Hstep Hc. apply other_step_core in Hstep.
  injection Hstep as _ _ _ _ _ _ Hp _ _ _. unfold proxies. by rewrite Hp.
Qed.

Section Proxies.
Context (E : Environment) (this : SchemaId).
Context (resolve0 : SchemaId -> M TypeDeclaration).
Hypothesis resolve0_evolves : forall p, respects (evolves E) (resolve0 p).

Lemma registerWithParents_proxies fuel schema :
  preserves (at_class this (proxies E)) (registerWithParents resolve0 fuel this schema).
Proof.
  unfold registerWithParents.
  destruct (truthy_string _) as [v|]; [|apply preserves_ret].
  apply preserves_forM_. intros q _.
  apply preserves_bind.
  { apply (preserves_at_class_other_step E); [apply other_step_proxies|done]. }
  intros _. apply preserves_bind; [apply preserves_get_class|].
  intros pc. destruct (isPolymorphic pc); [|apply preserves_ret].
  apply preserves_bind; [by apply preserves_at_class_modify|].
  intros _. by apply preserves_at_class_addDiscriminator.
Qed.

Lemma implementInterfaceForParentSchema_proxies fuel :
  forall p, preserves (at_class this (proxies E))
              (implementInterfaceForParentSchema E resolve0 fuel this p).
Proof.
  induction fuel as [|fuel IH]; intros p; [intros w a w' _ [=]|].
  simpl.
  apply preserves_bind.
  { apply (preserves_at_class_other_step E); [apply other_step_proxies|done]. }
  intros td. apply preserves_bind; [apply preserves_get_class|].
  intros me. apply preserves_bind; [apply preserves_get_interface|].
  intros mine. apply preserves_bind; [apply preserves_find_interface|].
  intros pif. destruct (truthy_number _); [apply preserves_ret|].
  apply preserves_bind; [apply preserves_at_class_modify_interface|].
  intros _. apply preserves_bind; [apply preserves_get_class|].
  intros pc. apply preserves_bind; [apply preserves_get_class|].
  intros me2. apply preserves_bind; [apply preserves_lift|].
  intros fieldName. apply preserves_bind; [by apply preserves_at_class_modify|].
  intros _. apply preserves_bind; [by apply preserves_at_class_modify|].
  intros _. apply preserves_bind; [apply preserves_get_interface|].
  intros pi. apply preserves_bind; [apply preserves_get_allProperties|].
  intros inherited. apply preserves_bind; [apply preserves_lift|].
  intros parent. apply preserves_bind.
  { apply preserves_at_class_modify. intros c. apply addInheritedProperties_proxies. }
  intros _. apply preserves_bind; [by apply preserves_at_class_modify|].
  intros _. apply preserves_bind; [by apply preserves_at_class_modify|].
  intros _. apply preserves_forM_. intros each _. apply IH.
Qed.

Lemma ModelClass_constructor_proxies fuel schema w w' :
  ModelClass_constructor E resolve0 fuel this schema w = Returned (tt, w') ->
  at_class this (proxies E) w'.
Proof.
  unfold ModelClass_constructor.
  destruct (ModelClass_prologue_Returned E this schema w) as (w1 & Hpro & Hw1).
  rewrite (bind_Returned_2 _ _ _ _ _ Hpro).
  intros ([] & w2 & Hreg & H)%bind_Returned.
  apply bind_Returned in H as ([] & w3 & Hctor & H).
  apply bind_Returned in H as ([] & w4 & Hflat & H).
  assert (HP1 : at_class this (proxies E) w1).
  { exists (prologueClass E this schema). rewrite Hw1, lookup_insert_eq. split; [done|].
    unfold prologueClass, proxies. destruct (discriminator schema); cbn; constructor. }
  apply (registerWithParents_proxies _ _ _ _ _ HP1) in Hreg as HP2.
  apply (preserves_at_class_modify this (proxies E) this addDefaultConstructor) in Hctor
    as HP3; [|done|done].
  assert (HP4 : at_class this (proxies E) w4).
  { revert Hflat. apply preserves_forM_; [|done].
    intros p _. apply implementInterfaceForParentSchema_proxies. }
  revert H. apply preserves_at_class_modify; [|done].
  intros c Hc. unfold proxies.
  pose proof (core_ModelClass_epilogue E schema c) as Hcore.
  unfold core in Hcore. injection Hcore as _ _ _ _ _ _ _ Hp _. by rewrite Hp.
Qed.

End Proxies.

(** X21. In a class that its constructor has built, whatever the code model
    it started from, every virtual property has the accessors of a proxy: it
    bears the name of the inherited property it stands for and reads it with
    one statement; it has no setter statements when the setter of the
    inherited property is internal, and the one assignment otherwise. *)
Theorem virtual_properties_are_proxies E fuel this w w' :
  ModelClass_new E fuel this w = Returned (tt, w') ->
  exists c,
    classImplementation w' !! this = Some c /\
    forall vp, vp ∈ class_properties c ->
      vp_name vp = ip_name (vp_type vp) /\
      getterStatements vp =
        Some ["return " +:+ valueOf E (vp_type vp) +:+ "." +:+ vp_name vp +:+ ";"] /\
      setterStatements vp =
        if decide (setAccess (vp_type vp) = Internal) then None
        else Some [valueOf E (vp_type vp) +:+ "." +:+ vp_name vp +:+ " = value;"].
Proof.
  destruct fuel as [|fuel]; [discriminate|].
  destruct (schemas E !! this) as [schema|] eqn:Hs; [|simpl; by rewrite Hs].
  rewrite (ModelClass_new_unfold _ _ _ _ Hs). intros H.
  apply (ModelClass_constructor_proxies E this _ (resolve_evolves E fuel)) in H
    as (c & Hc & Hproxies).
  exists c. split; [done|]. intros vp Hvp.
  unfold proxies in Hproxies. rewrite Forall_forall in Hproxies.
  exact (Hproxies vp Hvp).
Qed.

Lemma virtual_properties_are_proxies_witness :
  exists c,
    classImplementation (worldOf (ModelClass_new headersEnvironment 5 1 guarded)) !! 1
      = Some c /\
    forall vp, vp ∈ class_properties c ->
      vp_name vp = ip_name (vp_type vp) /\
      getterStatements vp =
        Some ["return " +:+ valueOf headersEnvironment (vp_type vp) +:+ "." +:+ vp_name vp
                +:+ ";"] /\
      setterStatements vp =
        if decide (setAccess (vp_type vp) = Internal) then None
        else Some [valueOf headersEnvironment (vp_type vp) +:+ "." +:+ vp_name vp
                     +:+ " = value;"].
Proof.
  apply (virtual_properties_are_proxies headersEnvironment 5 1 guarded).
  vm_compute. reflexivity.
Defined.

(** ** Discriminator propagation through the build pass (C1) *)

(** C1, as amended.  On a code model whose recorded polymorphic-parent
    lists are well founded, [addDiscriminator(v, D)] returns, and the class
    it was called on and every class reachable from it through the recorded
    lists then hold the entry [v -> D].  After a build pass, from scratch,
    over a schema graph that is acyclic along [allOf], every class [a]
    reachable through the recorded lists from a recorded parent of a class
    [D] with literal [v] holds an entry for [v]: an entry to a class that
    carries [v] and from which the recorded lists lead to [a]; it is the
    entry [v -> D] when [D] is the only such class.  For the chain R, C
    (literal c, polymorphic), G (literal g), the build pass leaves c -> C and
    g -> G in the map of R and g -> G in the map of C. *)
Theorem discriminator_propagation :
  (forall rank fuel P v D w,
      ranked rank w -> is_Some (classImplementation w !! P) -> rank P < fuel ->
      exists w1, addDiscriminator fuel P v D w = Returned (tt, w1) /\
        forall a, rtc (parent_of w1) P a -> holds w1 a v D) /\
  (forall E rk fuel roots w,
      acyclic E rk ->
      build E fuel roots emptyWorld = Returned (tt, w) ->
      forall D v p a,
        declares E D v -> parent_of w D p -> rtc (parent_of w) p a ->
        (exists D', declares E D' v /\ tc (parent_of w) D' a /\ holds w a v D') /\
        ((forall d, declares E d v -> tc (parent_of w) d a -> d = D) -> holds w a v D)) /\
  (exists w, build chainEnvironment 5 [0; 1; 2] emptyWorld = Returned (tt, w) /\
     holds w 0 "c" 1 /\ holds w 0 "g" 2 /\ holds w 1 "g" 2 /\
     parent_of w 2 1 /\ parent_of w 1 0).
Proof.
  split; [|split].
  - intros rank fuel P v D w Hrank HP Hfuel.
    destruct (addDiscriminator_returns rank fuel v D P w Hrank HP Hfuel) as (w1 & Hrun).
    exists w1. split; [done|].
    pose proof (addDiscriminator_registered _ _ _ _ _ _ _ Hrun) as Hr.
    intros a Ha. eapply addDiscriminator_reaches; [done|].
    by apply (registered_rtc _ _ _ _ _ _ Hr).
  - intros E rk fuel roots w Hacyclic Hbuild D v p a HD Hp Hpa.
    pose proof (build_registry_complete E rk Hacyclic fuel roots w Hbuild D p a v HD Hp Hpa)
      as (D' & HD' & Hholds).
    destruct (build_keeps E fuel roots w Hbuild) as [(_ & _ & Hsound) _].
    destruct (Hsound a v D' Hholds) as [_ Hreach].
    split; [by exists D'|].
    intros Hunique. by rewrite <- (Hunique D' HD' Hreach).
  - eexists. split; [vm_compute; reflexivity|].
    repeat split; eexists; (split; [vm_compute; reflexivity|]);
      first [vm_compute; reflexivity | apply list_elem_of_In; vm_compute; auto].
Qed.

(** The registration that G makes in the world with the classes of R and C,
    and the map of R after the build pass of the chain. *)
Lemma discriminator_propagation_witness :
  (exists w1,
     addDiscriminator 5 1 "g" 2 chainParents = Returned (tt, w1) /\
     holds w1 1 "g" 2 /\ holds w1 0 "g" 2) /\
  holds (worldOf (build chainEnvironment 5 [2] emptyWorld)) 0 "g" 2.
Proof.
  destruct discriminator_propagation as (Hcall & Hbuild & _). split.
  - destruct (Hcall (fun s => s) 5 1 "g" 2 chainParents) as (w1 & Hrun & Hnow).
    + apply chainParents_ranked.
    + vm_compute. eauto.
    + lia.
    + exists w1. split; [done|]. split.
      * apply Hnow. reflexivity.
      * apply Hnow.
        apply (registered_rtc "g" 2 chainParents w1);
          [by eapply addDiscriminator_registered|].
        apply rtc_once, chainParents_parent.
  - apply (Hbuild chainEnvironment (fun s => s) 5 [2] _) with (p := 1).
    + apply acyclic_check. apply (bool_decide_unpack _). vm_compute. exact I.
    + vm_compute. reflexivity.
    + eexists. split; vm_compute; reflexivity.
    + eexists. split; [vm_compute; reflexivity|]. apply list_elem_of_In. vm_compute. auto.
    + apply rtc_once. eexists. split; [vm_compute; reflexivity|].
      apply list_elem_of_In. vm_compute. auto.
    + intros d Hd _. revert d Hd.
      apply declares_unique_check. apply (bool_decide_unpack _). vm_compute. exact I.
Defined.

(** The claim as stated fails when two classes carry the same literal: the
    map of Animal sends dog to the class built last, not to Dog, although
    Animal is the recorded polymorphic parent of Dog. *)
Lemma discriminator_entry_overwritten :
  exists w, build kennelEnvironment 5 [1; 2] emptyWorld = Returned (tt, w) /\
    declares kennelEnvironment 1 "dog" /\
    rtc (parent_of w) 1 0 /\
    ~ holds w 0 "dog" 1.
Proof.
  eexists. split; [vm_compute; reflexivity|]. split; [|split].
  - eexists. split; vm_compute; reflexivity.
  - apply rtc_once. eexists. split; [vm_compute; reflexivity|].
    apply list_elem_of_In. vm_compute. auto.
  - intros (c & Hc & Hv). vm_compute in Hc. injection Hc as <-.
    vm_compute in Hv. discriminate.
Qed.

(** The build pass needs the graph to be acyclic along [allOf].  In the knot,
    D is built, and registers with P, while P has not yet recorded its own
    polymorphic parent Q: in the end Q is reachable from D through the
    recorded lists and has no entry for the literal d. *)
Example cyclic_allOf_registry_incomplete :
  exists w, build knotEnvironment 9 [0] emptyWorld = Returned (tt, w) /\
    parent_of w 2 0 /\ parent_of w 0 3 /\
    (registry <$> classOf w 0) = Some [("d", 2)] /\
    (registry <$> classOf w 3) = Some [("p", 0)].
Proof.
  eexists. split; [vm_compute; reflexivity|].
  split; [|split; [|split; vm_compute; reflexivity]];
    (eexists; split; [vm_compute; reflexivity|]; apply list_elem_of_In; vm_compute; auto).
Qed.
